(** * RunningAheadMembers: membership interval reconciliation

    A shallow embedding of [runningaheadmembers.py] (class
    [RunningAheadMembers], Python 2) and the properties of its constructor
    and of its two generator views, [membership_iter] and [name_iter]; then,
    in the module [racedb], of the helpers [getunique], [update] and
    [insert_or_update] of [racedb.py] and of the constructor of its
    [Runner].

    Modelling conventions.
    - Python [str] values are [string]; [<=] on them is the bytewise
      lexicographic order, [String.leb].
    - A row produced by [csv.DictReader] is a Python dict from column names
      to values, [gmap string string]; every value is a [str].  The reader
      stores [None] for the fields that a short line lacks; such rows are
      not rows of the embedding, and [reads] says of an argument of the
      constructor whether the reader builds rows of the embedding from it.
    - Rows are mutable objects, built by the reader inside the constructor
      and shared by the records of the reconciler and by whoever iterates the
      views.  The [heap] is the list of the rows in input order and a
      reference to a row is its position in that list.
    - [self.names] is a dict keyed by [(lname, fname, dob)] whose values are
      lists.  The constructor and both views iterate over it.  A Python 2
      dict is iterated in an arbitrary order, which stays the same as long as
      no key is added or removed, and none is after the reading loop; the
      embedding takes the order in which the keys were first inserted and
      keeps the dict as an association list in that order.  The statements
      about groups do not depend on it.
    - Exceptions are values of [exn] and fallible code lives in the error
      monad [exn + _].
    - Reading the member file is assumed to succeed: a [memberfile] is
      given by the rows that the csv reader yields from it, and [argument]
      by the lines the reader is fed.  The debug file is given by the list
      of rows written to it.  [init] is the constructor where no operation on
      the debug file fails, [init_io] the constructor in an environment
      where one may. *)

From Stdlib Require Import ZArith Ascii String.
From stdpp Require Import gmap strings list fin_maps sorting.

Open Scope Z_scope.

(** ** Exceptions *)

Inductive exn :=
| NameError (name : string)
| KeyError (key : string)
| ValueError
| IndexError
| IOError
| TypeError.

Abbreviation M := (sum exn).

#[global] Instance exn_bind : MBind M :=
  λ A B f m, match m with inl e => inl e | inr a => f a end.

Definition raise {A} (e : exn) : M A := inl e.
Definition ok {A} (a : A) : M A := inr a.

(** Left fold of a fallible step over a list: a [for] loop whose body may
    raise. *)
Fixpoint for_each {A S} (body : S → A → M S) (l : list A) (s : S) : M S :=
  match l with
  | [] => ok s
  | x :: l' => s' ← body s x; for_each body l' s'
  end.

(** ** Calendar dates: [datetime], [strptime] and [strftime]

    The constructor only uses the date part of [datetime] values (the time of
    day of every value it builds is midnight). *)

Record datetime := Datetime { year : Z; month : Z; day : Z }.

Definition MINYEAR : Z := 1.
Definition MAXYEAR : Z := 9999.

Definition is_leap (y : Z) : bool :=
  (y mod 4 =? 0) && (negb (y mod 100 =? 0) || (y mod 400 =? 0)).

Definition days_in_month (y m : Z) : Z :=
  if m =? 2 then (if is_leap y then 29 else 28)
  else if (m =? 4) || (m =? 6) || (m =? 9) || (m =? 11) then 30
  else 31.

Definition valid_date (y m d : Z) : bool :=
  (MINYEAR <=? y) && (y <=? MAXYEAR) && (1 <=? m) && (m <=? 12)
  && (1 <=? d) && (d <=? days_in_month y m).

(** [datetime(y, m, d)]: raises [ValueError] outside the supported range. *)
Definition datetime_init (y m d : Z) : M datetime :=
  if valid_date y m d then ok (Datetime y m d) else raise ValueError.

Definition dt_compare (a b : datetime) : comparison :=
  match year a ?= year b with
  | Eq => match month a ?= month b with
          | Eq => day a ?= day b
          | c => c
          end
  | c => c
  end.

(** [a > b] on datetimes. *)
Definition dt_gtb (a b : datetime) : bool :=
  match dt_compare a b with Gt => true | _ => false end.

Definition dt_leb (a b : datetime) : bool := negb (dt_gtb a b).
Definition dt_ltb (a b : datetime) : bool := dt_gtb b a.

Definition digit_val (c : ascii) : option Z :=
  let n := Z.of_N (N_of_ascii c) in
  if (48 <=? n) && (n <=? 57) then Some (n - 48) else None.

Definition digit_char (n : Z) : ascii := ascii_of_N (Z.to_N (48 + n mod 10)).

(** [%Y] of [strptime]: exactly four digits. *)
Definition parse_Y (a b c d : ascii) : option Z :=
  va ← digit_val a; vb ← digit_val b; vc ← digit_val c; vd ← digit_val d;
  Some (1000 * va + 100 * vb + 10 * vc + vd).

(** [%m] of [strptime]: [1[0-2]|0[1-9]|[1-9]]. *)
Definition parse_m (cs : list ascii) : option Z :=
  match cs with
  | [a] => va ← digit_val a; if 1 <=? va then Some va else None
  | [a; b] =>
      va ← digit_val a; vb ← digit_val b;
      if ((va =? 1) && (vb <=? 2)) || ((va =? 0) && (1 <=? vb))
      then Some (10 * va + vb) else None
  | _ => None
  end.

(** [%d] of [strptime]: [3[0-1]|[1-2]\d|0[1-9]|[1-9]| [1-9]]. *)
Definition parse_d (cs : list ascii) : option Z :=
  match cs with
  | [a] => va ← digit_val a; if 1 <=? va then Some va else None
  | [a; b] =>
      if Ascii.eqb a " " then
        vb ← digit_val b; if 1 <=? vb then Some vb else None
      else
        va ← digit_val a; vb ← digit_val b;
        if ((va =? 3) && (vb <=? 1)) || ((1 <=? va) && (va <=? 2))
           || ((va =? 0) && (1 <=? vb))
        then Some (10 * va + vb) else None
  | _ => None
  end.

(** The three fields that the format [%Y-%m-%d] extracts from the whole
    string, when it matches. *)
Definition match_ymd (s : string) : option (Z * Z * Z) :=
  match list_ascii_of_string s with
  | y1 :: y2 :: y3 :: y4 :: "-"%char :: m1 :: "-"%char :: ds =>
      y ← parse_Y y1 y2 y3 y4; m ← parse_m [m1]; d ← parse_d ds;
      Some (y, m, d)
  | y1 :: y2 :: y3 :: y4 :: "-"%char :: m1 :: m2 :: "-"%char :: ds =>
      y ← parse_Y y1 y2 y3 y4; m ← parse_m [m1; m2]; d ← parse_d ds;
      Some (y, m, d)
  | _ => None
  end.

Definition fmt2 (n : Z) : list ascii := [digit_char (n / 10); digit_char n].
Definition fmt4 (n : Z) : list ascii :=
  [digit_char (n / 1000); digit_char (n / 100); digit_char (n / 10);
   digit_char n].

(** The text of a date in the form [%Y-%m-%d], zero padded. *)
Definition format_ymd (dt : datetime) : string :=
  string_of_list_ascii
    (fmt4 (year dt) ++ "-"%char :: fmt2 (month dt) ++ "-"%char :: fmt2 (day dt)).

(** [ymd = timeu.asctime('%Y-%m-%d')] of the [loutilities] package:
    [asc2dt] is [datetime.strptime] and [dt2asc] is [datetime.strftime] with
    that format.  [strptime] raises [ValueError] when the text does not match
    the format or names no calendar date; the [strftime] of Python 2 raises
    [ValueError] for a year before 1900. *)
Module ymd.

Definition asc2dt (asc : string) : M datetime :=
  match match_ymd asc with
  | Some (y, m, d) => datetime_init y m d
  | None => raise ValueError
  end.

Definition dt2asc (dt : datetime) : M string :=
  if year dt <? 1900 then raise ValueError else ok (format_ymd dt).

End ymd.

(** A date text is well formed when it is the zero-padded [YYYY-MM-DD] text
    of a calendar date. *)
Definition wf_date (s : string) : bool :=
  match ymd.asc2dt s with
  | inr dt => String.eqb (format_ymd dt) s
  | inl _ => false
  end.

(** The calendar date a text denotes (only used on well-formed texts). *)
Definition date_of (s : string) : datetime :=
  match ymd.asc2dt s with
  | inr dt => dt
  | inl _ => Datetime 0 0 0
  end.

(** ** Records of the reconciler *)

(** A row of the member file as [csv.DictReader] yields it. *)
Abbreviation row := (gmap string string).

(** The key of [self.names]: [(lname, fname, dob)]. *)
Abbreviation namekey := (string * string * string)%type.

(** The dict [thisrec] built for every row.  [fullrec] refers to the row
    object itself; the key ['tossed'] is absent until the record is tossed. *)
Record thisrec := ThisRec {
  MemberID : string;
  name : string;
  join : string;
  expiration : string;
  dob : string;
  fullrec : nat;
  tossed : option string
}.

(** [rec['join'] = v] and [rec['tossed'] = v]. *)
Definition set_join (v : string) (r : thisrec) : thisrec :=
  ThisRec (MemberID r) (name r) v (expiration r) (dob r) (fullrec r) (tossed r).
Definition set_tossed (v : string) (r : thisrec) : thisrec :=
  ThisRec (MemberID r) (name r) (join r) (expiration r) (dob r) (fullrec r)
    (Some v).

(** [d[k]] on a dict. *)
Definition getitem (d : row) (k : string) : M string :=
  match d !! k with
  | Some v => ok v
  | None => raise (KeyError k)
  end.

(** [l[i]] on a list, for a non-negative [i]. *)
Definition getidx {A} (l : list A) (i : nat) : M A :=
  match l !! i with
  | Some x => ok x
  | None => raise IndexError
  end.

(** [l.pop(i)], keeping the list only. *)
Definition pop {A} (l : list A) (i : nat) : M (list A) :=
  match l !! i with
  | Some _ => ok (delete i l)
  | None => raise IndexError
  end.

(** The [memberfile] argument by its Python type.  A [str] is a file name,
    the rows are those read from the file it names. *)
Inductive memberfile :=
| mf_str (rows : list row)
| mf_file (rows : list row)
| mf_list (rows : list row)
| mf_other.

(** [if not thisname in names: names[thisname] = []] followed by
    [names[thisname].append(thisrec)]. *)
Fixpoint names_append (thisname : namekey) (r : thisrec)
    (names : list (namekey * list thisrec)) : list (namekey * list thisrec) :=
  match names with
  | [] => [(thisname, [r])]
  | (k, g) :: rest =>
      if decide (k = thisname) then (k, g ++ [r]) :: rest
      else (k, g) :: names_append thisname r rest
  end.

(** Body of the reading loop; [ref] is the reference to the row
    [membership]. *)
Definition read_membership (names : list (namekey * list thisrec))
    (entry : nat * row) : M (list (namekey * list thisrec)) :=
  let '(ref, membership) := entry in
  asc_joindate ← getitem membership "JoinDate";
  asc_expdate ← getitem membership "ExpirationDate";
  fname ← getitem membership "GivenName";
  lname ← getitem membership "FamilyName";
  dob ← getitem membership "DOB";
  memberid ← getitem membership "MemberID";
  let fullname := (lname ++ ", " ++ fname)%string in
  let thisrec :=
    ThisRec memberid fullname asc_joindate asc_expdate dob ref None in
  let thisname := (lname, fname, dob) in
  ok (names_append thisname thisrec names).

(** The rows with their references. *)
Definition enumerate {A} (l : list A) : list (nat * A) :=
  zip (seq 0 (length l)) l.

(** *** Sorting

    [sorted(l, key=lambda k: (k['expiration'], k['join']))].  Python compares
    the key tuples lexicographically and its sort is stable; the stable
    sorting of a list is unique, here it is computed by insertion. *)
Definition key_ltb (a b : thisrec) : bool :=
  match String.compare (expiration a) (expiration b) with
  | Lt => true
  | Gt => false
  | Eq => String.ltb (join a) (join b)
  end.

Fixpoint insert_sorted (x : thisrec) (l : list thisrec) : list thisrec :=
  match l with
  | [] => [x]
  | y :: l' => if key_ltb y x then y :: insert_sorted x l' else x :: y :: l'
  end.

Definition sorted (l : list thisrec) : list thisrec :=
  foldr insert_sorted [] l.

(** *** The overlap loop *)

(** A row of the debug file: the values that [csv.DictWriter] writes for the
    columns MemberID, name, dob, renewal, join, expiration, tossed (a missing
    key is written as the empty text, other keys are ignored). *)
Definition ovrlp_row (r : thisrec) : list string :=
  [MemberID r; name r; dob r; ""%string; join r; expiration r;
   default ""%string (tossed r)].

Definition ovrlp_header : list string :=
  ["MemberID"; "name"; "dob"; "renewal"; "join"; "expiration"; "tossed"]%string.

Record loop_state := LoopState {
  ls_group : list thisrec;
  ls_toss : list nat;
  ls_heap : list row;
  ls_log : list (list string)
}.

(** Body of [for i in range(1, len(self.names[thisname]))]. *)
Definition overlap_body (debug : bool) (st : loop_state) (i : nat)
    : M loop_state :=
  cur ← getidx (ls_group st) i;
  prev ← getidx (ls_group st) (i - 1)%nat;
  if String.leb (join cur) (expiration prev) then
    lastexp_dt ← ymd.asc2dt (expiration prev);
    thisexp_dt ← ymd.asc2dt (expiration cur);
    jan1_dt ← datetime_init (year lastexp_dt + 1) 1 1;
    jan1_asc ← ymd.dt2asc jan1_dt;
    let '(toss, cur1) :=
      if dt_gtb jan1_dt thisexp_dt
      then (ls_toss st ++ [i], set_tossed "Y" cur)
      else (ls_toss st, cur) in
    let log :=
      if debug then ls_log st ++ [ovrlp_row prev; ovrlp_row cur1]
      else ls_log st in
    let cur2 := set_join jan1_asc cur1 in
    ok (LoopState (<[i := cur2]> (ls_group st)) toss
          (alter (<["JoinDate" := jan1_asc]>) (fullrec cur2) (ls_heap st))
          log)
  else ok st.

(** [toss.reverse()] and the loop of [pop]s. *)
Definition pop_tossed (g : list thisrec) (toss : list nat)
    : M (list thisrec) :=
  for_each pop (reverse toss) g.

(** Body of [for thisname in self.names]: sort the group, run the overlap
    loop over it, throw out the tossed records. *)
Definition reconcile_group (debug : bool) (g : list thisrec)
    (heap : list row) (log : list (list string))
    : M (list thisrec * list row * list (list string)) :=
  let g1 := sorted g in
  st ← for_each (overlap_body debug) (seq 1 (length g1 - 1))
         (LoopState g1 [] heap log);
  g2 ← pop_tossed (ls_group st) (ls_toss st);
  ok (g2, ls_heap st, ls_log st).

(** One iteration of [for thisname in self.names], on the entry of
    [thisname]: the keys of the dict are distinct, so the assignment to
    [self.names[thisname]] replaces the list of this entry and no other. *)
Definition reconcile_entry (debug : bool)
    (acc : list (namekey * list thisrec) * list row * list (list string))
    (entry : namekey * list thisrec)
    : M (list (namekey * list thisrec) * list row * list (list string)) :=
  let '(done, heap, log) := acc in
  let '(thisname, g) := entry in
  '(g2, heap', log') ← reconcile_group debug g heap log;
  ok (done ++ [(thisname, g2)], heap', log').

(** *** The constructor *)

(** What [__init__] leaves behind: the object ([self.names]), the rows that
    its records refer to and that the views yield, and the debug file when
    one was asked for. *)
Record constructed := Constructed {
  names : list (namekey * list thisrec);
  heap : list row;
  ovrlp : option (list (list string))
}.

(** [if overlapfile:] *)
Definition truthy (overlapfile : option string) : bool :=
  match overlapfile with
  | Some s => negb (String.eqb s "")
  | None => false
  end.

(** The rows behind [memberfile]; any other type than [str], [file] and
    [list] reaches [raise unsupportedFileType], a name that the module never
    defines, so that Python raises [NameError] there. *)
Definition source_rows (mf : memberfile) : M (list row) :=
  match mf with
  | mf_str rows | mf_file rows | mf_list rows => ok rows
  | mf_other => raise (NameError "unsupportedFileType")
  end.

(** The reading loop, from [self.names = {}]. *)
Definition read_names (rows : list row) : M (list (namekey * list thisrec)) :=
  for_each read_membership (enumerate rows) [].

(** [__init__(self, memberfile, overlapfile=None)], where no operation on
    the debug file fails. *)
Definition init (mf : memberfile) (overlapfile : option string)
    : M constructed :=
  rows ← source_rows mf;
  names0 ← read_names rows;
  let debug := truthy overlapfile in
  '(names1, heap1, log) ←
    for_each (reconcile_entry debug) names0 ([], rows, []);
  ok (Constructed names1 heap1
        (if debug then Some (ovrlp_header :: log) else None)).

(** *** The two views

    A generator yields references to rows; its consumer reads the row as it
    is at that moment.  A view returns both: the reference yielded and the
    row found there. *)

Definition deref (heap : list row) (ref : nat) : row := heap !!! ref.

Definition membership_iter (names : list (namekey * list thisrec))
    (heap : list row) : list (nat * row) :=
  flat_map
    (λ entry, map (λ m, (fullrec m, deref heap (fullrec m))) entry.2) names.

(** Body of the loop of [name_iter]; the state is the heap and what was
    yielded so far. *)
Definition name_iter_body (acc : list row * list (nat * row))
    (entry : namekey * list thisrec) : M (list row * list (nat * row)) :=
  let '(heap, out) := acc in
  match last entry.2, head entry.2 with
  | Some lastrec, Some firstrec =>
      let thismembership := fullrec lastrec in
      let heap' :=
        alter (<["JoinDate" := join firstrec]>) thismembership heap in
      ok (heap', out ++ [(thismembership, deref heap' thismembership)])
  | _, _ => raise IndexError
  end.

(** [name_iter] returns the heap it leaves and what it yields. *)
Definition name_iter (names : list (namekey * list thisrec))
    (heap : list row) : M (list row * list (nat * row)) :=
  for_each name_iter_body names (heap, []).

(** ** Closed form of the overlap loop

    What one iteration decides about the record [o_orig] at index [i], given
    the record [prev] at index [i-1]: whether it overlaps, whether it is
    tossed, and the record [o_rec] that the loop leaves at index [i]. *)
Record outcome := Outcome {
  o_orig : thisrec;
  o_overlap : bool;
  o_toss : bool;
  o_rec : thisrec
}.

Definition untouched (r : thisrec) : outcome := Outcome r false false r.

Definition repair (prev cur : thisrec) : M outcome :=
  if String.leb (join cur) (expiration prev) then
    lastexp_dt ← ymd.asc2dt (expiration prev);
    thisexp_dt ← ymd.asc2dt (expiration cur);
    jan1_dt ← datetime_init (year lastexp_dt + 1) 1 1;
    jan1_asc ← ymd.dt2asc jan1_dt;
    let t := dt_gtb jan1_dt thisexp_dt in
    ok (Outcome cur true t
          (set_join jan1_asc (if t then set_tossed "Y" cur else cur)))
  else ok (untouched cur).

Fixpoint repaired (prev : thisrec) (rest : list thisrec) : M (list outcome) :=
  match rest with
  | [] => ok []
  | cur :: rest' =>
      o ← repair prev cur; os ← repaired (o_rec o) rest'; ok (o :: os)
  end.

(** The outcomes for a whole sorted group; the record at index 0 is never
    examined. *)
Definition outcomes (s : list thisrec) : M (list outcome) :=
  match s with
  | [] => ok []
  | first :: rest => os ← repaired first rest; ok (untouched first :: os)
  end.

Definition survivors (os : list outcome) : list thisrec :=
  map o_rec (filter (λ o, o_toss o = false) os).

Fixpoint toss_idx (i : nat) (os : list outcome) : list nat :=
  match os with
  | [] => []
  | o :: os' => (if o_toss o then [i] else []) ++ toss_idx (S i) os'
  end.

(** The writes to the field [JoinDate] of rows, as (reference, value). *)
Definition group_writes (os : list outcome) : list (nat * string) :=
  map (λ o, (fullrec (o_rec o), join (o_rec o)))
      (filter (λ o, o_overlap o = true) os).

Definition apply_writes (heap : list row) (ws : list (nat * string))
    : list row :=
  foldl (λ h w, alter (<["JoinDate" := w.2]>) w.1 h) heap ws.

Fixpoint log_lines (debug : bool) (prev : thisrec) (os : list outcome)
    : list (list string) :=
  match os with
  | [] => []
  | o :: os' =>
      (if debug && o_overlap o
       then [ovrlp_row prev;
             ovrlp_row (if o_toss o then set_tossed "Y" (o_orig o)
                        else o_orig o)]
       else [])
      ++ log_lines debug (o_rec o) os'
  end.

Definition group_log (debug : bool) (os : list outcome)
    : list (list string) :=
  match os with
  | [] => []
  | o :: os' => log_lines debug (o_rec o) os'
  end.

(** The outcomes of every group, in iteration order. *)
Fixpoint all_outcomes (names0 : list (namekey * list thisrec))
    : M (list (namekey * list outcome)) :=
  match names0 with
  | [] => ok []
  | (thisname, g) :: rest =>
      os ← outcomes (sorted g); R ← all_outcomes rest; ok ((thisname, os) :: R)
  end.

Definition final_names (R : list (namekey * list outcome))
    : list (namekey * list thisrec) :=
  map (λ e, (e.1, survivors e.2)) R.

Definition final_heap (rows : list row) (R : list (namekey * list outcome))
    : list row :=
  apply_writes rows (flat_map (λ e, group_writes e.2) R).

Definition final_log (debug : bool) (R : list (namekey * list outcome))
    : list (list string) :=
  flat_map (λ e, group_log debug e.2) R.

(** ** Closed form of [name_iter] *)

(** What [name_iter] does for a group: the row it writes to and the value it
    writes.  [None] stands for the [IndexError] of an empty group. *)
Definition name_target (entry : namekey * list thisrec)
    : option (nat * string) :=
  match last entry.2, head entry.2 with
  | Some lastrec, Some firstrec => Some (fullrec lastrec, join firstrec)
  | _, _ => None
  end.

Fixpoint name_targets (names : list (namekey * list thisrec))
    : option (list (nat * string)) :=
  match names with
  | [] => Some []
  | entry :: rest =>
      t ← name_target entry; ts ← name_targets rest; Some (t :: ts)
  end.

Fixpoint yields (heap : list row) (ts : list (nat * string))
    : list (nat * row) :=
  match ts with
  | [] => []
  | t :: ts' =>
      let heap' := alter (<["JoinDate" := t.2]>) t.1 heap in
      (t.1, deref heap' t.1) :: yields heap' ts'
  end.

(** ** Vocabulary of the statements *)

(** The identity key of a row. *)
Definition row_key (r : row) : option namekey :=
  lname ← r !! "FamilyName"; fname ← r !! "GivenName"; dob ← r !! "DOB";
  Some (lname, fname, dob).

(** [r] is the record that the reading loop builds for the row at reference
    [fullrec r], and that row has the identity key [k]. *)
Definition rec_of_row (rows : list row) (k : namekey) (r : thisrec) : Prop :=
  ∃ membership,
    rows !! fullrec r = Some membership
    ∧ membership !! "JoinDate" = Some (join r)
    ∧ membership !! "ExpirationDate" = Some (expiration r)
    ∧ row_key membership = Some k.


(** The references held by the groups, in iteration order. *)
Definition all_refs (names : list (namekey * list thisrec)) : list nat :=
  flat_map (λ entry, map fullrec entry.2) names.

(** Both date fields of a row are well-formed date texts. *)
Definition wf_row (r : row) : bool :=
  match r !! "JoinDate", r !! "ExpirationDate" with
  | Some j, Some e => wf_date j && wf_date e
  | _, _ => false
  end.

Definition wf_rec (r : thisrec) : bool :=
  wf_date (join r) && wf_date (expiration r).

(** Calendar order on date texts. *)
Definition date_ltb (a b : string) : bool := dt_ltb (date_of a) (date_of b).
Definition date_leb (a b : string) : bool := dt_leb (date_of a) (date_of b).

(** The text of January 1 of the year after the year of [asc]. *)
Definition jan1_after (asc : string) : M string :=
  dt ← ymd.asc2dt asc;
  jan1_dt ← datetime_init (year dt + 1) 1 1;
  ymd.dt2asc jan1_dt.

(** The test of the overlap loop on the record [cur] that follows [prev] in
    the sorted group: [cur] joins no later than [prev] expires. *)
Definition overlaps (prev cur : thisrec) : Prop :=
  String.leb (join cur) (expiration prev) = true.

(** January 1 of the year after the year in which [prev] expires is later
    than the expiration date of [cur]. *)
Definition jan1_exceeds (prev cur : thisrec) : Prop :=
  ∃ lastexp_dt thisexp_dt jan1_dt,
    ymd.asc2dt (expiration prev) = inr lastexp_dt
    ∧ ymd.asc2dt (expiration cur) = inr thisexp_dt
    ∧ datetime_init (year lastexp_dt + 1) 1 1 = inr jan1_dt
    ∧ dt_gtb jan1_dt thisexp_dt = true.

Definition str_le (a b : string) : Prop := String.leb a b = true.

(** As calendar dates, [b] joins after [a] expires. *)
Definition joins_after (a b : thisrec) : Prop :=
  wf_date (expiration a) = true ∧ wf_date (join b) = true
  ∧ date_ltb (expiration a) (join b) = true.

(** The order of the sort keys [(expiration, join)]. *)
Definition key_compare (a b : thisrec) : comparison :=
  match String.compare (expiration a) (expiration b) with
  | Eq => String.compare (join a) (join b)
  | c => c
  end.

(** The order a stable sort realises on records that enter it by increasing
    reference: by key, and by reference among equal keys. *)
Definition stable_lt (a b : thisrec) : Prop :=
  key_compare a b = Lt ∨ (key_compare a b = Eq ∧ (fullrec a < fullrec b)%nat).

(** The groups after the first [n] rows were read. *)
Definition group_ok (rows : list row) (n : nat) (k : namekey)
    (g : list thisrec) : Prop :=
  g ≠ [] ∧ StronglySorted lt (map fullrec g)
  ∧ Forall (λ r, (fullrec r < n)%nat ∧ rec_of_row rows k r) g.

Definition names_ok (rows : list row) (n : nat)
    (names : list (namekey * list thisrec)) : Prop :=
  NoDup names.*1
  ∧ Forall (λ e, group_ok rows n e.1 e.2) names
  ∧ all_refs names ≡ₚ seq 0 n
  ∧ ∀ k, k ∈ names.*1 ↔
         ∃ i membership, (i < n)%nat ∧ rows !! i = Some membership
                         ∧ row_key membership = Some k.


(** The outcomes of all groups, in iteration order, and the reference each
    outcome is about. *)
Definition all_os (R : list (namekey * list outcome)) : list outcome :=
  flat_map snd R.

Definition oref (o : outcome) : nat := fullrec (o_rec o).

(** ** Sample rosters *)

Definition mkrow (memberid lname fname dob joindate expdate : string) : row :=
  {[ "MemberID" := memberid; "FamilyName" := lname; "GivenName" := fname;
     "DOB" := dob; "JoinDate" := joindate; "ExpirationDate" := expdate ]}.

(** One member, a renewal that starts before the first membership ends. *)
Definition doe_rows : list row :=
  [mkrow "1" "Doe" "Jane" "1980-05-17" "2020-01-01" "2021-06-30";
   mkrow "2" "Doe" "Jane" "1980-05-17" "2021-03-01" "2022-06-30"]%string.

(** One member, two memberships that expire in the same year. *)
Definition roe_rows : list row :=
  [mkrow "7" "Roe" "Sam" "1975-11-02" "2020-01-01" "2021-12-31";
   mkrow "8" "Roe" "Sam" "1975-11-02" "2021-06-01" "2021-08-01"]%string.

(** One member whose first membership record joins after it expires. *)
Definition poe_rows : list row :=
  [mkrow "3" "Poe" "Ann" "1990-02-03" "2025-01-01" "2020-12-31";
   mkrow "4" "Poe" "Ann" "1990-02-03" "2021-06-01" "2022-06-30"]%string.

(** What the reading loop and the constructor make of the sample rosters. *)
Definition doe_first : thisrec :=
  ThisRec "1" "Doe, Jane" "2020-01-01" "2021-06-30" "1980-05-17" 0 None.
Definition doe_second : thisrec :=
  ThisRec "2" "Doe, Jane" "2021-03-01" "2022-06-30" "1980-05-17" 1 None.

Definition doe_names0 : list (namekey * list thisrec) :=
  [(("Doe", "Jane", "1980-05-17")%string, [doe_first; doe_second])].

Definition doe_constructed : constructed :=
  Constructed
    [(("Doe", "Jane", "1980-05-17"),
      [ThisRec "1" "Doe, Jane" "2020-01-01" "2021-06-30" "1980-05-17" 0 None;
       ThisRec "2" "Doe, Jane" "2022-01-01" "2022-06-30" "1980-05-17" 1
         None])]%string
    [mkrow "1" "Doe" "Jane" "1980-05-17" "2020-01-01" "2021-06-30";
     mkrow "2" "Doe" "Jane" "1980-05-17" "2022-01-01" "2022-06-30"]%string
    None.

(** The rows after [name_iter] ran on [doe_constructed]. *)
Definition doe_heap_latest : list row :=
  [mkrow "1" "Doe" "Jane" "1980-05-17" "2020-01-01" "2021-06-30";
   mkrow "2" "Doe" "Jane" "1980-05-17" "2020-01-01" "2022-06-30"]%string.

Definition roe_first : thisrec :=
  ThisRec "7" "Roe, Sam" "2020-01-01" "2021-12-31" "1975-11-02" 0 None.
Definition roe_second : thisrec :=
  ThisRec "8" "Roe, Sam" "2021-06-01" "2021-08-01" "1975-11-02" 1 None.

Definition roe_names0 : list (namekey * list thisrec) :=
  [(("Roe", "Sam", "1975-11-02")%string, [roe_first; roe_second])].

Definition roe_constructed : constructed :=
  Constructed
    [(("Roe", "Sam", "1975-11-02"),
      [ThisRec "8" "Roe, Sam" "2021-06-01" "2021-08-01" "1975-11-02" 1
         None])]%string
    [mkrow "7" "Roe" "Sam" "1975-11-02" "2022-01-01" "2021-12-31";
     mkrow "8" "Roe" "Sam" "1975-11-02" "2021-06-01" "2021-08-01"]%string
    None.

Definition poe_constructed : constructed :=
  Constructed
    [(("Poe", "Ann", "1990-02-03"),
      [ThisRec "3" "Poe, Ann" "2025-01-01" "2020-12-31" "1990-02-03" 0 None;
       ThisRec "4" "Poe, Ann" "2021-06-01" "2022-06-30" "1990-02-03" 1
         None])]%string
    poe_rows
    None.

(** The references and join dates in a sequence that a view yields. *)
Definition join_dates (yielded : list (nat * row))
    : list (nat * option string) :=
  map (λ y, (y.1, y.2 !! "JoinDate")) yielded.

(** The columns that the reading loop reads from every row, in the order in
    which it reads them. *)
Definition required_columns : list string :=
  ["JoinDate"; "ExpirationDate"; "GivenName"; "FamilyName"; "DOB";
   "MemberID"]%string.

(** The first of the columns [cols] that the row [r] lacks. *)
Fixpoint first_missing_in (cols : list string) (r : row) : option string :=
  match cols with
  | [] => None
  | col :: cols' =>
      match r !! col with
      | Some _ => first_missing_in cols' r
      | None => Some col
      end
  end.

Definition first_missing (r : row) : option string :=
  first_missing_in required_columns r.

(** A row without the column DOB. *)
Definition lee_row : row :=
  delete "DOB" (mkrow "9" "Lee" "Kim" "" "2020-01-01" "2020-12-31")%string.

(** What the overlap loop needs of a record [cur] that follows [prev] in the
    sorted group to get through its iteration: nothing if they do not
    overlap; otherwise both expiration dates parse and the year after the
    one in which [prev] expires is one that [datetime] and [strftime]
    accept. *)
Definition repairable (prev cur : thisrec) : Prop :=
  overlaps prev cur →
  ∃ lastexp_dt thisexp_dt,
    ymd.asc2dt (expiration prev) = inr lastexp_dt
    ∧ ymd.asc2dt (expiration cur) = inr thisexp_dt
    ∧ 1899 ≤ year lastexp_dt ≤ 9998.

(** The expiration date of a row parses, to a year from 1899 to 9998. *)
Definition expiration_in_range (r : row) : bool :=
  match r !! "ExpirationDate" with
  | Some e =>
      match ymd.asc2dt e with
      | inr dt => (1899 <=? year dt) && (year dt <=? 9998)
      | inl _ => false
      end
  | None => false
  end.

(** The number of records of a sorted group that overlap their predecessor,
    by the test of the overlap loop. *)
Fixpoint count_overlaps (s : list thisrec) : nat :=
  match s with
  | [] => 0%nat
  | prev :: rest =>
      match rest with
      | [] => 0%nat
      | cur :: _ =>
          ((if String.leb (join cur) (expiration prev) then 1 else 0)
           + count_overlaps rest)%nat
      end
  end.

(** The same over all groups. *)
Definition total_overlaps (names0 : list (namekey * list thisrec)) : nat :=
  sum_list (map (λ e, count_overlaps (sorted e.2)) names0).

(** The groups, each one sorted. *)
Definition sorted_names (names0 : list (namekey * list thisrec))
    : list (namekey * list thisrec) :=
  map (λ e, (e.1, sorted e.2)) names0.

(** The identity key and the record that the reading loop builds from the
    row [membership] found at the reference [ref]. *)
Definition row_record (ref : nat) (membership : row)
    : M (namekey * thisrec) :=
  asc_joindate ← getitem membership "JoinDate";
  asc_expdate ← getitem membership "ExpirationDate";
  fname ← getitem membership "GivenName";
  lname ← getitem membership "FamilyName";
  dob ← getitem membership "DOB";
  memberid ← getitem membership "MemberID";
  ok ((lname, fname, dob),
      ThisRec memberid (lname ++ ", " ++ fname)%string asc_joindate
        asc_expdate dob ref None).

(** [r], in the group of [k], is the record of its own row in [rows]. *)
Definition record_of_rows (rows : list row) (k : namekey) (r : thisrec)
    : Prop :=
  ∃ membership,
    rows !! fullrec r = Some membership
    ∧ row_record (fullrec r) membership = inr (k, r).

(** One member with dates that [strptime] accepts but that are not
    zero-padded: a month of one digit, and days written with a space. *)
Definition moe_rows : list row :=
  [mkrow "11" "Moe" "Kim" "1970-01-01" "2021-01-01" "2021-12-31";
   mkrow "12" "Moe" "Kim" "1970-01-01" "2021-9-1" "2021-9-30";
   mkrow "13" "Moe" "Kim" "1970-01-01" "2021-06-01" "2022-01- 5";
   mkrow "14" "Moe" "Kim" "1970-01-01" "2022-01- 6" "2022-01- 5"]%string.

Definition moe_group : list thisrec :=
  [ThisRec "11" "Moe, Kim" "2021-01-01" "2021-12-31" "1970-01-01" 0 None;
   ThisRec "12" "Moe, Kim" "2021-9-1" "2021-9-30" "1970-01-01" 1 None;
   ThisRec "13" "Moe, Kim" "2022-01-01" "2022-01- 5" "1970-01-01" 2 None;
   ThisRec "14" "Moe, Kim" "2022-01- 6" "2022-01- 5" "1970-01-01" 3 None
  ]%string.

Definition moe_constructed : constructed :=
  Constructed
    [(("Moe", "Kim", "1970-01-01")%string, moe_group)]
    [mkrow "11" "Moe" "Kim" "1970-01-01" "2021-01-01" "2021-12-31";
     mkrow "12" "Moe" "Kim" "1970-01-01" "2021-9-1" "2021-9-30";
     mkrow "13" "Moe" "Kim" "1970-01-01" "2022-01-01" "2022-01- 5";
     mkrow "14" "Moe" "Kim" "1970-01-01" "2022-01- 6" "2022-01- 5"]%string
    None.

(** ** The debug file and the failures of its operations

    [open(overlapfile,'wb')], [writeheader], every [writerow] and [close]
    are operations on a file, and each of them can fail.  They are numbered
    from 0 in the order in which the constructor performs them; the
    environment of a run is [fails], the number of the first of them that
    raises [IOError], if one does.  A file name that holds a NUL byte makes
    [open] raise [TypeError] before the file system is asked.

    [init] above is the constructor in an environment in which none of them
    fails; [init_io] is the constructor in the environment [fails]. *)

(** The operation number [n] on the debug file; it returns the number of
    the next one. *)
Definition file_op (fails : option nat) (n : nat) : M nat :=
  if decide (fails = Some n) then raise IOError else ok (S n).

Definition has_nul (path : string) : bool :=
  existsb (Ascii.eqb Ascii.zero) (list_ascii_of_string path).

(** [_OVRLP = open(overlapfile,'wb')] and [OVRLP.writeheader()]. *)
Definition open_ovrlp (fails : option nat) (path : string) : M nat :=
  if has_nul path then raise TypeError
  else n ← file_op fails 0; file_op fails n.

(** Body of [for i in range(1, len(self.names[thisname]))], with the number
    of the next operation on the debug file. *)
Definition overlap_body_io (fails : option nat) (debug : bool)
    (acc : loop_state * nat) (i : nat) : M (loop_state * nat) :=
  let '(st, n) := acc in
  cur ← getidx (ls_group st) i;
  prev ← getidx (ls_group st) (i - 1)%nat;
  if String.leb (join cur) (expiration prev) then
    lastexp_dt ← ymd.asc2dt (expiration prev);
    thisexp_dt ← ymd.asc2dt (expiration cur);
    jan1_dt ← datetime_init (year lastexp_dt + 1) 1 1;
    jan1_asc ← ymd.dt2asc jan1_dt;
    let '(toss, cur1) :=
      if dt_gtb jan1_dt thisexp_dt
      then (ls_toss st ++ [i], set_tossed "Y" cur)
      else (ls_toss st, cur) in
    '(log, n2) ←
      (if debug then
         n1 ← file_op fails n;
         n2 ← file_op fails n1;
         ok (ls_log st ++ [ovrlp_row prev; ovrlp_row cur1], n2)
       else ok (ls_log st, n));
    let cur2 := set_join jan1_asc cur1 in
    ok (LoopState (<[i := cur2]> (ls_group st)) toss
          (alter (<["JoinDate" := jan1_asc]>) (fullrec cur2) (ls_heap st))
          log, n2)
  else ok (st, n).

Definition reconcile_group_io (fails : option nat) (debug : bool)
    (g : list thisrec) (heap : list row) (log : list (list string)) (n : nat)
    : M (list thisrec * list row * list (list string) * nat) :=
  let g1 := sorted g in
  '(st, n') ← for_each (overlap_body_io fails debug) (seq 1 (length g1 - 1))
                (LoopState g1 [] heap log, n);
  g2 ← pop_tossed (ls_group st) (ls_toss st);
  ok (g2, ls_heap st, ls_log st, n').

Definition reconcile_entry_io (fails : option nat) (debug : bool)
    (acc : list (namekey * list thisrec) * list row * list (list string)
           * nat)
    (entry : namekey * list thisrec)
    : M (list (namekey * list thisrec) * list row * list (list string)
         * nat) :=
  let '(done, heap, log, n) := acc in
  let '(thisname, g) := entry in
  '(g2, heap', log', n') ← reconcile_group_io fails debug g heap log n;
  ok (done ++ [(thisname, g2)], heap', log', n').

(** [__init__(self, memberfile, overlapfile=None)] in the environment
    [fails]. *)
Definition init_io (fails : option nat) (mf : memberfile)
    (overlapfile : option string) : M constructed :=
  rows ← source_rows mf;
  names0 ← read_names rows;
  let debug := truthy overlapfile in
  n0 ← match overlapfile with
       | Some path => if debug then open_ovrlp fails path else ok 0%nat
       | None => ok 0%nat
       end;
  '(names1, heap1, log, n1) ←
    for_each (reconcile_entry_io fails debug) names0 ([], rows, [], n0);
  _ ← (if debug then file_op fails n1 else ok n1);
  ok (Constructed names1 heap1
        (if debug then Some (ovrlp_header :: log) else None)).

(** No operation on the debug file fails: none is asked for, or the file
    name is a valid one and the environment lets every operation succeed. *)
Definition debug_file_ok (fails : option nat) (overlapfile : option string)
    : bool :=
  match overlapfile with
  | Some path =>
      negb (truthy overlapfile)
      || (negb (has_nul path) && bool_decide (fails = None))
  | None => true
  end.

(** ** The member file as the caller holds it

    [csv.reader] of Python 2.7 with the dialect [excel], which [DictReader]
    uses when none is given: the delimiter is the comma, the quote character
    the double quote, a doubled quote inside a quoted field stands for one,
    and there is no escape character.  The reader is a state machine that is
    fed the characters of each line and then an end-of-line mark, [None]
    here.  [None] as a result is [csv.Error]. *)
Module csv.

Inductive state :=
| START_RECORD
| START_FIELD
| IN_FIELD
| IN_QUOTED_FIELD
| QUOTE_IN_QUOTED_FIELD
| EAT_CRNL.

Record reader := Reader {
  st : state;
  field : string;
  fields : list string
}.

Definition delimiter : ascii := ","%char.
Definition quotechar : ascii := "034"%char.

Definition is_newline (c : ascii) : bool :=
  Ascii.eqb c "010" || Ascii.eqb c "013".

Definition reset : reader := Reader START_RECORD "" [].

Definition goto (s : state) (r : reader) : reader :=
  Reader s (field r) (fields r).

Definition add_char (c : ascii) (r : reader) : reader :=
  Reader (st r) (field r ++ String c "") (fields r).

Definition save_field (r : reader) : reader :=
  Reader (st r) "" (fields r ++ [field r]).

(** The field ends with the line. *)
Definition end_of_line (c : option ascii) (r : reader) : reader :=
  goto (match c with None => START_RECORD | Some _ => EAT_CRNL end)
    (save_field r).

Definition start_field (c : option ascii) (r : reader) : reader :=
  match c with
  | None => end_of_line c r
  | Some ch =>
      if is_newline ch then end_of_line c r
      else if Ascii.eqb ch quotechar then goto IN_QUOTED_FIELD r
      else if Ascii.eqb ch delimiter then goto START_FIELD (save_field r)
      else goto IN_FIELD (add_char ch r)
  end.

Definition process_char (r : reader) (c : option ascii) : option reader :=
  match st r with
  | START_RECORD =>
      match c with
      | None => Some r
      | Some ch =>
          if is_newline ch then Some (goto EAT_CRNL r)
          else Some (start_field c r)
      end
  | START_FIELD => Some (start_field c r)
  | IN_FIELD =>
      match c with
      | None => Some (end_of_line c r)
      | Some ch =>
          if is_newline ch then Some (end_of_line c r)
          else if Ascii.eqb ch delimiter
               then Some (goto START_FIELD (save_field r))
               else Some (add_char ch r)
      end
  | IN_QUOTED_FIELD =>
      match c with
      | None => Some r
      | Some ch =>
          if Ascii.eqb ch quotechar then Some (goto QUOTE_IN_QUOTED_FIELD r)
          else Some (add_char ch r)
      end
  | QUOTE_IN_QUOTED_FIELD =>
      match c with
      | None => Some (end_of_line c r)
      | Some ch =>
          if Ascii.eqb ch quotechar
          then Some (goto IN_QUOTED_FIELD (add_char ch r))
          else if Ascii.eqb ch delimiter
               then Some (goto START_FIELD (save_field r))
               else if is_newline ch then Some (end_of_line c r)
                    else Some (goto IN_FIELD (add_char ch r))
      end
  | EAT_CRNL =>
      match c with
      | None => Some (goto START_RECORD r)
      | Some ch => if is_newline ch then Some r else None
      end
  end.

(** One line of the input: its characters, none of which may be NUL, then
    the end-of-line mark. *)
Fixpoint process_line (r : reader) (line : string) : option reader :=
  match line with
  | EmptyString => process_char r None
  | String c line' =>
      if Ascii.eqb c Ascii.zero then None
      else r' ← process_char r (Some c); process_line r' line'
  end.

(** The records that the reader yields until its input is exhausted.  A
    record is complete when a line leaves the reader at the start of a
    record; a quoted field that is open at the end of a line goes on with the
    next line, and at the end of the input it is closed. *)
Fixpoint records (r : reader) (input : list string)
    : option (list (list string)) :=
  match input with
  | [] =>
      match st r with
      | IN_QUOTED_FIELD => Some [fields (save_field r)]
      | _ => if String.eqb (field r) "" then Some []
             else Some [fields (save_field r)]
      end
  | line :: input' =>
      r' ← process_line r line;
      match st r' with
      | START_RECORD => rest ← records reset input'; Some (fields r' :: rest)
      | _ => records r' input'
      end
  end.

(** [dict(zip(fieldnames, row))] *)
Definition dict (fieldnames record : list string) : row :=
  foldl (λ d kv, <[kv.1 := kv.2]> d) ∅ (zip fieldnames record).

(** The dict that [DictReader] builds of a record.  For a record that is
    longer or shorter than the header it stores a list under the key [None]
    or the value [None]; such a dict is no [row], and [None] here. *)
Definition dict_row (fieldnames record : list string) : option row :=
  if decide (length record = length fieldnames)
  then Some (dict fieldnames record) else None.

(** The rows that [csv.DictReader(input)] yields: the first record gives the
    field names, empty records are skipped.  [None]: the reader raises
    [csv.Error], or a record has not as many fields as the header. *)
Definition DictReader (input : list string) : option (list row) :=
  recs ← records reset input;
  match recs with
  | [] => Some []
  | fieldnames :: recs' =>
      mapM (dict_row fieldnames) (filter (λ record, record ≠ []) recs')
  end.

End csv.

(** The [memberfile] argument as the caller holds it: a file name, with the
    lines of the file it names, an open file, with the lines still to be
    read from it, or a list of lines. *)
Inductive argument :=
| arg_str (lines : list string)
| arg_file (lines : list string)
| arg_list (lines : list string)
| arg_other.

(** The rows that the constructor reads from its argument (lines 58 to 75),
    where [csv.DictReader] yields rows. *)
Definition reads (a : argument) : option memberfile :=
  match a with
  | arg_str lines => mf_str <$> csv.DictReader lines
  | arg_file lines => mf_file <$> csv.DictReader lines
  | arg_list lines => mf_list <$> csv.DictReader lines
  | arg_other => Some mf_other
  end.


(** The first sample roster as a list of lines. *)
Definition nl : string := String "010" "".

Definition doe_lines : list string :=
  ["MemberID,FamilyName,GivenName,DOB,JoinDate,ExpirationDate" ++ nl;
   "1,Doe,Jane,1980-05-17,2020-01-01,2021-06-30" ++ nl;
   "2,Doe,Jane,1980-05-17,2021-03-01,2022-06-30" ++ nl]%string.

(** The second sample roster as a list of lines. *)
Definition roe_lines : list string :=
  ["MemberID,FamilyName,GivenName,DOB,JoinDate,ExpirationDate" ++ nl;
   "7,Roe,Sam,1975-11-02,2020-01-01,2021-12-31" ++ nl;
   "8,Roe,Sam,1975-11-02,2021-06-01,2021-08-01" ++ nl]%string.

(** Two runs of the constructor on the same rows return the same groups and
    the same rows, and so the same sequences from both views.  Both runs
    insert the same keys in the same order into an empty dict, and so iterate
    over the groups in the same order. *)
Definition same_outcome (c c' : constructed) : Prop :=
  names c = names c' ∧ heap c = heap c'
  ∧ membership_iter (names c) (heap c)
    = membership_iter (names c') (heap c')
  ∧ name_iter (names c) (heap c) = name_iter (names c') (heap c').

(** * racedb.py: the helpers of the race database

    The instances of the table models are mutable objects that the callers
    share; [objects] is the store of their attributes and a reference to an
    instance is its position in it.  The values of the attributes are of an
    arbitrary type [V] on which [py_ne] is Python's [!=].  The calls made on
    the SQLAlchemy session are recorded in the order they are made; what the
    session does with them to the database is outside this module, and the
    rows that the query of [getunique] finds are given. *)
Module racedb.

Inductive error :=
| AttributeError (attr : string)
| IndexError
| dbConsistencyError.

Inductive call :=
| Query
| Add (instance : nat)
| Flush.

Record world {V : Type} := World {
  objects : list (gmap string V);
  calls : list call
}.
Arguments world : clear implicits.
Arguments World {V} objects calls.

(** Code that changes the store and may raise; the store survives the
    exception. *)
Definition SE (V A : Type) : Type := world V → (error + A) * world V.

Definition se_ret {V A} (a : A) : SE V A := λ w, (inr a, w).
Definition se_raise {V A} (e : error) : SE V A := λ w, (inl e, w).
Definition se_bind {V A B} (m : SE V A) (f : A → SE V B) : SE V B :=
  λ w, match m w with
       | (inr a, w') => f a w'
       | (inl e, w') => (inl e, w')
       end.

#[global] Instance SE_ret {V} : MRet (SE V) := λ A, se_ret.
#[global] Instance SE_bind {V} : MBind (SE V) := λ A B f m, se_bind m f.

(** [for x in l: s = body(s, x)] *)
Fixpoint se_for {V A S} (body : S → A → SE V S) (l : list A) (s : S)
    : SE V S :=
  match l with
  | [] => mret s
  | x :: l' => s' ← body s x; se_for body l' s'
  end.

Definition deref {V} (w : world V) (instance : nat) : gmap string V :=
  objects w !!! instance.

Definition getattr {V} (instance : nat) (key : string) : SE V V :=
  λ w, match deref w instance !! key with
       | Some v => (inr v, w)
       | None => (inl (AttributeError key), w)
       end.

Definition setattr {V} (instance : nat) (key : string) (v : V) : SE V unit :=
  λ w, (inr tt, World (alter (<[key := v]>) instance (objects w)) (calls w)).

Definition session_call {V} (c : call) : SE V unit :=
  λ w, (inr tt, World (objects w) (calls w ++ [c])).

(** [getunique]; [instances] is what its query for the criteria [kwargs]
    on the session returns.  The message of [dbConsistencyError] is not
    modelled. *)
Definition getunique {V} (instances : list nat) : SE V (option nat) :=
  session_call Query;;
  if (1 <? length instances)%nat then se_raise dbConsistencyError
  else if (length instances =? 0)%nat then mret None
  else match instances !! 0%nat with
       | Some instance => mret (Some instance)
       | None => se_raise IndexError
       end.

Section update.
Context {V : Type}.
Variable py_ne : V → V → bool.

(** The body of the loop of [update], for the column of key [col]. *)
Definition update_body (skipcolumns : list string)
    (oldinstance newinstance : nat) (updated : bool) (col : string)
    : SE V bool :=
  if bool_decide (col ∈ skipcolumns) then mret updated
  else
    a ← getattr oldinstance col;
    b ← getattr newinstance col;
    if py_ne a b then
      v ← getattr newinstance col;
      setattr oldinstance col v;;
      mret true
    else mret updated.

(** [update(session, model, oldinstance, newinstance, skipcolumns)];
    [columns] are the keys of [object_mapper(newinstance).columns]. *)
Definition update (columns skipcolumns : list string)
    (oldinstance newinstance : nat) : SE V bool :=
  se_for (update_body skipcolumns oldinstance newinstance) columns false.

(** [insert_or_update]; [instances] is what the query of [getunique]
    returns. *)
Definition insert_or_update (instances : list nat)
    (columns skipcolumns : list string) (newinstance : nat) : SE V bool :=
  instance ← getunique instances;
  updated ← match instance with
            | Some i => update columns skipcolumns i newinstance
            | None => session_call (Add newinstance);; mret true
            end;
  (if updated : bool then session_call Flush else mret tt);;
  mret updated.

(** The column [col] is compared and the values differ. *)
Definition differs (skipcolumns : list string) (oldinstance newinstance : nat)
    (w : world V) (col : string) : bool :=
  negb (bool_decide (col ∈ skipcolumns))
  && match deref w oldinstance !! col, deref w newinstance !! col with
     | Some a, Some b => py_ne a b
     | _, _ => false
     end.

(** The column [col] is skipped, or both instances have it and the values do
    not differ. *)
Definition settled (skipcolumns : list string) (oldinstance newinstance : nat)
    (w : world V) (col : string) : Prop :=
  col ∉ skipcolumns →
  ∃ a b, deref w oldinstance !! col = Some a
         ∧ deref w newinstance !! col = Some b ∧ py_ne a b = false.

End update.

(** The column [col] is compared and one of the instances lacks it. *)
Definition unreadable {V} (skipcolumns : list string)
    (oldinstance newinstance : nat) (w : world V) (col : string) : bool :=
  negb (bool_decide (col ∈ skipcolumns))
  && negb (bool_decide (is_Some (deref w oldinstance !! col)
                        ∧ is_Some (deref w newinstance !! col))).

(** [Runner.__init__]: [t] is [timeu.asctime('%Y-%m-%d')], as [ymd] is.  The
    name [parameterError] of the handler is defined nowhere in the module. *)
Record Runner := mkRunner {
  name : string;
  dateofbirth : string;
  gender : string;
  hometown : string;
  member : bool;
  active : bool
}.

Definition Runner_init (name : string) (dateofbirth : option string)
    (gender hometown : string) (member : bool) : M Runner :=
  dob ← match
          match dateofbirth with
          | Some s =>
              if truthy dateofbirth then _ ← ymd.asc2dt s; ok s
              else ok ""%string
          | None => ok ""%string
          end
        with
        | inl ValueError => raise (NameError "parameterError")
        | r => r
        end;
  ok (mkRunner name dob gender hometown member true).

End racedb.

(** Sample column values and instances. *)
Inductive value :=
| VNone
| VInt (n : Z)
| VStr (s : string).

Definition value_ne (a b : value) : bool :=
  match a, b with
  | VNone, VNone => false
  | VInt n, VInt m => negb (n =? m)
  | VStr s, VStr t => negb (String.eqb s t)
  | _, _ => true
  end.

Definition runner_columns : list string :=
  ["id"; "name"; "dateofbirth"; "hometown"]%string.

Definition runner_found : gmap string value :=
  <["id" := VInt 7]> (<["name" := VStr "Roe, Ann"]>
  (<["dateofbirth" := VStr "1980-02-03"]>
  (<["hometown" := VStr "Dover"]> ∅)))%string.

Definition runner_new : gmap string value :=
  <["id" := VNone]> (<["name" := VStr "Roe, Ann"]>
  (<["dateofbirth" := VStr "1980-02-03"]>
  (<["hometown" := VStr "Salem"]> ∅)))%string.

Definition runner_world : racedb.world value :=
  racedb.World [runner_found; runner_new] [].

Definition runner_world_updated : racedb.world value :=
  racedb.World [<["hometown" := VStr "Salem"]> runner_found; runner_new] [].

(** * Proofs *)

(** ** The error monad *)

Lemma bind_inr {A B} (m : M A) (f : A → M B) (b : B) :
  m ≫= f = inr b ↔ ∃ a, m = inr a ∧ f a = inr b.
Proof.
  destruct m as [e|a]; simpl; split.
  - discriminate.
  - intros (a & Ha & _); discriminate.
  - eauto.
  - intros (a' & [= <-] & H); exact H.
Qed.

Lemma for_each_app {A S} (body : S → A → M S) l1 l2 s :
  for_each body (l1 ++ l2) s = for_each body l1 s ≫= for_each body l2.
Proof.
  revert s; induction l1 as [|x l1 IH]; intros s; simpl; [done|].
  destruct (body s x) as [e|s']; simpl; [done|]. apply IH.
Qed.

(** ** The overlap loop against its closed form *)


Lemma overlap_body_repair debug g toss heap log i prev cur :
  g !! S i = Some cur → g !! i = Some prev →
  overlap_body debug (LoopState g toss heap log) (S i) =
  repair prev cur ≫= λ o,
    ok (LoopState (<[S i := o_rec o]> g)
          (toss ++ (if o_toss o then [S i] else []))
          (apply_writes heap (group_writes [o]))
          (log ++ log_lines debug prev [o])).
Proof.
  intros Hc Hp. unfold overlap_body, repair, getidx; simpl.
  rewrite Hc; simpl. replace (i - 0)%nat with i by lia. rewrite Hp; simpl.
  destruct (String.leb (join cur) (expiration prev)); simpl.
  - destruct (ymd.asc2dt (expiration prev)) as [e|d1]; simpl; [done|].
    destruct (ymd.asc2dt (expiration cur)) as [e|d2]; simpl; [done|].
    destruct (datetime_init (year d1 + 1) 1 1) as [e|j1]; simpl; [done|].
    destruct (ymd.dt2asc j1) as [e|asc]; simpl; [done|].
    destruct (dt_gtb j1 d2); simpl; destruct debug; simpl;
      rewrite ?app_nil_r; reflexivity.
  - rewrite list_insert_id by done.
    rewrite andb_false_r. simpl. rewrite !app_nil_r. reflexivity.
Qed.

Lemma apply_writes_app heap ws1 ws2 :
  apply_writes heap (ws1 ++ ws2) = apply_writes (apply_writes heap ws1) ws2.
Proof. unfold apply_writes. apply foldl_app. Qed.

Lemma group_writes_cons o os :
  group_writes (o :: os) = group_writes [o] ++ group_writes os.
Proof.
  unfold group_writes. rewrite !filter_cons, filter_nil.
  destruct (decide (o_overlap o = true)); done.
Qed.

Lemma overlap_loop_closed debug rest :
  ∀ pre prev toss heap log,
    for_each (overlap_body debug) (seq (S (length pre)) (length rest))
      (LoopState (pre ++ prev :: rest) toss heap log) =
    repaired prev rest ≫= λ os,
      ok (LoopState (pre ++ prev :: map o_rec os)
            (toss ++ toss_idx (S (length pre)) os)
            (apply_writes heap (group_writes os))
            (log ++ log_lines debug prev os)).
Proof.
  induction rest as [|cur rest IH]; intros pre prev toss heap log.
  - simpl. rewrite !app_nil_r. reflexivity.
  - cbn [length seq for_each repaired].
    rewrite (overlap_body_repair debug _ toss heap log (length pre) prev cur).
    2:{ rewrite lookup_app_r by lia.
        replace (S (length pre) - length pre)%nat with 1%nat by lia. done. }
    2:{ rewrite lookup_app_r by lia. rewrite Nat.sub_diag. done. }
    destruct (repair prev cur) as [e|o]; simpl; [done|].
    replace (<[S (length pre) := o_rec o]> (pre ++ prev :: cur :: rest))
      with ((pre ++ [prev]) ++ o_rec o :: rest).
    2:{ rewrite <- app_assoc. simpl.
        rewrite insert_app_r_alt by lia.
        replace (S (length pre) - length pre)%nat with 1%nat by lia. done. }
    replace (S (S (length pre))) with (S (length (pre ++ [prev])))
      by (rewrite length_app; simpl; lia).
    rewrite IH. destruct (repaired (o_rec o) rest) as [e|os]; simpl; [done|].
    rewrite <- !app_assoc. simpl.
    rewrite (group_writes_cons o os), apply_writes_app.
    rewrite length_app. simpl.
    replace (length pre + 1)%nat with (S (length pre)) by lia.
    reflexivity.
Qed.

Lemma survivors_cons o os :
  survivors (o :: os) =
  (if o_toss o then [] else [o_rec o]) ++ survivors os.
Proof.
  unfold survivors. rewrite filter_cons.
  destruct (decide (o_toss o = false)) as [->|H]; [done|].
  destruct (o_toss o); done.
Qed.

Lemma pop_tossed_closed os :
  ∀ pre, pop_tossed (pre ++ map o_rec os) (toss_idx (length pre) os)
         = ok (pre ++ survivors os).
Proof.
  unfold pop_tossed.
  induction os as [|o os IH]; intros pre; [done|].
  cbn [toss_idx map]. rewrite reverse_app, for_each_app.
  replace (pre ++ o_rec o :: map o_rec os)
    with ((pre ++ [o_rec o]) ++ map o_rec os) by (by rewrite <- app_assoc).
  replace (S (length pre)) with (length (pre ++ [o_rec o]))
    by (rewrite length_app; simpl; lia).
  rewrite IH. simpl. rewrite survivors_cons, <- app_assoc.
  destruct (o_toss o); simpl; [|done].
  unfold pop. rewrite lookup_app_r, Nat.sub_diag by lia. simpl.
  rewrite delete_middle. done.
Qed.

Lemma reconcile_group_closed debug g heap log :
  reconcile_group debug g heap log =
  outcomes (sorted g) ≫= λ os,
    ok (survivors os, apply_writes heap (group_writes os),
        log ++ group_log debug os).
Proof.
  unfold reconcile_group, outcomes.
  destruct (sorted g) as [|first rest]; simpl.
  - rewrite app_nil_r. done.
  - rewrite Nat.sub_0_r.
    pose proof (overlap_loop_closed debug rest [] first [] heap log) as H.
    simpl in H. rewrite H. clear H.
    destruct (repaired first rest) as [e|os]; simpl; [done|].
    pose proof (pop_tossed_closed os [first]) as H. simpl in H.
    rewrite H. simpl.
    rewrite survivors_cons, group_writes_cons. simpl. done.
Qed.

Lemma reconcile_all_closed debug names0 :
  ∀ done heap log,
    for_each (reconcile_entry debug) names0 (done, heap, log) =
    all_outcomes names0 ≫= λ R,
      ok (done ++ final_names R, final_heap heap R,
          log ++ final_log debug R).
Proof.
  induction names0 as [|[k g] names0 IH]; intros done heap log; simpl.
  - rewrite !app_nil_r. done.
  - rewrite reconcile_group_closed.
    destruct (outcomes (sorted g)) as [e|os]; simpl; [done|].
    rewrite IH. destruct (all_outcomes names0) as [e|R]; simpl; [done|].
    unfold final_heap, final_log. simpl.
    rewrite apply_writes_app, <- !app_assoc. done.
Qed.

Lemma init_closed mf overlapfile :
  init mf overlapfile =
  source_rows mf ≫= λ rows, read_names rows ≫= λ names0,
    all_outcomes names0 ≫= λ R,
      ok (Constructed (final_names R) (final_heap rows R)
            (if truthy overlapfile
             then Some (ovrlp_header :: final_log (truthy overlapfile) R)
             else None)).
Proof.
  unfold init. destruct (source_rows mf) as [e|rows]; simpl; [done|].
  destruct (read_names rows) as [e|names0]; simpl; [done|].
  rewrite reconcile_all_closed.
  destruct (all_outcomes names0) as [e|R]; simpl; done.
Qed.

(** ** Date texts *)

Lemma mod10_cases (a : Z) :
  a mod 10 = 0 ∨ a mod 10 = 1 ∨ a mod 10 = 2 ∨ a mod 10 = 3 ∨ a mod 10 = 4 ∨
  a mod 10 = 5 ∨ a mod 10 = 6 ∨ a mod 10 = 7 ∨ a mod 10 = 8 ∨ a mod 10 = 9.
Proof. pose proof (Z.mod_pos_bound a 10). lia. Qed.

Ltac mod10_split a :=
  let H := fresh "H" in
  unfold digit_char;
  destruct (mod10_cases a) as [H|[H|[H|[H|[H|[H|[H|[H|[H|H]]]]]]]]];
  rewrite H.

Lemma digit_val_char (a : Z) : digit_val (digit_char a) = Some (a mod 10).
Proof. mod10_split a; reflexivity. Qed.

Lemma digit_char_compare (a b : Z) :
  Ascii.compare (digit_char a) (digit_char b) = (a mod 10 ?= b mod 10).
Proof. mod10_split a; mod10_split b; reflexivity. Qed.

Lemma digit_char_not_dash (a : Z) : digit_char a ≠ "-"%char.
Proof. mod10_split a; discriminate. Qed.

Lemma parse_Y_fmt4 (y : Z) :
  0 ≤ y ≤ 9999 →
  parse_Y (digit_char (y / 1000)) (digit_char (y / 100)) (digit_char (y / 10))
    (digit_char y) = Some y.
Proof.
  intros Hy. unfold parse_Y. rewrite !digit_val_char. simpl. f_equal.
  Z.div_mod_to_equations. lia.
Qed.

Lemma parse_m_fmt2 (m : Z) :
  1 ≤ m ≤ 12 → parse_m (fmt2 m) = Some m.
Proof.
  intros Hm.
  assert (m = 1 ∨ m = 2 ∨ m = 3 ∨ m = 4 ∨ m = 5 ∨ m = 6 ∨ m = 7 ∨ m = 8 ∨
          m = 9 ∨ m = 10 ∨ m = 11 ∨ m = 12) as H by lia.
  repeat (destruct H as [->|H]; [reflexivity|]). subst. reflexivity.
Qed.

Lemma parse_d_fmt2 (d : Z) :
  1 ≤ d ≤ 31 → parse_d (fmt2 d) = Some d.
Proof.
  intros Hd.
  assert (∃ n : nat, d = Z.of_nat n ∧ (n < 32)%nat) as (n & -> & Hn)
    by (exists (Z.to_nat d); lia).
  do 32 (destruct n as [|n]; [try reflexivity; lia|]). lia.
Qed.

Lemma match_ymd_padded y1 y2 y3 y4 m1 m2 d1 d2 :
  m2 ≠ "-"%char →
  match_ymd (string_of_list_ascii
               [y1; y2; y3; y4; "-"%char; m1; m2; "-"%char; d1; d2]) =
  parse_Y y1 y2 y3 y4 ≫= λ y, parse_m [m1; m2] ≫= λ m,
    parse_d [d1; d2] ≫= λ d, Some (y, m, d).
Proof.
  intros Hm2. unfold match_ymd.
  rewrite list_ascii_of_string_of_list_ascii.
  destruct m2 as [[] [] [] [] [] [] [] []]; try reflexivity.
  by destruct Hm2.
Qed.

Lemma days_in_month_le (y m : Z) : days_in_month y m ≤ 31.
Proof.
  unfold days_in_month.
  repeat match goal with |- context [if ?b then _ else _] => destruct b end;
    lia.
Qed.

Lemma valid_date_bounds y m d :
  valid_date y m d = true → 1 ≤ y ≤ 9999 ∧ 1 ≤ m ≤ 12 ∧ 1 ≤ d ≤ 31.
Proof.
  unfold valid_date, MINYEAR, MAXYEAR. intros H.
  pose proof (days_in_month_le y m). lia.
Qed.

Lemma asc2dt_format (dt : datetime) :
  valid_date (year dt) (month dt) (day dt) = true →
  ymd.asc2dt (format_ymd dt) = inr dt.
Proof.
  intros Hv. destruct (valid_date_bounds _ _ _ Hv) as (Hy & Hm & Hd).
  destruct dt as [y m d]; simpl in *.
  unfold ymd.asc2dt.
  change (format_ymd (Datetime y m d)) with
    (string_of_list_ascii
       [digit_char (y / 1000); digit_char (y / 100); digit_char (y / 10);
        digit_char y; "-"%char; digit_char (m / 10); digit_char m; "-"%char;
        digit_char (d / 10); digit_char d]).
  rewrite match_ymd_padded by apply digit_char_not_dash.
  pose proof (parse_m_fmt2 m Hm) as Hpm. unfold fmt2 in Hpm.
  pose proof (parse_d_fmt2 d Hd) as Hpd. unfold fmt2 in Hpd.
  rewrite parse_Y_fmt4, Hpm, Hpd by lia.
  simpl. unfold datetime_init. rewrite Hv. reflexivity.
Qed.

Lemma asc2dt_valid s dt :
  ymd.asc2dt s = inr dt → valid_date (year dt) (month dt) (day dt) = true.
Proof.
  unfold ymd.asc2dt, datetime_init.
  destruct (match_ymd s) as [[[y m] d]|]; [|discriminate].
  destruct (valid_date y m d) eqn:Hv; [|discriminate].
  intros [= <-]. exact Hv.
Qed.

Lemma wf_date_spec s :
  wf_date s = true →
  ∃ dt, ymd.asc2dt s = inr dt ∧ s = format_ymd dt
        ∧ valid_date (year dt) (month dt) (day dt) = true.
Proof.
  unfold wf_date. destruct (ymd.asc2dt s) as [e|dt] eqn:Hp; [discriminate|].
  intros H%String.eqb_eq. exists dt. eauto using asc2dt_valid.
Qed.

Lemma wf_date_format dt :
  valid_date (year dt) (month dt) (day dt) = true →
  wf_date (format_ymd dt) = true ∧ date_of (format_ymd dt) = dt.
Proof.
  intros Hv. unfold wf_date, date_of. rewrite asc2dt_format by done.
  split; [apply String.eqb_refl|done].
Qed.

Ltac compare_cases :=
  repeat match goal with
         | |- context [?a ?= ?b] => destruct (Z.compare_spec a b)
         end;
  try reflexivity; exfalso; Z.div_mod_to_equations; lia.

Lemma cmp2 (a b : Z) (K : comparison) :
  0 ≤ a ≤ 99 → 0 ≤ b ≤ 99 →
  match (a / 10) mod 10 ?= (b / 10) mod 10 with
  | Eq => match a mod 10 ?= b mod 10 with Eq => K | o => o end
  | o => o
  end = match a ?= b with Eq => K | o => o end.
Proof. intros Ha Hb. compare_cases. Qed.

Lemma cmp4 (a b : Z) (K : comparison) :
  0 ≤ a ≤ 9999 → 0 ≤ b ≤ 9999 →
  match (a / 1000) mod 10 ?= (b / 1000) mod 10 with
  | Eq =>
      match (a / 100) mod 10 ?= (b / 100) mod 10 with
      | Eq =>
          match (a / 10) mod 10 ?= (b / 10) mod 10 with
          | Eq => match a mod 10 ?= b mod 10 with Eq => K | o => o end
          | o => o
          end
      | o => o
      end
  | o => o
  end = match a ?= b with Eq => K | o => o end.
Proof. intros Ha Hb. compare_cases. Qed.

Lemma format_compare (a b : datetime) :
  valid_date (year a) (month a) (day a) = true →
  valid_date (year b) (month b) (day b) = true →
  String.compare (format_ymd a) (format_ymd b) = dt_compare a b.
Proof.
  intros (Hy & Hm & Hd)%valid_date_bounds (Hy' & Hm' & Hd')%valid_date_bounds.
  destruct a as [y m d], b as [y' m' d']; cbn [year month day] in *.
  unfold format_ymd, fmt4, fmt2, dt_compare. cbn [year month day].
  cbn [app string_of_list_ascii String.compare].
  rewrite !digit_char_compare.
  change (Ascii.compare "-" "-") with Eq. cbv iota.
  rewrite cmp4, cmp2, cmp2 by lia.
  destruct (y ?= y'), (m ?= m'), (d ?= d'); reflexivity.
Qed.

Lemma wf_compare (a b : string) :
  wf_date a = true → wf_date b = true →
  String.compare a b = dt_compare (date_of a) (date_of b).
Proof.
  intros (da & Ha & -> & Hva)%wf_date_spec (db & Hb & -> & Hvb)%wf_date_spec.
  unfold date_of. rewrite Ha, Hb. by apply format_compare.
Qed.

Lemma wf_leb (a b : string) :
  wf_date a = true → wf_date b = true → String.leb a b = date_leb a b.
Proof.
  intros Ha Hb. unfold String.leb, date_leb, dt_leb, dt_gtb.
  rewrite (wf_compare a b) by done.
  destruct (dt_compare (date_of a) (date_of b)); reflexivity.
Qed.

Lemma dt_compare_antisym a b : dt_compare b a = CompOpp (dt_compare a b).
Proof.
  unfold dt_compare.
  rewrite (Z.compare_antisym (year a)), (Z.compare_antisym (month a)),
    (Z.compare_antisym (day a)).
  destruct (year a ?= year b), (month a ?= month b), (day a ?= day b);
    reflexivity.
Qed.

Lemma wf_ltb (a b : string) :
  wf_date a = true → wf_date b = true → String.ltb a b = date_ltb a b.
Proof.
  intros Ha Hb. unfold String.ltb, date_ltb, dt_ltb, dt_gtb.
  rewrite (wf_compare a b), (dt_compare_antisym (date_of a)) by done.
  destruct (dt_compare (date_of a) (date_of b)); reflexivity.
Qed.


(** ** The order of texts and of sort keys *)

Lemma ascii_compare_refl a : Ascii.compare a a = Eq.
Proof. unfold Ascii.compare. apply N.compare_refl. Qed.

Lemma ascii_compare_lt_trans a b c :
  Ascii.compare a b = Lt → Ascii.compare b c = Lt → Ascii.compare a c = Lt.
Proof.
  unfold Ascii.compare. rewrite !N.compare_lt_iff. apply N.lt_trans.
Qed.

Lemma string_compare_refl s : String.compare s s = Eq.
Proof. induction s; simpl; [done|]. by rewrite ascii_compare_refl. Qed.

Lemma string_compare_eq a b : String.compare a b = Eq ↔ a = b.
Proof.
  split; [apply String.compare_eq_iff|intros ->; apply string_compare_refl].
Qed.

Lemma string_compare_lt_trans a :
  ∀ b c, String.compare a b = Lt → String.compare b c = Lt →
         String.compare a c = Lt.
Proof.
  induction a as [|x a IH]; intros [|y b] [|z c]; simpl; try done.
  destruct (Ascii.compare x y) eqn:Hxy; try done;
    destruct (Ascii.compare y z) eqn:Hyz; try done; intros H1 H2.
  - apply Ascii.compare_eq_iff in Hxy, Hyz. subst.
    rewrite ascii_compare_refl. eauto.
  - apply Ascii.compare_eq_iff in Hxy. subst. by rewrite Hyz.
  - apply Ascii.compare_eq_iff in Hyz. subst. by rewrite Hxy.
  - by rewrite (ascii_compare_lt_trans x y z).
Qed.

Lemma string_compare_gt a b : String.compare a b = Gt ↔ String.compare b a = Lt.
Proof.
  rewrite (String.compare_antisym b a).
  destruct (String.compare a b); simpl; split; congruence.
Qed.

Lemma key_ltb_compare a b : key_ltb a b = true ↔ key_compare a b = Lt.
Proof.
  unfold key_ltb, key_compare, String.ltb.
  destruct (String.compare (expiration a) (expiration b));
    [destruct (String.compare (join a) (join b))|..]; split; congruence.
Qed.

Lemma key_compare_eq a b :
  key_compare a b = Eq ↔ expiration a = expiration b ∧ join a = join b.
Proof.
  unfold key_compare. split.
  - destruct (String.compare (expiration a) (expiration b)) eqn:He; try done.
    intros Hj. by apply string_compare_eq in He, Hj.
  - intros [-> ->]. by rewrite !string_compare_refl.
Qed.

Lemma key_compare_gt a b : key_compare a b = Gt ↔ key_compare b a = Lt.
Proof.
  unfold key_compare.
  rewrite (String.compare_antisym (expiration b)),
    (String.compare_antisym (join b)).
  destruct (String.compare (expiration a) (expiration b)),
    (String.compare (join a) (join b)); simpl; split; congruence.
Qed.

Lemma key_compare_lt_trans a b c :
  key_compare a b = Lt → key_compare b c = Lt → key_compare a c = Lt.
Proof.
  unfold key_compare.
  destruct (String.compare (expiration a) (expiration b)) eqn:Hab; try done;
    destruct (String.compare (expiration b) (expiration c)) eqn:Hbc; try done;
    intros H1 H2.
  - apply string_compare_eq in Hab, Hbc. rewrite Hab, Hbc.
    rewrite string_compare_refl. eauto using string_compare_lt_trans.
  - apply string_compare_eq in Hab. rewrite Hab. by rewrite Hbc.
  - apply string_compare_eq in Hbc. rewrite <- Hbc. by rewrite Hab.
  - by rewrite (string_compare_lt_trans _ _ _ Hab Hbc).
Qed.

Lemma key_compare_fields a b a' b' :
  expiration a = expiration a' → join a = join a' →
  expiration b = expiration b' → join b = join b' →
  key_compare a b = key_compare a' b'.
Proof. unfold key_compare. by intros -> -> -> ->. Qed.

#[global] Instance stable_lt_trans : Transitive stable_lt.
Proof.
  intros a b c [Hab|[Hab Rab]] [Hbc|[Hbc Rbc]].
  - left. eauto using key_compare_lt_trans.
  - left. apply key_compare_eq in Hbc as [E J].
    by rewrite <- (key_compare_fields a b a c).
  - left. apply key_compare_eq in Hab as [E J].
    by rewrite (key_compare_fields a c b c).
  - right. split; [|lia].
    apply key_compare_eq in Hab as [E J], Hbc as [E' J'].
    apply key_compare_eq. split; congruence.
Qed.

(** ** Sorting *)

Lemma insert_sorted_perm x l : insert_sorted x l ≡ₚ x :: l.
Proof.
  induction l as [|y l IH]; simpl; [done|].
  destruct (key_ltb y x); [|done].
  rewrite IH. apply Permutation_swap.
Qed.

Lemma sorted_perm l : sorted l ≡ₚ l.
Proof.
  induction l as [|x l IH]; simpl; [done|].
  rewrite insert_sorted_perm. by f_equiv.
Qed.

Lemma insert_sorted_stable x l :
  StronglySorted stable_lt l →
  Forall (λ y, (fullrec x < fullrec y)%nat) l →
  StronglySorted stable_lt (insert_sorted x l).
Proof.
  induction 1 as [|y l Hl IH Hy]; intros Hx; simpl.
  { repeat constructor. }
  apply Forall_cons in Hx as [Hxy Hx].
  destruct (key_ltb y x) eqn:Hlt.
  - constructor; [by apply IH|].
    rewrite insert_sorted_perm. constructor; [|done].
    left. by apply key_ltb_compare.
  - assert (stable_lt x y) as Hsxy.
    { destruct (key_compare x y) eqn:Hc; [by right|by left|].
      apply key_compare_gt, key_ltb_compare in Hc. congruence. }
    constructor; [by constructor|]. constructor; [done|].
    eapply Forall_impl; [exact Hy|]. intros z Hz. by etrans.
Qed.

Lemma sorted_stable l :
  StronglySorted lt (map fullrec l) → StronglySorted stable_lt (sorted l).
Proof.
  induction l as [|x l IH]; simpl; intros H; [constructor|].
  apply StronglySorted_inv in H as [Hl Hx].
  apply insert_sorted_stable; [by apply IH|].
  rewrite sorted_perm. by rewrite Forall_fmap in Hx.
Qed.

(** ** The reading loop *)


Lemma names_append_refs k r names :
  all_refs (names_append k r names) ≡ₚ all_refs names ++ [fullrec r].
Proof.
  induction names as [|[k' g] names IH]; simpl; [done|].
  destruct (decide (k' = k)) as [->|Hne]; unfold all_refs in *; simpl.
  - rewrite map_app. simpl. rewrite <- !app_assoc. f_equiv.
    apply Permutation_app_comm.
  - rewrite IH. by rewrite <- app_assoc.
Qed.

Lemma names_append_keys k r names k' :
  k' ∈ (names_append k r names).*1 ↔ k' = k ∨ k' ∈ names.*1.
Proof.
  induction names as [|[k1 g] names IH]; simpl.
  - rewrite list_elem_of_singleton, elem_of_nil. tauto.
  - destruct (decide (k1 = k)) as [->|Hne]; simpl;
      rewrite !elem_of_cons; [tauto|]. rewrite IH. tauto.
Qed.

Lemma names_append_NoDup k r names :
  NoDup names.*1 → NoDup (names_append k r names).*1.
Proof.
  induction names as [|[k1 g] names IH]; simpl; intros Hnd.
  - apply NoDup_singleton.
  - apply NoDup_cons in Hnd as [Hk1 Hnd].
    destruct (decide (k1 = k)) as [->|Hne]; simpl.
    + by apply NoDup_cons.
    + apply NoDup_cons. split; [|by apply IH].
      rewrite names_append_keys. intros [?|?]; [congruence|done].
Qed.

Lemma names_append_Forall (P : namekey → list thisrec → Prop) k r names :
  Forall (λ e, P e.1 e.2) names →
  P k [r] → (∀ g, (k, g) ∈ names → P k g → P k (g ++ [r])) →
  Forall (λ e, P e.1 e.2) (names_append k r names).
Proof.
  intros Hall Hnew Hext.
  induction names as [|[k1 g] names IH]; simpl.
  - by repeat constructor.
  - apply Forall_cons in Hall as [Hg Hall].
    destruct (decide (k1 = k)) as [->|Hne].
    + constructor; [|done]. apply Hext; [left|done].
    + constructor; [done|]. apply IH; [done|].
      intros g' Hin. apply Hext. by right.
Qed.

Lemma getitem_inr d k v : getitem d k = inr v ↔ d !! k = Some v.
Proof. unfold getitem. destruct (d !! k); split; intros [=]; by subst. Qed.

Lemma StronglySorted_snoc_lt (l : list nat) (n : nat) :
  StronglySorted lt l → Forall (λ x, (x < n)%nat) l →
  StronglySorted lt (l ++ [n]).
Proof.
  induction 1 as [|x l Hl IH Hx]; intros Hn; simpl.
  - repeat constructor.
  - apply Forall_cons in Hn as [Hxn Hn]. constructor; [by apply IH|].
    apply Forall_app. split; [done|]. by repeat constructor.
Qed.

Lemma read_membership_ok rows n membership names names' :
  rows !! n = Some membership →
  names_ok rows n names →
  read_membership names (n, membership) = inr names' →
  names_ok rows (S n) names'.
Proof.
  intros Hrow (Hnd & Hall & Hrefs & Hkeys) Hread.
  unfold read_membership in Hread.
  repeat (apply bind_inr in Hread as (? & ?%getitem_inr & Hread)).
  injection Hread as <-.
  match goal with
  | |- names_ok _ _ (names_append ?k ?r _) => set (key := k); set (rec := r)
  end.
  assert (row_key membership = Some key) as Hkey.
  { unfold row_key. by simplify_option_eq. }
  assert (rec_of_row rows key rec) as Hrec.
  { exists membership. by repeat split. }
  repeat split.
  - by apply names_append_NoDup.
  - apply names_append_Forall.
    + eapply Forall_impl; [exact Hall|]. intros [k g] (Hne & Hs & Hg).
      repeat split; [done..|].
      eapply Forall_impl; [exact Hg|]. intros r [? ?]. split; [lia|done].
    + repeat split; [done|repeat constructor|].
      apply Forall_singleton. split; [simpl; lia|done].
    + intros g Hin _. rewrite Forall_forall in Hall.
      destruct (Hall _ Hin) as (Hne & Hs & Hg). simpl in *. repeat split.
      * destruct g; discriminate.
      * rewrite map_app. simpl. apply StronglySorted_snoc_lt; [done|].
        rewrite Forall_fmap. eapply Forall_impl; [exact Hg|].
        by intros r [? ?].
      * apply Forall_app. split.
        -- eapply Forall_impl; [exact Hg|]. intros r [? ?]. split; [lia|done].
        -- apply Forall_singleton. split; [simpl; lia|done].
  - rewrite names_append_refs, Hrefs. by rewrite seq_S.
  - rewrite names_append_keys, Hkeys. intros [->|(i & m & Hi & Hm & Hk)].
    + exists n, membership. split; [lia|done].
    + exists i, m. split; [lia|done].
  - rewrite names_append_keys, Hkeys. intros (i & m & Hi & Hm & Hk).
    destruct (decide (i = n)) as [->|Hne].
    + left. congruence.
    + right. exists i, m. split; [lia|done].
Qed.

Lemma read_loop_ok rows l :
  ∀ n names names',
    (∀ i, l !! i = rows !! (n + i)%nat) →
    names_ok rows n names →
    for_each read_membership (zip (seq n (length l)) l) names = inr names' →
    names_ok rows (n + length l) names'.
Proof.
  induction l as [|membership l IH]; intros n names names' Hl Hok; simpl.
  - intros [= <-]. by rewrite Nat.add_0_r.
  - intros (names1 & Hread & Hrest)%bind_inr.
    replace (n + S (length l))%nat with (S n + length l)%nat by lia.
    apply (IH (S n) names1); [|..|done].
    + intros i. replace (S n + i)%nat with (n + S i)%nat by lia.
      apply (Hl (S i)).
    + eapply read_membership_ok; [|done..].
      specialize (Hl 0%nat). rewrite Nat.add_0_r in Hl. by rewrite <- Hl.
Qed.

Lemma read_names_ok rows names0 :
  read_names rows = inr names0 → names_ok rows (length rows) names0.
Proof.
  intros H. apply (read_loop_ok rows rows 0 [] names0); [done| |done].
  repeat split; try constructor.
  - intros []%elem_of_nil.
  - intros (i & ? & ? & _). lia.
Qed.

(** ** Outcomes *)

Lemma repair_expiration prev prev' cur :
  expiration prev = expiration prev' → repair prev cur = repair prev' cur.
Proof. unfold repair. by intros ->. Qed.

Lemma dt2asc_inr dt asc :
  ymd.dt2asc dt = inr asc ↔ 1900 ≤ year dt ∧ asc = format_ymd dt.
Proof.
  unfold ymd.dt2asc. destruct (Z.ltb_spec (year dt) 1900); split.
  - discriminate.
  - lia.
  - by intros [= <-].
  - by intros [_ ->].
Qed.

Lemma datetime_init_inr y m d dt :
  datetime_init y m d = inr dt ↔ valid_date y m d = true ∧ dt = Datetime y m d.
Proof.
  unfold datetime_init. destruct (valid_date y m d); split.
  - by intros [= <-].
  - by intros [_ ->].
  - discriminate.
  - by intros [? _].
Qed.

(** What makes an iteration of the overlap loop toss the record [cur] that
    follows [prev]: both expiration dates parse and January 1 of the year
    after the year of [prev]'s is later than [cur]'s. *)
Lemma repair_cases prev cur o :
  repair prev cur = inr o →
  o_orig o = cur
  ∧ o_overlap o = String.leb (join cur) (expiration prev)
  ∧ ((o_overlap o = false ∧ o_toss o = false ∧ o_rec o = cur)
     ∨ (o_overlap o = true
        ∧ ∃ d1 d2 jan1,
            ymd.asc2dt (expiration prev) = inr d1
            ∧ ymd.asc2dt (expiration cur) = inr d2
            ∧ datetime_init (year d1 + 1) 1 1 = inr jan1
            ∧ 1900 ≤ year jan1
            ∧ o_toss o = dt_gtb jan1 d2
            ∧ o_rec o = set_join (format_ymd jan1)
                          (if o_toss o then set_tossed "Y" cur else cur))).
Proof.
  unfold repair. destruct (String.leb (join cur) (expiration prev)).
  - intros (d1 & Hd1 & (d2 & Hd2 & (jan1 & Hj & (asc & Ha & Ho)%bind_inr)
            %bind_inr)%bind_inr)%bind_inr.
    apply dt2asc_inr in Ha as [Hy ->]. injection Ho as <-. simpl.
    repeat split. right. split; [done|]. by exists d1, d2, jan1.
  - intros [= <-]. simpl. repeat split. by left.
Qed.

Lemma repair_same prev cur o :
  repair prev cur = inr o →
  o_orig o = cur ∧ expiration (o_rec o) = expiration cur
  ∧ fullrec (o_rec o) = fullrec cur.
Proof.
  intros (Ho & _ & [(_ & _ & ->)|(_ & d1 & d2 & j & _ & _ & _ & _ & _ & ->)])
    %repair_cases; repeat split; try done; by destruct (o_toss o).
Qed.

Lemma repaired_lookup rest :
  ∀ prev os,
    repaired prev rest = inr os →
    map o_orig os = rest
    ∧ map (λ o, expiration (o_rec o)) os = map expiration rest
    ∧ map (λ o, fullrec (o_rec o)) os = map fullrec rest
    ∧ ∀ i p cur, (prev :: rest) !! i = Some p → rest !! i = Some cur →
        ∃ o, os !! i = Some o ∧ repair p cur = inr o.
Proof.
  induction rest as [|cur rest IH]; intros prev os; simpl.
  - intros [= <-]. repeat split. intros i p cur _ H.
    by rewrite lookup_nil in H.
  - intros (o & Ho & (os' & Hos & [= <-])%bind_inr)%bind_inr.
    destruct (IH _ _ Hos) as (IH1 & IH2 & IH3 & IH4).
    destruct (repair_same _ _ _ Ho) as (Ho1 & Ho2 & Ho3).
    simpl. repeat split; [congruence..|].
    intros [|i] p c; simpl.
    + intros [= <-] [= <-]. eauto.
    + intros Hp Hc.
      destruct i as [|i]; simpl in *.
      * injection Hp as <-. destruct (IH4 0%nat (o_rec o) c) as (o' & ? & ?);
          [done..|].
        exists o'. split; [done|].
        by rewrite (repair_expiration cur (o_rec o)).
      * by apply (IH4 (S i)).
Qed.

Lemma outcomes_lookup s os :
  outcomes s = inr os →
  map o_orig os = s
  ∧ map (λ o, expiration (o_rec o)) os = map expiration s
  ∧ map (λ o, fullrec (o_rec o)) os = map fullrec s
  ∧ (∀ first, s !! 0%nat = Some first → os !! 0%nat = Some (untouched first))
  ∧ ∀ i prev cur, s !! i = Some prev → s !! S i = Some cur →
      ∃ o, os !! S i = Some o ∧ repair prev cur = inr o.
Proof.
  unfold outcomes. destruct s as [|first rest].
  - intros [= <-]. repeat split; intros; by rewrite ?lookup_nil in *.
  - intros (os' & (H1 & H2 & H3 & H4)%repaired_lookup & [= <-])%bind_inr.
    simpl. repeat split; [congruence..| |].
    + by intros ? [= <-].
    + intros i prev cur Hp Hc. by apply (H4 i).
Qed.

Lemma all_outcomes_lookup names0 :
  ∀ R, all_outcomes names0 = inr R →
    length R = length names0
    ∧ ∀ n k g0, names0 !! n = Some (k, g0) →
        ∃ os, R !! n = Some (k, os) ∧ outcomes (sorted g0) = inr os.
Proof.
  induction names0 as [|[k g] names0 IH]; intros R; simpl.
  - intros [= <-]. split; [done|]. intros ???. by rewrite lookup_nil.
  - intros (os & Hos & (R' & HR & [= <-])%bind_inr)%bind_inr.
    destruct (IH _ HR) as [IH1 IH2]. split; [simpl; lia|].
    intros [|n] k' g0; simpl.
    + intros [= <- <-]. eauto.
    + apply IH2.
Qed.

(** ** References and the heap *)

Lemma group_writes_app os1 os2 :
  group_writes (os1 ++ os2) = group_writes os1 ++ group_writes os2.
Proof. unfold group_writes. by rewrite filter_app, map_app. Qed.

Lemma survivors_app os1 os2 :
  survivors (os1 ++ os2) = survivors os1 ++ survivors os2.
Proof. unfold survivors. by rewrite filter_app, map_app. Qed.

Lemma final_heap_all_os rows R :
  final_heap rows R = apply_writes rows (group_writes (all_os R)).
Proof.
  unfold final_heap, all_os. f_equal.
  induction R as [|[k os] R IH]; simpl; [done|].
  by rewrite group_writes_app, IH.
Qed.

Lemma final_names_refs R :
  all_refs (final_names R) = map fullrec (survivors (all_os R)).
Proof.
  unfold all_refs, final_names, all_os.
  induction R as [|[k os] R IH]; simpl; [done|].
  by rewrite survivors_app, map_app, IH.
Qed.

Lemma all_os_refs names0 :
  ∀ R, all_outcomes names0 = inr R → map oref (all_os R) ≡ₚ all_refs names0.
Proof.
  unfold all_os, all_refs.
  induction names0 as [|[k g] names0 IH]; intros R; simpl.
  - by intros [= <-].
  - intros (os & Hos & (R' & HR & [= <-])%bind_inr)%bind_inr. simpl.
    rewrite map_app. f_equiv; [|by apply IH].
    destruct (outcomes_lookup _ _ Hos) as (_ & _ & Hf & _).
    unfold oref. rewrite Hf. apply Permutation_map, sorted_perm.
Qed.

Lemma elem_of_all_os R n k os i o :
  R !! n = Some (k, os) → os !! i = Some o → o ∈ all_os R.
Proof.
  intros HR Ho. unfold all_os. apply list_elem_of_In, in_flat_map.
  exists (k, os). split; apply list_elem_of_In; eapply list_elem_of_lookup_2;
    done.
Qed.

Lemma NoDup_map_inj_on {A B} (f : A → B) (l : list A) x y :
  NoDup (map f l) → x ∈ l → y ∈ l → f x = f y → x = y.
Proof.
  induction l as [|z l IH]; simpl; [by intros _ ?%elem_of_nil|].
  intros [Hz Hnd]%NoDup_cons [->|Hx]%elem_of_cons [->|Hy]%elem_of_cons Hf;
    try done.
  - destruct Hz. rewrite Hf. by apply (list_elem_of_fmap_2 f).
  - destruct Hz. rewrite <- Hf. by apply (list_elem_of_fmap_2 f).
  - by apply IH.
Qed.

Lemma survivors_elem_of os r :
  r ∈ survivors os ↔ ∃ o, o ∈ os ∧ o_toss o = false ∧ r = o_rec o.
Proof.
  unfold survivors. rewrite list_elem_of_fmap. split.
  - intros (o & -> & [? ?]%list_elem_of_filter). eauto.
  - intros (o & ? & ? & ->). exists o. by rewrite list_elem_of_filter.
Qed.

Lemma survivor_ref os o :
  NoDup (map oref os) → o ∈ os →
  oref o ∈ map fullrec (survivors os) ↔ o_toss o = false.
Proof.
  intros Hnd Ho. split.
  - intros (r & Hr & (o' & Ho' & Ht & ->)%survivors_elem_of)%list_elem_of_fmap.
    by rewrite (NoDup_map_inj_on oref os o o').
  - intros Ht. apply (list_elem_of_fmap_2 fullrec).
    apply survivors_elem_of. eauto.
Qed.

Lemma length_apply_writes heap ws :
  length (apply_writes heap ws) = length heap.
Proof.
  revert heap; induction ws as [|w ws IH]; intros heap; simpl; [done|].
  unfold apply_writes in *. simpl. by rewrite IH, length_alter.
Qed.

Lemma apply_writes_notin heap os r :
  r ∉ map oref os → apply_writes heap (group_writes os) !! r = heap !! r.
Proof.
  revert heap; induction os as [|o os IH]; intros heap; simpl; [done|].
  intros [Hne Hr]%not_elem_of_cons.
  rewrite group_writes_cons, apply_writes_app, IH by done.
  unfold group_writes. rewrite filter_cons, filter_nil.
  destruct (decide (o_overlap o = true)); simpl; [|done].
  by rewrite list_lookup_alter_ne.
Qed.

(** The row of a record after the constructor ran: its [JoinDate] was
    overwritten exactly when the record overlapped its predecessor. *)
Lemma apply_writes_lookup heap os o :
  NoDup (map oref os) → o ∈ os →
  apply_writes heap (group_writes os) !! oref o =
  if o_overlap o then <["JoinDate" := join (o_rec o)]> <$> heap !! oref o
  else heap !! oref o.
Proof.
  revert heap; induction os as [|o1 os IH]; intros heap; simpl.
  { by intros _ ?%elem_of_nil. }
  intros [Hne Hnd]%NoDup_cons [->|Ho]%elem_of_cons.
  - rewrite group_writes_cons, apply_writes_app, apply_writes_notin by done.
    unfold group_writes. rewrite filter_cons, filter_nil.
    destruct (decide (o_overlap o1 = true)) as [->|Hov]; simpl.
    + apply list_lookup_alter_eq.
    + by destruct (o_overlap o1).
  - rewrite group_writes_cons, apply_writes_app, IH by done.
    assert (oref o1 ≠ oref o) as Hr.
    { intros Heq. apply Hne. rewrite Heq. by apply (list_elem_of_fmap_2 oref). }
    unfold group_writes. rewrite filter_cons, filter_nil.
    destruct (decide (o_overlap o1 = true)); simpl; [|done].
    by rewrite !list_lookup_alter_ne.
Qed.

Lemma init_inr mf overlapfile c :
  init mf overlapfile = inr c →
  ∃ rows names0 R,
    source_rows mf = inr rows ∧ read_names rows = inr names0
    ∧ all_outcomes names0 = inr R
    ∧ names c = final_names R ∧ heap c = final_heap rows R.
Proof.
  rewrite init_closed.
  intros (rows & Hrows & (names0 & Hn & (R & HR & [= <-])%bind_inr)%bind_inr)
    %bind_inr.
  by exists rows, names0, R.
Qed.

Lemma all_os_NoDup rows names0 R :
  read_names rows = inr names0 → all_outcomes names0 = inr R →
  NoDup (map oref (all_os R))
  ∧ ∀ o, o ∈ all_os R → (oref o < length rows)%nat.
Proof.
  intros (_ & _ & Hrefs & _)%read_names_ok HR%all_os_refs.
  rewrite Hrefs in HR. split.
  - rewrite HR. apply NoDup_seq.
  - intros o Ho. apply (list_elem_of_fmap_2 oref) in Ho.
    rewrite HR in Ho. apply elem_of_seq in Ho. lia.
Qed.

Lemma group_os_NoDup R n k os :
  NoDup (map oref (all_os R)) → R !! n = Some (k, os) → NoDup (map oref os).
Proof.
  intros Hnd HR. apply list_elem_of_split_length in HR as (R1 & R2 & -> & _).
  unfold all_os in Hnd. rewrite flat_map_app, map_app in Hnd. simpl in Hnd.
  rewrite map_app in Hnd.
  apply NoDup_app in Hnd as (_ & _ & Hnd). by apply NoDup_app in Hnd as [? _].
Qed.

(** ** The views *)

Lemma name_iter_closed names :
  ∀ heap out,
    for_each name_iter_body names (heap, out) =
    match name_targets names with
    | Some ts => inr (apply_writes heap ts, out ++ yields heap ts)
    | None => inl IndexError
    end.
Proof.
  induction names as [|[k g] names IH]; intros heap out; simpl.
  - by rewrite app_nil_r.
  - unfold name_target. simpl.
    destruct (last g) as [l|]; [|done]. destruct (head g) as [f|]; [|done].
    simpl. rewrite IH. destruct (name_targets names) as [ts|]; simpl; [|done].
    by rewrite <- app_assoc.
Qed.

Lemma name_targets_lookup names :
  Forall (λ e, e.2 ≠ []) names →
  ∃ ts, name_targets names = Some ts ∧ length ts = length names
        ∧ ∀ n k g, names !! n = Some (k, g) →
            ∃ l f, last g = Some l ∧ head g = Some f
                   ∧ ts !! n = Some (fullrec l, join f).
Proof.
  induction 1 as [|[k g] names Hg _ (ts & Hts & Hlen & IH)]; simpl.
  - exists []. repeat split. intros ???. by rewrite lookup_nil.
  - unfold name_target. simpl in *.
    destruct g as [|f g]; [done|].
    destruct (last_is_Some (f :: g)) as [_ [l Hl]]; [done|].
    rewrite Hl, Hts. simpl. eexists. split; [done|]. split; [simpl; lia|].
    intros [|n] k' g'; simpl.
    + intros [= <- <-]. by exists l, f.
    + apply IH.
Qed.

Lemma name_targets_refs names ts :
  name_targets names = Some ts → ts.*1 `sublist_of` all_refs names.
Proof.
  revert ts. induction names as [|[k g] names IH]; intros ts; simpl.
  - by intros [= <-].
  - unfold name_target. simpl.
    destruct (last g) as [l|] eqn:Hl; [|done].
    destruct (head g) as [f|]; [|done]. simpl.
    destruct (name_targets names) as [ts'|]; [|done]. intros [= <-].
    unfold all_refs. simpl. fold (all_refs names).
    apply last_Some in Hl as (g' & ->). rewrite map_app. simpl.
    rewrite <- app_assoc. apply sublist_inserts_l. simpl.
    apply sublist_skip. by apply IH.
Qed.

Lemma yields_refs heap ts : (yields heap ts).*1 = ts.*1.
Proof.
  revert heap; induction ts as [|t ts IH]; intros heap; simpl; [done|].
  by rewrite IH.
Qed.

Lemma apply_writes_ne heap ts r :
  r ∉ ts.*1 → apply_writes heap ts !! r = heap !! r.
Proof.
  revert heap; induction ts as [|[r' v] ts IH]; intros heap; [done|].
  intros [Hne Hr]%not_elem_of_cons. simpl in *.
  unfold apply_writes in *. simpl. rewrite IH by done.
  by rewrite list_lookup_alter_ne.
Qed.

Lemma apply_writes_eq heap ts r v :
  NoDup ts.*1 → (r, v) ∈ ts →
  apply_writes heap ts !! r = <["JoinDate" := v]> <$> heap !! r.
Proof.
  revert heap; induction ts as [|[r' v'] ts IH]; intros heap.
  { by intros _ ?%elem_of_nil. }
  intros [Hne Hnd]%NoDup_cons [[= -> ->]|Hin]%elem_of_cons; simpl in *.
  - change (apply_writes heap ((r', v') :: ts))
      with (apply_writes (alter (<["JoinDate" := v']>) r' heap) ts).
    rewrite apply_writes_ne by done. apply list_lookup_alter_eq.
  - change (apply_writes heap ((r', v') :: ts))
      with (apply_writes (alter (<["JoinDate" := v']>) r' heap) ts).
    rewrite IH by done. rewrite list_lookup_alter_ne; [done|].
    intros ->. apply Hne. by apply (list_elem_of_fmap_2 fst _ (r, v)).
Qed.

Lemma deref_alter_eq heap r v :
  (r < length heap)%nat →
  deref (alter (<["JoinDate" := v]>) r heap) r
  = <["JoinDate" := v]> (deref heap r).
Proof. intros Hr. unfold deref. by apply list_lookup_total_alter_eq. Qed.

Lemma deref_alter_ne heap r r' v :
  r' ≠ r → deref (alter (<["JoinDate" := v]>) r' heap) r = deref heap r.
Proof. intros Hr. unfold deref. by apply list_lookup_total_alter_ne. Qed.

Lemma yields_lookup ts :
  ∀ heap n r v,
    NoDup ts.*1 → ts !! n = Some (r, v) → (r < length heap)%nat →
    yields heap ts !! n = Some (r, <["JoinDate" := v]> (deref heap r)).
Proof.
  induction ts as [|[r' v'] ts IH]; intros heap n r v; [done|].
  intros [Hne Hnd]%NoDup_cons. destruct n as [|n]; simpl.
  - intros [= -> ->] Hr. by rewrite deref_alter_eq.
  - intros Hn Hr. rewrite (IH _ n r v); [|done..|by rewrite length_alter].
    rewrite deref_alter_ne; [done|].
    intros ->. apply Hne.
    apply (list_elem_of_fmap_2 fst _ (r, v)). by eapply list_elem_of_lookup_2.
Qed.

Lemma deref_lookup heap r membership :
  heap !! r = Some membership → deref heap r = membership.
Proof. apply list_lookup_total_correct. Qed.

Lemma length_yields heap ts : length (yields heap ts) = length ts.
Proof.
  revert heap; induction ts as [|t ts IH]; intros heap; simpl; [done|].
  by rewrite IH.
Qed.

Lemma apply_writes_deref heap ts r v :
  NoDup ts.*1 → (r, v) ∈ ts → (r < length heap)%nat →
  deref (apply_writes heap ts) r = <["JoinDate" := v]> (deref heap r).
Proof.
  intros Hnd Hin Hr. apply deref_lookup. rewrite (apply_writes_eq _ _ _ v) by done.
  destruct (lookup_lt_is_Some_2 heap r Hr) as [m Hm].
  by rewrite Hm, (deref_lookup _ _ _ Hm).
Qed.

(** Iterating [name_iter] again changes nothing more and yields the same. *)
Lemma apply_writes_idem heap ts :
  NoDup ts.*1 →
  apply_writes (apply_writes heap ts) ts = apply_writes heap ts.
Proof.
  intros Hnd. apply list_eq. intros r.
  destruct (decide (r ∈ ts.*1)) as [Hin|Hnin].
  - apply list_elem_of_fmap in Hin as ([r' v] & -> & Hin). simpl.
    rewrite !(apply_writes_eq _ _ _ v) by done.
    destruct (heap !! r') as [m|]; simpl; [|done].
    by rewrite insert_insert_eq.
  - by rewrite !apply_writes_ne.
Qed.

Lemma yields_idem heap ts :
  NoDup ts.*1 → Forall (λ t, (t.1 < length heap)%nat) ts →
  yields (apply_writes heap ts) ts = yields heap ts.
Proof.
  intros Hnd Hlt. apply list_eq. intros n.
  destruct (ts !! n) as [[r v]|] eqn:Hn.
  - assert ((r, v) ∈ ts) as Hin by by eapply list_elem_of_lookup_2.
    assert (r < length heap)%nat as Hr.
    { rewrite Forall_forall in Hlt. apply (Hlt _ Hin). }
    rewrite !(yields_lookup ts _ n r v);
      [|done..|by rewrite length_apply_writes].
    rewrite (apply_writes_deref _ _ _ v) by done.
    by rewrite insert_insert_eq.
  - apply lookup_ge_None in Hn.
    rewrite !(proj2 (lookup_ge_None _ _)); [done|by rewrite length_yields..].
Qed.

(** ** The groups after construction *)

Lemma final_names_lookup R n k os :
  R !! n = Some (k, os) → final_names R !! n = Some (k, survivors os).
Proof. intros H. unfold final_names. by rewrite list_lookup_fmap, H. Qed.

Lemma final_names_lookup_inv R n k g :
  final_names R !! n = Some (k, g) →
  ∃ os, R !! n = Some (k, os) ∧ g = survivors os.
Proof.
  unfold final_names. rewrite list_lookup_fmap.
  destruct (R !! n) as [[k' os]|]; simpl; [|done].
  intros [= <- <-]. eauto.
Qed.

Lemma final_names_keys R : (final_names R).*1 = R.*1.
Proof.
  unfold final_names. induction R as [|[??] R IH]; simpl; [done|].
  by f_equal.
Qed.

Lemma all_outcomes_keys names0 :
  ∀ R, all_outcomes names0 = inr R → R.*1 = names0.*1.
Proof.
  induction names0 as [|[k g] names0 IH]; intros R; simpl.
  - by intros [= <-].
  - intros (os & Hos & (R' & HR & [= <-])%bind_inr)%bind_inr.
    simpl. f_equal. by apply IH.
Qed.

Lemma all_outcomes_lookup_inv names0 R n k os :
  all_outcomes names0 = inr R → R !! n = Some (k, os) →
  ∃ g0, names0 !! n = Some (k, g0) ∧ outcomes (sorted g0) = inr os.
Proof.
  intros HR Hn. destruct (all_outcomes_lookup _ _ HR) as [Hlen Hl].
  destruct (lookup_lt_is_Some_2 names0 n) as [[k' g0] Hg0].
  { rewrite <- Hlen. by eapply lookup_lt_Some. }
  destruct (Hl _ _ _ Hg0) as (os' & Hn' & Hos).
  rewrite Hn in Hn'. injection Hn' as <- <-. eauto.
Qed.

Lemma sorted_nil_inv g : sorted g = [] → g = [].
Proof.
  intros H. pose proof (sorted_perm g) as Hp. rewrite H in Hp.
  by apply Permutation_nil in Hp.
Qed.

(** The record at index 0 of a sorted group survives, untouched. *)
Lemma outcomes_head g os :
  g ≠ [] → outcomes (sorted g) = inr os →
  ∃ first rest os',
    sorted g = first :: rest ∧ os = untouched first :: os'
    ∧ survivors os = first :: survivors os'.
Proof.
  intros Hg. unfold outcomes.
  destruct (sorted g) as [|first rest] eqn:Hs.
  { by apply sorted_nil_inv in Hs. }
  intros (os' & _ & [= <-])%bind_inr. by exists first, rest, os'.
Qed.

Section constructed.
Context (mf : memberfile) (overlapfile : option string) (c : constructed).
Context (rows : list row) (names0 : list (namekey * list thisrec)).
Context (Hinit : init mf overlapfile = inr c).
Context (Hrows : source_rows mf = inr rows).
Context (Hread : read_names rows = inr names0).

Lemma constructed_R :
  ∃ R, all_outcomes names0 = inr R ∧ names c = final_names R
       ∧ heap c = final_heap rows R.
Proof using Hinit Hrows Hread.
  destruct (init_inr _ _ _ Hinit) as (rows' & names0' & R & H1 & H2 & H3 & H4).
  rewrite Hrows in H1. injection H1 as <-.
  rewrite Hread in H2. injection H2 as <-. eauto.
Qed.

Lemma length_heap : length (heap c) = length rows.
Proof using Hinit Hrows Hread.
  destruct constructed_R as (R & _ & _ & ->).
  apply length_apply_writes.
Qed.

(** The group at position [n]: its outcomes, what is left of it, and the
    rows of its records. *)
Lemma constructed_group n k g0 :
  names0 !! n = Some (k, g0) →
  ∃ os,
    outcomes (sorted g0) = inr os
    ∧ names c !! n = Some (k, survivors os)
    ∧ group_ok rows (length rows) k g0
    ∧ NoDup (map oref os)
    ∧ (∀ o, o ∈ os → oref o ∈ all_refs (names c) ↔ o_toss o = false)
    ∧ ∀ o, o ∈ os →
        heap c !! oref o =
        if o_overlap o
        then <["JoinDate" := join (o_rec o)]> <$> rows !! oref o
        else rows !! oref o.
Proof using Hinit Hrows Hread.
  intros Hn. destruct constructed_R as (R & HR & Hnames & Hheap).
  destruct (all_outcomes_lookup _ _ HR) as [_ Hl].
  destruct (Hl _ _ _ Hn) as (os & HRn & Hos).
  destruct (all_os_NoDup _ _ _ Hread HR) as [Hnd Hlt].
  destruct (read_names_ok _ _ Hread) as (_ & Hall & _ & _).
  exists os. split; [done|]. split.
  { rewrite Hnames. by apply final_names_lookup. }
  split.
  { rewrite Forall_forall in Hall. apply (Hall (k, g0)).
    by eapply list_elem_of_lookup_2. }
  split; [by eapply group_os_NoDup|].
  assert (∀ o, o ∈ os → o ∈ all_os R) as Hin.
  { intros o [i Hi]%list_elem_of_lookup_1. by eapply elem_of_all_os. }
  split.
  - intros o Ho. rewrite Hnames, final_names_refs.
    apply survivor_ref; auto.
  - intros o Ho. rewrite Hheap, final_heap_all_os.
    apply apply_writes_lookup; auto.
Qed.

Lemma constructed_group_inv n k g :
  names c !! n = Some (k, g) → ∃ g0, names0 !! n = Some (k, g0).
Proof using Hinit Hrows Hread.
  destruct constructed_R as (R & HR & -> & _).
  intros (os & HRn & _)%final_names_lookup_inv.
  destruct (all_outcomes_lookup_inv _ _ _ _ _ HR HRn) as (g0 & ? & _). eauto.
Qed.

Lemma constructed_keys : (names c).*1 = names0.*1.
Proof using Hinit Hrows Hread.
  destruct constructed_R as (R & HR & -> & _).
  by rewrite final_names_keys, (all_outcomes_keys _ _ HR).
Qed.

Lemma constructed_refs_NoDup :
  NoDup (all_refs (names c))
  ∧ Forall (λ r, (r < length rows)%nat) (all_refs (names c)).
Proof using Hinit Hrows Hread.
  destruct constructed_R as (R & HR & -> & _).
  destruct (all_os_NoDup _ _ _ Hread HR) as [Hnd Hlt].
  rewrite final_names_refs. unfold survivors.
  assert (map fullrec (map o_rec (filter (λ o, o_toss o = false) (all_os R)))
          = map oref (filter (λ o, o_toss o = false) (all_os R))) as ->.
  { by rewrite map_map. }
  split.
  - eapply sublist_NoDup; [exact Hnd|].
    apply (fmap_sublist oref), sublist_filter.
  - apply Forall_forall. intros r (o & -> & [_ Ho]%list_elem_of_filter)
      %list_elem_of_fmap. by apply Hlt.
Qed.

Lemma constructed_nonempty : Forall (λ e, e.2 ≠ []) (names c).
Proof using Hinit Hrows Hread.
  apply Forall_forall. intros [k g] [n Hn]%list_elem_of_lookup_1.
  destruct (constructed_group_inv _ _ _ Hn) as [g0 Hg0].
  destruct (constructed_group _ _ _ Hg0) as (os & Hos & Hn' & (Hne & _) & _).
  rewrite Hn in Hn'. injection Hn' as ->.
  destruct (outcomes_head _ _ Hne Hos) as (f & r & os' & _ & _ & ->). done.
Qed.

(** [name_iter] on the constructed object: it returns, and what it writes
    and yields for the group at position [n]. *)
Lemma constructed_name_iter :
  ∃ ts,
    name_targets (names c) = Some ts
    ∧ name_iter (names c) (heap c)
      = inr (apply_writes (heap c) ts, yields (heap c) ts)
    ∧ length ts = length (names c)
    ∧ NoDup ts.*1
    ∧ Forall (λ t, (t.1 < length (heap c))%nat) ts
    ∧ ∀ n k g, names c !! n = Some (k, g) →
        ∃ l f, last g = Some l ∧ head g = Some f
               ∧ ts !! n = Some (fullrec l, join f)
               ∧ yields (heap c) ts !! n
                 = Some (fullrec l,
                         <["JoinDate" := join f]> (deref (heap c) (fullrec l))).
Proof using Hinit Hrows Hread.
  destruct (name_targets_lookup _ constructed_nonempty) as (ts & Hts & Hlen & Hl).
  destruct constructed_refs_NoDup as [Hnd Hlt].
  pose proof (name_targets_refs _ _ Hts) as Hsub.
  assert (NoDup ts.*1) as Hnd' by by eapply sublist_NoDup.
  assert (Forall (λ t, (t.1 < length (heap c))%nat) ts) as Hlt'.
  { rewrite length_heap. apply Forall_forall. intros t Ht.
    rewrite Forall_forall in Hlt. apply Hlt.
    eapply elem_of_sublist; [|exact Hsub]. by apply (list_elem_of_fmap_2 fst). }
  exists ts. split; [done|]. split.
  { unfold name_iter. by rewrite name_iter_closed, Hts. }
  repeat split; [done..|].
  intros n k g Hn. destruct (Hl _ _ _ Hn) as (l & f & ? & ? & Hn').
  exists l, f. repeat split; [done..|].
  apply yields_lookup; [done..|].
  rewrite Forall_forall in Hlt'.
  apply (Hlt' (fullrec l, join f)). by eapply list_elem_of_lookup_2.
Qed.

End constructed.

Lemma outcomes_elem s os i o :
  outcomes s = inr os → os !! i = Some o →
  s !! i = Some (o_orig o) ∧ oref o = fullrec (o_orig o)
  ∧ expiration (o_rec o) = expiration (o_orig o).
Proof.
  intros (H1 & H2 & H3 & _)%outcomes_lookup Ho.
  assert (s !! i = Some (o_orig o)) as Hs.
  { rewrite <- H1. change (map o_orig os) with (o_orig <$> os).
    by rewrite list_lookup_fmap, Ho. }
  split; [done|]. split.
  - apply (f_equal (λ l, l !! i)) in H3.
    change (map (λ o, fullrec (o_rec o)) os) with (oref <$> os) in H3.
    change (map fullrec s) with (fullrec <$> s) in H3.
    rewrite !list_lookup_fmap, Ho, Hs in H3. simpl in H3. congruence.
  - apply (f_equal (λ l, l !! i)) in H2.
    change (map (λ o, expiration (o_rec o)) os)
      with ((λ o, expiration (o_rec o)) <$> os) in H2.
    change (map expiration s) with (expiration <$> s) in H2.
    rewrite !list_lookup_fmap, Ho, Hs in H2. simpl in H2. congruence.
Qed.

Lemma row_key_insert_JoinDate (m : row) v :
  row_key (<["JoinDate" := v]> m) = row_key m.
Proof. unfold row_key. by rewrite !lookup_insert_ne. Qed.

Lemma sorted_elem_of g x : x ∈ sorted g ↔ x ∈ g.
Proof. by rewrite sorted_perm. Qed.

Section constructed_rows.
Context (mf : memberfile) (overlapfile : option string) (c : constructed).
Context (rows : list row) (names0 : list (namekey * list thisrec)).
Context (Hinit : init mf overlapfile = inr c).
Context (Hrows : source_rows mf = inr rows).
Context (Hread : read_names rows = inr names0).

(** The row behind an outcome of the group at position [n], before and
    after construction. *)
Lemma constructed_row n k g0 os i o :
  names0 !! n = Some (k, g0) → outcomes (sorted g0) = inr os →
  os !! i = Some o →
  ∃ membership,
    rows !! oref o = Some membership
    ∧ membership !! "JoinDate" = Some (join (o_orig o))
    ∧ membership !! "ExpirationDate" = Some (expiration (o_orig o))
    ∧ row_key membership = Some k
    ∧ heap c !! oref o =
      Some (if o_overlap o
            then <["JoinDate" := join (o_rec o)]> membership
            else membership).
Proof using Hinit Hrows Hread.
  intros Hn Hos Ho.
  destruct (constructed_group _ _ _ _ _ Hinit Hrows Hread _ _ _ Hn)
    as (os' & Hos' & _ & (_ & _ & Hg0) & _ & _ & Hheap).
  rewrite Hos in Hos'. injection Hos' as <-.
  destruct (outcomes_elem _ _ _ _ Hos Ho) as (Hs & Hr & _).
  rewrite Forall_forall in Hg0.
  destruct (Hg0 (o_orig o)) as (_ & m & Hm & Hj & He & Hk).
  { apply sorted_elem_of. by eapply list_elem_of_lookup_2. }
  exists m. rewrite Hr. repeat split; [done..|].
  rewrite <- Hr, Hheap by by eapply list_elem_of_lookup_2.
  rewrite Hr, Hm. by destruct (o_overlap o).
Qed.

End constructed_rows.

(** ** The sample rosters *)

Lemma doe_read : read_names doe_rows = inr doe_names0.
Proof. reflexivity. Qed.

Lemma doe_init : init (mf_list doe_rows) None = inr doe_constructed.
Proof. reflexivity. Qed.

Lemma doe_wf : forallb wf_row doe_rows = true.
Proof. vm_compute. reflexivity. Qed.

Lemma roe_read : read_names roe_rows = inr roe_names0.
Proof. reflexivity. Qed.

Lemma roe_init : init (mf_list roe_rows) None = inr roe_constructed.
Proof. reflexivity. Qed.

Lemma poe_init : init (mf_list poe_rows) None = inr poe_constructed.
Proof. reflexivity. Qed.

(** The embedding runs: the date functions, the sort, and the body of the
    constructor on a sample group, debug file included. *)
Example asc2dt_padded : ymd.asc2dt "2021-06-30" = inr (Datetime 2021 6 30).
Proof. reflexivity. Qed.

Example asc2dt_unpadded : ymd.asc2dt "2021-6-1" = inr (Datetime 2021 6 1).
Proof. reflexivity. Qed.

Example asc2dt_no_such_day : ymd.asc2dt "2021-02-29" = inl ValueError.
Proof. reflexivity. Qed.

Example asc2dt_trailing : ymd.asc2dt "2021-06-30x" = inl ValueError.
Proof. reflexivity. Qed.

Example dt2asc_jan1 : ymd.dt2asc (Datetime 2022 1 1) = inr "2022-01-01"%string.
Proof. reflexivity. Qed.

Example dt2asc_before_1900 : ymd.dt2asc (Datetime 1899 1 1) = inl ValueError.
Proof. reflexivity. Qed.

Example wf_date_padded_only :
  wf_date "2021-06-30" = true ∧ wf_date "2021-6-1" = false.
Proof. split; reflexivity. Qed.

Example sorted_roe : sorted [roe_first; roe_second] = [roe_second; roe_first].
Proof. reflexivity. Qed.

Example reconcile_group_roe :
  reconcile_group true [roe_first; roe_second] roe_rows []
  = inr ([roe_second], heap roe_constructed,
         [ovrlp_row roe_second; ovrlp_row (set_tossed "Y" roe_first)]).
Proof. reflexivity. Qed.

Example init_missing_column :
  init (mf_list [{[ "JoinDate" := "2020-01-01"%string ]}]) None
  = inl (KeyError "ExpirationDate").
Proof. reflexivity. Qed.

(** * The claims *)

(** C7.  What the constructor does with a [memberfile] that is neither a
    [str], a [file] nor a [list]: it fails at the type dispatch, before
    [self.names] exists, so no reconciled state is built; but the exception
    is the [NameError] that Python raises for the name [unsupportedFileType],
    which the module never defines, not an error of the constructor's own
    about the type of its argument. *)
Theorem C7_unsupported_memberfile (overlapfile : option string) :
  init mf_other overlapfile = inl (NameError "unsupportedFileType")
  ∧ source_rows mf_other = inl (NameError "unsupportedFileType").
Proof. split; reflexivity. Qed.

(** Where no operation on the debug file fails, the constructor run with
    and without a debug file fails with the same exception in both runs, or
    returns in both with the same groups and the same rows. *)
Lemma init_noninterference (mf : memberfile)
    (overlapfile overlapfile' : option string) :
  match init mf overlapfile, init mf overlapfile' with
  | inr c, inr c' =>
      names c = names c' ∧ heap c = heap c'
      ∧ membership_iter (names c) (heap c)
        = membership_iter (names c') (heap c')
      ∧ name_iter (names c) (heap c) = name_iter (names c') (heap c')
  | inl e, inl e' => e = e'
  | _, _ => False
  end.
Proof.
  rewrite !init_closed.
  destruct (source_rows mf) as [e|rows]; simpl; [done|].
  destruct (read_names rows) as [e|names0]; simpl; [done|].
  destruct (all_outcomes names0) as [e|R]; simpl; done.
Qed.

(** C10.  Every group keeps at least one record: the record at index 0 of
    the sorted group is never tossed and stays first, as it was.  The groups
    are those of the distinct identity keys of the input, and [name_iter]
    returns, yielding for each of them exactly one row, of that key. *)
Theorem C10_groups_never_empty (mf : memberfile) (overlapfile : option string)
    (c : constructed) (rows : list row)
    (names0 : list (namekey * list thisrec)) :
  init mf overlapfile = inr c →
  source_rows mf = inr rows →
  read_names rows = inr names0 →
  (∀ n k g0, names0 !! n = Some (k, g0) →
     ∃ first g, head (sorted g0) = Some first
                ∧ names c !! n = Some (k, first :: g))
  ∧ length (names c) = length names0
  ∧ NoDup (names c).*1
  ∧ (∀ k, k ∈ (names c).*1 ↔
          ∃ membership, membership ∈ rows ∧ row_key membership = Some k)
  ∧ ∃ h out,
      name_iter (names c) (heap c) = inr (h, out)
      ∧ length out = length (names c)
      ∧ ∀ n k g, names c !! n = Some (k, g) →
          ∃ y, out !! n = Some y ∧ row_key y.2 = Some k.
Proof.
  intros Hinit Hrows Hread.
  pose proof (constructed_keys _ _ _ _ _ Hinit Hrows Hread) as Hkeys.
  destruct (read_names_ok _ _ Hread) as (Hnd & _ & _ & Hk).
  split; [|split; [|split; [|split]]].
  - intros n k g0 Hn.
    destruct (constructed_group _ _ _ _ _ Hinit Hrows Hread _ _ _ Hn)
      as (os & Hos & Hn' & (Hne & _) & _).
    destruct (outcomes_head _ _ Hne Hos) as (f & r & os' & Hs & _ & Hsurv).
    exists f, (survivors os'). rewrite Hs, Hn', Hsurv. done.
  - rewrite <- (length_fmap fst (names c)), Hkeys. apply length_fmap.
  - by rewrite Hkeys.
  - intros k. rewrite Hkeys, Hk. split.
    + intros (i & m & _ & Hm & ?). exists m. split; [|done].
      by eapply list_elem_of_lookup_2.
    + intros (m & [i Hm]%list_elem_of_lookup_1 & ?). exists i, m.
      split; [|done]. by eapply lookup_lt_Some.
  - destruct (constructed_name_iter _ _ _ _ _ Hinit Hrows Hread)
      as (ts & _ & Hit & Hlen & _ & _ & Hy).
    eexists _, _. split; [exact Hit|]. split.
    { by rewrite length_yields. }
    intros n k g Hn. destruct (Hy _ _ _ Hn) as (l & f & Hl & _ & _ & ->).
    eexists. split; [done|]. simpl. rewrite row_key_insert_JoinDate.
    destruct (constructed_group_inv _ _ _ _ _ Hinit Hrows Hread _ _ _ Hn)
      as [g0 Hg0].
    destruct (constructed_group _ _ _ _ _ Hinit Hrows Hread _ _ _ Hg0)
      as (os & Hos & Hn' & _).
    rewrite Hn in Hn'. injection Hn' as ->.
    assert (l ∈ survivors os) as (o & [i Ho]%list_elem_of_lookup_1 & _ & ->)
      %survivors_elem_of.
    { apply last_Some in Hl as [g' ->].
      rewrite elem_of_app, list_elem_of_singleton. by right. }
    destruct (constructed_row _ _ _ _ _ Hinit Hrows Hread _ _ _ _ _ _ Hg0 Hos Ho)
      as (m & _ & _ & _ & Hkey & Hheap).
    unfold oref in Hheap. rewrite (deref_lookup _ _ _ Hheap).
    destruct (o_overlap o); by rewrite ?row_key_insert_JoinDate.
Qed.

Lemma C10_groups_never_empty_witness :
  init (mf_list roe_rows) None = inr roe_constructed
  ∧ read_names roe_rows = inr roe_names0
  ∧ length (names roe_constructed) = length roe_names0.
Proof.
  destruct (C10_groups_never_empty (mf_list roe_rows) None roe_constructed
              roe_rows roe_names0 roe_init eq_refl roe_read)
    as (_ & Hlen & _).
  split; [exact roe_init|]. split; [exact roe_read|exact Hlen].
Defined.

Lemma membership_iter_refs names heap :
  (membership_iter names heap).*1 = all_refs names.
Proof.
  unfold membership_iter, all_refs.
  induction names as [|[k g] names IH]; simpl; [done|].
  rewrite fmap_app, IH. f_equal.
  induction g as [|r g IHg]; simpl; [done|]. by f_equal.
Qed.

Lemma elem_of_membership_iter names heap r :
  r ∈ all_refs names → (r, deref heap r) ∈ membership_iter names heap.
Proof.
  unfold membership_iter, all_refs.
  rewrite !list_elem_of_In, !in_flat_map.
  intros (e & He & Hr). exists e. split; [done|].
  apply list_elem_of_In, list_elem_of_fmap in Hr as (m & -> & Hm).
  apply list_elem_of_In. by apply (list_elem_of_fmap_2 (λ m, (fullrec m, deref heap (fullrec m)))).
Qed.

Lemma repair_toss prev cur o :
  repair prev cur = inr o →
  o_toss o = true ↔ overlaps prev cur ∧ jan1_exceeds prev cur.
Proof.
  intros (_ & Hov & [(Hf & Ht & _)|(Htr & d1 & d2 & j & H1 & H2 & H3 & _ & Ht & _)])
    %repair_cases; unfold overlaps, jan1_exceeds.
  - rewrite Ht, <- Hov, Hf. split; [done|]. by intros [? _].
  - rewrite <- Hov, Htr, Ht. split.
    + intros Hgt. split; [done|]. by exists d1, d2, j.
    + intros (_ & d1' & d2' & j' & H1' & H2' & H3' & Hgt). congruence.
Qed.

(** C2.  In the group at position [n], the record [cur] at index [i] of the
    sorted group is missing from the group after construction if and only if
    [i >= 1], [cur] joins no later than the record [prev] at index [i-1]
    expires (the test of the code on the date texts, which is the calendar
    order on well-formed dates, see [wf_leb]), and January 1 of the year
    after [prev]'s expiration year is later than [cur]'s expiration date.  The full view yields exactly the records left in the groups, and
    the latest view yields none of those that were removed. *)
Theorem C2_toss_iff (mf : memberfile) (overlapfile : option string)
    (c : constructed) (rows : list row)
    (names0 : list (namekey * list thisrec)) :
  init mf overlapfile = inr c →
  source_rows mf = inr rows →
  read_names rows = inr names0 →
  ∀ n k g0, names0 !! n = Some (k, g0) →
    ∃ g, names c !! n = Some (k, g)
      ∧ ∀ i cur, sorted g0 !! i = Some cur →
          (fullrec cur ∉ map fullrec g ↔
             ∃ i' prev, i = S i' ∧ sorted g0 !! i' = Some prev
                        ∧ overlaps prev cur ∧ jan1_exceeds prev cur)
          ∧ (fullrec cur ∈ (membership_iter (names c) (heap c)).*1 ↔
             fullrec cur ∈ map fullrec g)
          ∧ (fullrec cur ∉ map fullrec g →
             ∃ h out, name_iter (names c) (heap c) = inr (h, out)
                      ∧ fullrec cur ∉ out.*1).
Proof.
  intros Hinit Hrows Hread n k g0 Hn.
  destruct (constructed_group _ _ _ _ _ Hinit Hrows Hread _ _ _ Hn)
    as (os & Hos & Hn' & _ & Hnd & Hall & _).
  exists (survivors os). split; [done|]. intros i cur Hi.
  destruct (outcomes_lookup _ _ Hos) as (Horig & _ & Hrefs & H0 & HS).
  assert (∃ o, os !! i = Some o ∧ o_orig o = cur ∧ oref o = fullrec cur)
    as (o & Ho & Hoo & Hor).
  { destruct (os !! i) as [o|] eqn:Ho.
    - destruct (outcomes_elem _ _ _ _ Hos Ho) as (Hs & Hr & _).
      rewrite Hi in Hs. injection Hs as ->. by exists o.
    - apply lookup_ge_None in Ho. apply lookup_lt_Some in Hi.
      rewrite <- Horig, length_map in Hi. lia. }
  assert (o ∈ os) as Hin by by eapply list_elem_of_lookup_2.
  pose proof (survivor_ref os o Hnd Hin) as Hsurv. rewrite Hor in Hsurv.
  pose proof (Hall o Hin) as Hglob. rewrite Hor in Hglob.
  split; [|split].
  - rewrite Hsurv. destruct i as [|i'].
    + rewrite (H0 _ Hi) in Ho. injection Ho as <-. simpl. split; [done|].
      by intros (i' & ? & ? & _).
    + destruct (lookup_lt_is_Some_2 (sorted g0) i') as [prev Hp].
      { apply lookup_lt_Some in Hi. lia. }
      destruct (HS _ _ _ Hp Hi) as (o' & Ho' & Hrep).
      rewrite Ho in Ho'. injection Ho' as <-.
      split.
      * intros Ht. exists i', prev. split; [done|]. split; [done|].
        apply (repair_toss _ _ _ Hrep). by destruct (o_toss o).
      * intros (i'' & prev' & [= <-] & Hp' & Hc).
        rewrite Hp in Hp'. injection Hp' as <-.
        apply (repair_toss _ _ _ Hrep) in Hc. congruence.
  - by rewrite membership_iter_refs, Hglob, Hsurv.
  - rewrite Hsurv, <- Hglob. intros Hnot.
    destruct (constructed_name_iter _ _ _ _ _ Hinit Hrows Hread)
      as (ts & Hts & Hit & _).
    eexists _, _. split; [exact Hit|]. rewrite yields_refs.
    intros Hel. apply Hnot. eapply elem_of_sublist; [exact Hel|].
    by apply name_targets_refs.
Qed.

Lemma C2_toss_iff_witness :
  init (mf_list roe_rows) None = inr roe_constructed
  ∧ read_names roe_rows = inr roe_names0
  ∧ ∃ g, names roe_constructed !! 0%nat = Some (("Roe", "Sam", "1975-11-02")%string, g)
         ∧ (fullrec roe_first ∉ map fullrec g ↔
              ∃ i' prev, 1%nat = S i'
                         ∧ sorted [roe_first; roe_second] !! i' = Some prev
                         ∧ overlaps prev roe_first
                         ∧ jan1_exceeds prev roe_first).
Proof.
  destruct (C2_toss_iff (mf_list roe_rows) None roe_constructed roe_rows
              roe_names0 roe_init eq_refl roe_read 0%nat _ _ eq_refl)
    as (g & Hg & Hall).
  split; [exact roe_init|]. split; [exact roe_read|].
  exists g. split; [exact Hg|].
  exact (proj1 (Hall 1%nat _ eq_refl)).
Defined.

Lemma repair_overlap prev cur o :
  repair prev cur = inr o → overlaps prev cur →
  ∃ lastexp_dt,
    ymd.asc2dt (expiration prev) = inr lastexp_dt
    ∧ valid_date (year lastexp_dt + 1) 1 1 = true
    ∧ jan1_after (expiration prev)
      = inr (format_ymd (Datetime (year lastexp_dt + 1) 1 1))
    ∧ o_overlap o = true
    ∧ o_rec o = set_join (format_ymd (Datetime (year lastexp_dt + 1) 1 1))
                  (if o_toss o then set_tossed "Y" cur else cur).
Proof.
  unfold overlaps.
  intros (_ & Hov & [(Hf & _)|(_ & d1 & d2 & j & H1 & H2 & H3 & Hy & Ht & Hr)])
    %repair_cases Hleb; [congruence|].
  apply datetime_init_inr in H3 as [Hv ->]. exists d1.
  repeat split; [done..| |congruence|done].
  unfold jan1_after. rewrite H1. simpl. unfold datetime_init. rewrite Hv.
  simpl. by apply dt2asc_inr.
Qed.



(** C4 (amended).  When the record [cur] overlaps its predecessor [prev] in
    the sorted group and is not tossed, its join date becomes the zero-padded
    text of January 1 of the year after [prev]'s expiration year, in the
    group as in the [JoinDate] of its row.  The full view, iterated on the
    constructed object, yields that row with the repaired join date; the
    latest view yields for the group the join date of the group's first
    record instead. *)
Theorem C4_overlap_repair (mf : memberfile) (overlapfile : option string)
    (c : constructed) (rows : list row)
    (names0 : list (namekey * list thisrec)) :
  init mf overlapfile = inr c →
  source_rows mf = inr rows →
  read_names rows = inr names0 →
  ∀ n k g0 i prev cur,
    names0 !! n = Some (k, g0) →
    sorted g0 !! i = Some prev → sorted g0 !! S i = Some cur →
    overlaps prev cur → ¬ jan1_exceeds prev cur →
    ∃ lastexp_dt g first,
      let jan1_asc := format_ymd (Datetime (year lastexp_dt + 1) 1 1) in
      ymd.asc2dt (expiration prev) = inr lastexp_dt
      ∧ wf_date jan1_asc = true
      ∧ names c !! n = Some (k, g)
      ∧ set_join jan1_asc cur ∈ g
      ∧ deref (heap c) (fullrec cur) !! "JoinDate" = Some jan1_asc
      ∧ (fullrec cur, deref (heap c) (fullrec cur))
          ∈ membership_iter (names c) (heap c)
      ∧ head (sorted g0) = Some first
      ∧ ∃ h out y,
          name_iter (names c) (heap c) = inr (h, out)
          ∧ out !! n = Some y
          ∧ y.2 !! "JoinDate" = Some (join first).
Proof.
  intros Hinit Hrows Hread n k g0 i prev cur Hn Hp Hc Hov Hnt.
  destruct (constructed_group _ _ _ _ _ Hinit Hrows Hread _ _ _ Hn)
    as (os & Hos & Hn' & (Hne & _) & Hnd & Hall & _).
  destruct (outcomes_lookup _ _ Hos) as (_ & _ & _ & _ & HS).
  destruct (HS _ _ _ Hp Hc) as (o & Ho & Hrep).
  destruct (repair_overlap _ _ _ Hrep Hov) as (d1 & Hd1 & Hv & _ & Hovl & Hrec).
  assert (o_toss o = false) as Ht.
  { destruct (o_toss o) eqn:Ht; [|done].
    apply (repair_toss _ _ _ Hrep) in Ht as [_ ?]. done. }
  rewrite Ht in Hrec.
  destruct (constructed_row _ _ _ _ _ Hinit Hrows Hread _ _ _ _ _ _ Hn Hos Ho)
    as (m & _ & _ & _ & _ & Hheap).
  destruct (outcomes_elem _ _ _ _ Hos Ho) as (Hs & Hr & _).
  rewrite Hc in Hs. injection Hs as Hs. rewrite <- Hs in Hr.
  rewrite Hr, Hovl, Hrec in Hheap. simpl in Hheap.
  assert (o ∈ os) as Hin by by eapply list_elem_of_lookup_2.
  destruct (outcomes_head _ _ Hne Hos) as (f & r & os' & Hsf & _ & Hsurv).
  exists d1, (survivors os), f. cbv zeta.
  split; [done|]. split; [by apply wf_date_format|]. split; [done|].
  split; [|split; [|split; [|split]]].
  - apply survivors_elem_of. exists o. by rewrite Hrec.
  - rewrite (deref_lookup _ _ _ Hheap). apply lookup_insert_eq.
  - apply elem_of_membership_iter. rewrite <- Hr. by apply Hall.
  - by rewrite Hsf.
  - destruct (constructed_name_iter _ _ _ _ _ Hinit Hrows Hread)
      as (ts & _ & Hit & _ & _ & _ & Hy).
    destruct (Hy _ _ _ Hn') as (l & f' & _ & Hf' & _ & Hyn).
    rewrite Hsurv in Hf'. injection Hf' as <-.
    eexists _, _, _. split; [exact Hit|]. split; [exact Hyn|].
    apply lookup_insert_eq.
Qed.

Lemma C4_overlap_repair_witness :
  init (mf_list doe_rows) None = inr doe_constructed
  ∧ read_names doe_rows = inr doe_names0
  ∧ ∃ lastexp_dt g first,
      ymd.asc2dt "2021-06-30" = inr lastexp_dt
      ∧ names doe_constructed !! 0%nat
        = Some (("Doe", "Jane", "1980-05-17")%string, g)
      ∧ deref (heap doe_constructed) 1%nat !! "JoinDate"
        = Some (format_ymd (Datetime (year lastexp_dt + 1) 1 1))
      ∧ head (sorted [doe_first; doe_second]) = Some first.
Proof.
  split; [exact doe_init|]. split; [exact doe_read|].
  destruct (C4_overlap_repair (mf_list doe_rows) None doe_constructed
              doe_rows doe_names0 doe_init eq_refl doe_read 0%nat _ _ 0%nat
              _ _ eq_refl eq_refl eq_refl eq_refl)
    as (d1 & g & f & Hd1 & _ & Hg & _ & Hj & _ & Hf & _).
  { intros (a & b & j & Ha & Hb & Hj & Hgt). vm_compute in Ha, Hb.
    injection Ha as <-. injection Hb as <-. vm_compute in Hj.
    injection Hj as <-. discriminate. }
  exists d1, g, f. split; [exact Hd1|]. split; [exact Hg|].
  split; [exact Hj|exact Hf].
Defined.

(** C4, as stated, fails on the first sample roster: the second record
    overlaps the first and is kept with the join date 2022-01-01, which its
    row carries, but the latest view yields that row with the join date
    2020-01-01. *)
Lemma C4_counterexample :
  init (mf_list doe_rows) None = inr doe_constructed
  ∧ map (λ r, (fullrec r, join r)) <$> (snd <$> names doe_constructed)
    = [[(0%nat, "2020-01-01"); (1%nat, "2022-01-01")]]%string
  ∧ join_dates (membership_iter (names doe_constructed) (heap doe_constructed))
    = [(0%nat, Some "2020-01-01"); (1%nat, Some "2022-01-01")]%string
  ∧ ∃ h out,
      name_iter (names doe_constructed) (heap doe_constructed) = inr (h, out)
      ∧ join_dates out = [(1%nat, Some "2020-01-01"%string)]
      ∧ ¬ ∃ y, y ∈ out ∧ y.2 !! "JoinDate" = Some "2022-01-01"%string.
Proof.
  split; [exact doe_init|]. split; [reflexivity|]. split; [reflexivity|].
  eexists _, _. split; [reflexivity|]. split; [reflexivity|].
  intros (y & ->%list_elem_of_singleton & Hy). discriminate.
Qed.

(** ** Order of the surviving records *)

Lemma dt_leb_trans a b c :
  dt_leb a b = true → dt_leb b c = true → dt_leb a c = true.
Proof.
  unfold dt_leb, dt_gtb, dt_compare.
  repeat match goal with
         | |- context [?x ?= ?y] => destruct (Z.compare_spec x y)
         end; simpl; try done; lia.
Qed.

Lemma dt_leb_ltb_trans a b c :
  dt_leb a b = true → dt_ltb b c = true → dt_ltb a c = true.
Proof.
  unfold dt_leb, dt_ltb, dt_gtb, dt_compare.
  repeat match goal with
         | |- context [?x ?= ?y] => destruct (Z.compare_spec x y)
         end; simpl; try done; lia.
Qed.

Lemma dt_ltb_leb a b : dt_ltb a b = negb (dt_leb b a).
Proof. unfold dt_ltb, dt_leb. by rewrite negb_involutive. Qed.

Lemma dt_ltb_jan1 dt :
  dt_ltb dt (Datetime (year dt + 1) 1 1) = true.
Proof.
  unfold dt_ltb, dt_gtb, dt_compare. simpl.
  destruct (Z.compare_spec (year dt + 1) (year dt)); try done; lia.
Qed.

Lemma date_of_asc2dt s dt : ymd.asc2dt s = inr dt → date_of s = dt.
Proof. unfold date_of. by intros ->. Qed.


Lemma stable_lt_expiration a b :
  stable_lt a b → str_le (expiration a) (expiration b).
Proof.
  unfold stable_lt, key_compare, str_le, String.leb.
  destruct (String.compare (expiration a) (expiration b)); try done.
  intros [?|[? _]]; done.
Qed.

Lemma StronglySorted_expiration l :
  StronglySorted stable_lt l → StronglySorted str_le (map expiration l).
Proof.
  induction 1 as [|x l Hl IH Hx]; simpl; constructor; [done|].
  rewrite Forall_fmap. eapply Forall_impl; [exact Hx|].
  intros y. apply stable_lt_expiration.
Qed.

Lemma StronglySorted_lookup {A} (R : relation A) l i j x y :
  StronglySorted R l → (i < j)%nat → l !! i = Some x → l !! j = Some y →
  R x y.
Proof.
  intros Hl. revert i j. induction Hl as [|z l Hl IH Hz]; intros i j Hij.
  { by rewrite lookup_nil. }
  destruct j as [|j]; [lia|]. destruct i as [|i]; simpl.
  - intros [= ->] Hy. rewrite Forall_forall in Hz. apply Hz.
    by eapply list_elem_of_lookup_2.
  - apply IH. lia.
Qed.

Lemma survivors_Forall (P : thisrec → Prop) os :
  Forall (λ o, P (o_rec o)) os → Forall P (survivors os).
Proof.
  intros H. rewrite Forall_forall in H. apply Forall_forall.
  intros r (o & Ho & _ & ->)%survivors_elem_of. by apply H.
Qed.

(** Every record after [prev] ends up joining after the date [q], when [q]
    is no later than the expiration of [prev]. *)
Lemma repaired_after rest :
  ∀ prev os q,
    repaired prev rest = inr os →
    wf_date q = true → wf_date (expiration prev) = true →
    Forall (λ r, wf_rec r = true) rest →
    date_leb q (expiration prev) = true →
    StronglySorted str_le (expiration prev :: map expiration rest) →
    Forall (λ o, wf_date (join (o_rec o)) = true
                 ∧ date_ltb q (join (o_rec o)) = true) os.
Proof.
  induction rest as [|cur rest IH]; intros prev os q; simpl.
  { intros [= <-]. constructor. }
  intros (o & Ho & (os' & Hos & [= <-])%bind_inr)%bind_inr Hq Hp Hwf Hle Hs.
  apply Forall_cons in Hwf as [[Hj He]%andb_prop Hwf].
  apply StronglySorted_inv in Hs as [Hs Hhd].
  apply Forall_cons in Hhd as [Hpc _]. unfold str_le in Hpc.
  rewrite wf_leb in Hpc by done.
  destruct (repair_same _ _ _ Ho) as (_ & Hexp & _).
  constructor.
  - destruct (repair_cases _ _ _ Ho)
      as (_ & Hov & [(Hf & _ & ->)|(_ & d1 & d2 & j & H1 & _ & H3 & _ & _ & ->)]).
    + split; [done|]. rewrite Hf in Hov. symmetry in Hov.
      rewrite wf_leb in Hov by done. unfold date_leb, date_ltb in *.
      eapply dt_leb_ltb_trans; [exact Hle|].
      by rewrite dt_ltb_leb, Hov.
    + apply datetime_init_inr in H3 as [Hv ->]. simpl.
      destruct (wf_date_format (Datetime (year d1 + 1) 1 1) Hv) as [Hw Hd].
      split; [done|]. unfold date_ltb, date_leb in *. rewrite Hd.
      eapply dt_leb_ltb_trans; [exact Hle|].
      rewrite (date_of_asc2dt _ _ H1). apply dt_ltb_jan1.
  - apply (IH (o_rec o)); rewrite ?Hexp; try done.
    unfold date_leb in *. by eapply dt_leb_trans.
Qed.

Lemma date_leb_refl s : date_leb s s = true.
Proof.
  unfold date_leb, dt_leb, dt_gtb, dt_compare.
  by rewrite !Z.compare_refl.
Qed.

Lemma repaired_non_overlap rest :
  ∀ prev os,
    repaired prev rest = inr os →
    wf_date (expiration prev) = true →
    Forall (λ r, wf_rec r = true) rest →
    StronglySorted str_le (expiration prev :: map expiration rest) →
    StronglySorted joins_after (survivors os)
    ∧ Forall (λ o, joins_after prev (o_rec o)) os.
Proof.
  induction rest as [|cur rest IH]; intros prev os; simpl.
  { intros [= <-]. split; constructor. }
  intros Hrep Hp Hwf Hs. split.
  2:{ eapply Forall_impl;
        [apply (repaired_after (cur :: rest) prev os (expiration prev));
         try done; apply date_leb_refl|].
      intros o [? ?]. by split. }
  apply bind_inr in Hrep as (o & Ho & (os' & Hos & [= <-])%bind_inr).
  apply Forall_cons in Hwf as [[Hj He]%andb_prop Hwf].
  apply StronglySorted_inv in Hs as [Hs _].
  destruct (repair_same _ _ _ Ho) as (_ & Hexp & _).
  destruct (IH (o_rec o) os') as [IH1 IH2]; rewrite ?Hexp; try done.
  rewrite survivors_cons. destruct (o_toss o); simpl; [done|].
  constructor; [done|]. by apply survivors_Forall.
Qed.

Lemma group_wf rows n k g :
  forallb wf_row rows = true → group_ok rows n k g →
  Forall (λ r, wf_rec r = true) g.
Proof.
  intros Hwf (_ & _ & Hg). eapply Forall_impl; [exact Hg|].
  intros r (_ & m & Hm & Hj & He & _).
  rewrite forallb_forall in Hwf.
  specialize (Hwf m). unfold wf_row in Hwf. rewrite Hj, He in Hwf.
  apply Hwf. apply list_elem_of_In. by eapply list_elem_of_lookup_2.
Qed.

Lemma outcomes_repaired g os :
  g ≠ [] → outcomes (sorted g) = inr os →
  ∃ first rest os',
    sorted g = first :: rest ∧ os = untouched first :: os'
    ∧ repaired first rest = inr os'.
Proof.
  intros Hg. unfold outcomes.
  destruct (sorted g) as [|first rest] eqn:Hs.
  { by apply sorted_nil_inv in Hs. }
  intros (os' & Hos & [= <-])%bind_inr. by exists first, rest, os'.
Qed.

(** C1.  On a roster whose join and expiration dates are zero-padded
    YYYY-MM-DD texts of calendar dates, after construction every record of a
    group joins, as a calendar date, after the record before it in the group
    expires. *)
Theorem C1_non_overlap (mf : memberfile) (overlapfile : option string)
    (c : constructed) (rows : list row) :
  init mf overlapfile = inr c →
  source_rows mf = inr rows →
  forallb wf_row rows = true →
  ∀ k g i prev cur,
    (k, g) ∈ names c → g !! i = Some prev → g !! S i = Some cur →
    wf_date (expiration prev) = true ∧ wf_date (join cur) = true
    ∧ date_ltb (expiration prev) (join cur) = true.
Proof.
  intros Hinit Hrows Hwf k g i prev cur [n Hn]%list_elem_of_lookup_1 Hp Hc.
  destruct (init_inr _ _ _ Hinit) as (rows' & names0 & R & Hr & Hread & _).
  rewrite Hrows in Hr. injection Hr as <-.
  destruct (constructed_group_inv _ _ _ _ _ Hinit Hrows Hread _ _ _ Hn)
    as [g0 Hg0].
  destruct (constructed_group _ _ _ _ _ Hinit Hrows Hread _ _ _ Hg0)
    as (os & Hos & Hn' & Hok & _).
  rewrite Hn in Hn'. injection Hn' as ->.
  pose proof (group_wf _ _ _ _ Hwf Hok) as Hwfg.
  destruct Hok as (Hne & Hsorted & _).
  destruct (outcomes_repaired _ _ Hne Hos) as (f & rest & os' & Hs & -> & Hrep).
  pose proof (sorted_stable _ Hsorted) as Hst.
  rewrite <- (sorted_perm g0), Hs in Hwfg.
  apply Forall_cons in Hwfg as [[_ Hfe]%andb_prop Hwfr].
  rewrite Hs in Hst. apply StronglySorted_expiration in Hst.
  destruct (repaired_non_overlap _ _ _ Hrep Hfe Hwfr Hst) as [H1 H2].
  assert (StronglySorted joins_after (survivors (untouched f :: os'))) as HS.
  { rewrite survivors_cons. simpl. constructor; [done|].
    by apply survivors_Forall. }
  apply (StronglySorted_lookup joins_after _ i (S i) prev cur HS); [lia|done..].
Qed.

Lemma C1_non_overlap_witness :
  init (mf_list doe_rows) None = inr doe_constructed
  ∧ forallb wf_row doe_rows = true
  ∧ date_ltb "2021-06-30" "2022-01-01" = true.
Proof.
  split; [exact doe_init|]. split; [exact doe_wf|].
  pose proof (C1_non_overlap (mf_list doe_rows) None doe_constructed doe_rows
                doe_init eq_refl doe_wf) as H.
  destruct (H _ _ 0%nat _ _ (list_elem_of_here _ _) eq_refl eq_refl)
    as (_ & _ & Hlt).
  exact Hlt.
Defined.

Lemma str_le_lt_trans a b c :
  str_le a b → String.compare b c = Lt → String.compare a c = Lt.
Proof.
  unfold str_le, String.leb.
  destruct (String.compare a b) eqn:Hab; try done; intros _ Hbc.
  - apply string_compare_eq in Hab. by subst.
  - eauto using string_compare_lt_trans.
Qed.

Lemma str_le_refl a : str_le a a.
Proof. unfold str_le, String.leb. by rewrite string_compare_refl. Qed.

Lemma stable_lt_fields a b a' b' :
  expiration a = expiration a' → join a = join a' → fullrec a = fullrec a' →
  expiration b = expiration b' → join b = join b' → fullrec b = fullrec b' →
  stable_lt a b → stable_lt a' b'.
Proof.
  unfold stable_lt. intros He Hj Hf He' Hj' Hf'.
  rewrite (key_compare_fields a b a' b'), Hf, Hf' by done. tauto.
Qed.

(** A record that is kept and expires on the same day as its predecessor
    did not overlap it. *)
Lemma repair_kept_same_expiration prev cur o :
  repair prev cur = inr o → expiration prev = expiration cur →
  o_toss o = false →
  o_rec o = cur ∧ String.compare (expiration prev) (join cur) = Lt.
Proof.
  intros (_ & Hov & [(Hf & _ & ->)|(_ & d1 & d2 & j & H1 & H2 & H3 & _ & Ht & _)])
    %repair_cases Hexp Hkept.
  - split; [done|]. rewrite Hf in Hov. symmetry in Hov.
    unfold String.leb in Hov. apply string_compare_gt.
    by destruct (String.compare (join cur) (expiration prev)).
  - rewrite Hexp, H2 in H1. injection H1 as <-.
    apply datetime_init_inr in H3 as [_ ->].
    pose proof (dt_ltb_jan1 d2) as Hlt. unfold dt_ltb in Hlt. congruence.
Qed.

Lemma repaired_stable_after rest :
  ∀ prev os p0 pf,
    repaired prev rest = inr os →
    expiration pf = expiration p0 → fullrec pf = fullrec p0 →
    join pf = join p0 ∨ str_le (join pf) (expiration p0) →
    Forall (stable_lt p0) rest →
    str_le (expiration p0) (expiration prev) →
    StronglySorted str_le (expiration prev :: map expiration rest) →
    Forall (stable_lt pf) (survivors os).
Proof.
  induction rest as [|cur rest IH]; intros prev os p0 pf; simpl.
  { intros [= <-]. constructor. }
  intros (o & Ho & (os' & Hos & [= <-])%bind_inr)%bind_inr He Hf Hj Hall Hle Hs.
  apply Forall_cons in Hall as [Hcur Hall].
  apply StronglySorted_inv in Hs as [Hs Hhd].
  apply Forall_cons in Hhd as [Hpc _].
  destruct (repair_same _ _ _ Ho) as (_ & Hexp & Hfr).
  pose proof (stable_lt_expiration _ _ Hcur) as Hp0c.
  rewrite survivors_cons. apply Forall_app. split.
  2:{ apply (IH (o_rec o) os' p0); rewrite ?Hexp; done. }
  destruct (o_toss o) eqn:Ht; [constructor|]. apply Forall_singleton.
  destruct (String.compare (expiration p0) (expiration cur)) eqn:Hc.
  - apply string_compare_eq in Hc.
    assert (expiration prev = expiration cur) as Hpe.
    { apply String.leb_antisym; [done|]. by rewrite <- Hc. }
    destruct (repair_kept_same_expiration _ _ _ Ho Hpe Ht) as [-> Hlt].
    destruct Hj as [Hj|Hj].
    + by apply (stable_lt_fields p0 cur).
    + left. unfold key_compare. rewrite He, Hc, string_compare_refl.
      eapply str_le_lt_trans; [exact Hj|]. by rewrite Hc, <- Hpe.
  - left. unfold key_compare. by rewrite He, Hexp, Hc.
  - unfold str_le, String.leb in Hp0c. by rewrite Hc in Hp0c.
Qed.

Lemma repaired_stable rest :
  ∀ prev os,
    repaired prev rest = inr os →
    Forall (λ r, wf_rec r = true) rest →
    StronglySorted stable_lt rest →
    StronglySorted str_le (expiration prev :: map expiration rest) →
    StronglySorted stable_lt (survivors os).
Proof.
  induction rest as [|cur rest IH]; intros prev os; simpl.
  { intros [= <-]. constructor. }
  intros (o & Ho & (os' & Hos & [= <-])%bind_inr)%bind_inr Hwf Hst Hs.
  apply Forall_cons in Hwf as [[Hj He]%andb_prop Hwf].
  apply StronglySorted_inv in Hst as [Hst Hcur].
  apply StronglySorted_inv in Hs as [Hs _].
  destruct (repair_same _ _ _ Ho) as (_ & Hexp & Hfr).
  assert (StronglySorted stable_lt (survivors os')) as IH'.
  { apply (IH (o_rec o)); rewrite ?Hexp; done. }
  rewrite survivors_cons. destruct (o_toss o) eqn:Ht; simpl; [done|].
  constructor; [done|].
  apply (repaired_stable_after rest (o_rec o) os' cur); rewrite ?Hexp;
    try done; [|apply str_le_refl].
  destruct (repair_cases _ _ _ Ho)
    as (_ & _ & [(_ & _ & ->)|(_ & d1 & d2 & j & H1 & H2 & H3 & _ & Hgt & ->)]);
    [by left|].
  right. rewrite Ht in *. simpl.
  apply datetime_init_inr in H3 as [Hv ->].
  destruct (wf_date_format (Datetime (year d1 + 1) 1 1) Hv) as [Hw Hd].
  unfold str_le. rewrite wf_leb by done. unfold date_leb, dt_leb.
  by rewrite Hd, (date_of_asc2dt _ _ H2), <- Hgt.
Qed.

Lemma repaired_wf rest :
  ∀ prev os,
    repaired prev rest = inr os →
    Forall (λ r, wf_rec r = true) rest →
    Forall (λ o, wf_rec (o_rec o) = true) os.
Proof.
  induction rest as [|cur rest IH]; intros prev os; simpl.
  { intros [= <-]. constructor. }
  intros (o & Ho & (os' & Hos & [= <-])%bind_inr)%bind_inr Hwf.
  apply Forall_cons in Hwf as [Hcur Hwf].
  constructor; [|by eapply IH].
  destruct (repair_cases _ _ _ Ho)
    as (_ & _ & [(_ & _ & ->)|(_ & d1 & d2 & j & _ & _ & H3 & _ & _ & ->)]);
    [done|].
  apply datetime_init_inr in H3 as [Hv ->].
  destruct (wf_date_format (Datetime (year d1 + 1) 1 1) Hv) as [Hw _].
  apply andb_prop in Hcur as [_ He]. unfold wf_rec.
  destruct (o_toss o); simpl; by rewrite Hw, He.
Qed.

(** C6 (amended).  On a roster of well-formed dates, after construction the
    records of every group are well formed and in ascending order of the
    pair (expiration date, join date), as calendar dates: of two records of
    a group the earlier one expires before the later one, or they expire on
    the same date and the earlier one joins before the later one, or both
    dates are the same and the earlier one came first in the input. *)
Theorem C6_groups_sorted_stable (mf : memberfile)
    (overlapfile : option string) (c : constructed) (rows : list row) :
  init mf overlapfile = inr c →
  source_rows mf = inr rows →
  forallb wf_row rows = true →
  ∀ k g i j a b,
    (k, g) ∈ names c → (i < j)%nat → g !! i = Some a → g !! j = Some b →
    wf_rec a = true ∧ wf_rec b = true
    ∧ (date_ltb (expiration a) (expiration b) = true
       ∨ (expiration a = expiration b
          ∧ date_ltb (join a) (join b) = true)
       ∨ (expiration a = expiration b ∧ join a = join b
          ∧ (fullrec a < fullrec b)%nat)).
Proof.
  intros Hinit Hrows Hwf k g i j a b [n Hn]%list_elem_of_lookup_1 Hij Ha Hb.
  destruct (init_inr _ _ _ Hinit) as (rows' & names0 & R & Hr & Hread & _).
  rewrite Hrows in Hr. injection Hr as <-.
  destruct (constructed_group_inv _ _ _ _ _ Hinit Hrows Hread _ _ _ Hn)
    as [g0 Hg0].
  destruct (constructed_group _ _ _ _ _ Hinit Hrows Hread _ _ _ Hg0)
    as (os & Hos & Hn' & Hok & _).
  rewrite Hn in Hn'. injection Hn' as ->.
  pose proof (group_wf _ _ _ _ Hwf Hok) as Hwfg.
  destruct Hok as (Hne & Hsorted & _).
  destruct (outcomes_repaired _ _ Hne Hos) as (f & rest & os' & Hs & -> & Hrep).
  pose proof (sorted_stable _ Hsorted) as Hst.
  rewrite <- (sorted_perm g0), Hs in Hwfg.
  apply Forall_cons in Hwfg as [Hwff Hwfr].
  rewrite Hs in Hst. pose proof (StronglySorted_expiration _ Hst) as Hse.
  apply StronglySorted_inv in Hst as [Hst Hf].
  assert (StronglySorted stable_lt (survivors (untouched f :: os'))) as HS.
  { rewrite survivors_cons. simpl. constructor.
    - by apply (repaired_stable rest f).
    - apply (repaired_stable_after rest f os' f f); try done; [by left|].
      apply str_le_refl. }
  assert (Forall (λ r, wf_rec r = true) (survivors (untouched f :: os')))
    as HW.
  { rewrite survivors_cons. simpl. constructor; [done|].
    apply survivors_Forall. by apply (repaired_wf rest f). }
  rewrite Forall_forall in HW.
  assert (wf_rec a = true) as Hwa by (by eapply HW, list_elem_of_lookup_2).
  assert (wf_rec b = true) as Hwb by (by eapply HW, list_elem_of_lookup_2).
  split; [done|]. split; [done|].
  apply andb_prop in Hwa as [Hja Hea]. apply andb_prop in Hwb as [Hjb Heb].
  pose proof (wf_ltb _ _ Hea Heb) as Hel. pose proof (wf_ltb _ _ Hja Hjb) as Hjl.
  unfold String.ltb in Hel, Hjl.
  destruct (StronglySorted_lookup stable_lt _ i j a b HS Hij Ha Hb)
    as [Hlt|[Heq Hfr]].
  - unfold key_compare in Hlt.
    destruct (String.compare (expiration a) (expiration b)) eqn:Hc;
      [|by left|done].
    right. left. apply string_compare_eq in Hc. split; [done|].
    by rewrite Hlt in Hjl.
  - apply key_compare_eq in Heq as [He Hj]. right. right. done.
Qed.

Lemma moe_init : init (mf_list moe_rows) None = inr moe_constructed.
Proof. reflexivity. Qed.

Lemma C6_groups_sorted_stable_witness :
  init (mf_list doe_rows) None = inr doe_constructed
  ∧ forallb wf_row doe_rows = true
  ∧ date_ltb (expiration doe_first) "2022-06-30" = true.
Proof.
  split; [exact doe_init|]. split; [exact doe_wf|].
  destruct (C6_groups_sorted_stable (mf_list doe_rows) None doe_constructed
              doe_rows doe_init eq_refl doe_wf _ _ 0%nat 1%nat _ _
              (list_elem_of_here _ _) (Nat.lt_0_succ 0) eq_refl eq_refl)
    as (_ & _ & [H|[[H _]|[H _]]]); [exact H|discriminate H..].
Defined.

(** C6, as stated, fails on a roster whose dates [strptime] accepts but that
    are not zero-padded.  The constructor returns with one group of four
    records.  The second expires on 2021-9-30, before the first, which
    expires on 2021-12-31: the sort compares the texts.  The third and the
    fourth expire on the same date, and the third, whose join date the
    overlap loop has set to 2022-01-01, comes before the fourth, whose join
    date is the lesser text. *)
Lemma C6_counterexample :
  init (mf_list moe_rows) None = inr moe_constructed
  ∧ names moe_constructed = [(("Moe", "Kim", "1970-01-01")%string, moe_group)]
  ∧ map expiration moe_group
    = ["2021-12-31"; "2021-9-30"; "2022-01- 5"; "2022-01- 5"]%string
  ∧ map join moe_group
    = ["2021-01-01"; "2021-9-1"; "2022-01-01"; "2022-01- 6"]%string
  ∧ ymd.asc2dt "2021-12-31" = inr (Datetime 2021 12 31)
  ∧ ymd.asc2dt "2021-9-30" = inr (Datetime 2021 9 30)
  ∧ date_ltb "2021-9-30" "2021-12-31" = true
  ∧ String.ltb "2022-01- 6" "2022-01-01" = true.
Proof.
  split; [exact moe_init|]. repeat split.
Qed.

Lemma dt_leb_ltb_leb a b c :
  dt_leb a b = true → dt_ltb b c = true → dt_leb a c = true.
Proof.
  unfold dt_leb, dt_ltb, dt_gtb, dt_compare.
  repeat match goal with
         | |- context [?x ?= ?y] => destruct (Z.compare_spec x y)
         end; simpl; try done; lia.
Qed.

(** C3.  What [name_iter] does.  It returns and yields, for the group at
    position [n], the row of the group's last record: every field but
    [JoinDate] as construction left it, and [JoinDate] set to the join date
    of the group's first record, [self.names[thisname][0]['join']].  On a
    roster of well-formed dates that join date is the earliest join date of
    the group, as the docstring of [name_iter] has it, only as far as the
    first record does not join after it expires; [C3_counterexample] is a
    roster on which it is not the earliest. *)
Theorem C3_latest_view (mf : memberfile) (overlapfile : option string)
    (c : constructed) (rows : list row) :
  init mf overlapfile = inr c →
  source_rows mf = inr rows →
  forallb wf_row rows = true →
  ∃ h out,
    name_iter (names c) (heap c) = inr (h, out)
    ∧ ∀ n k g, names c !! n = Some (k, g) →
        ∃ firstrec lastrec membership,
          head g = Some firstrec ∧ last g = Some lastrec
          ∧ out !! n = Some (fullrec lastrec, membership)
          ∧ (∀ field, field ≠ "JoinDate"%string →
               membership !! field
               = deref (heap c) (fullrec lastrec) !! field)
          ∧ membership !! "JoinDate" = Some (join firstrec)
          ∧ (date_leb (join firstrec) (expiration firstrec) = true →
             ∀ r, r ∈ g → date_leb (join firstrec) (join r) = true).
Proof.
  intros Hinit Hrows Hwf.
  destruct (init_inr _ _ _ Hinit) as (rows' & names0 & R & Hr & Hread & _).
  rewrite Hrows in Hr. injection Hr as <-.
  destruct (constructed_name_iter _ _ _ _ _ Hinit Hrows Hread)
    as (ts & _ & Hit & _ & _ & _ & Hy).
  eexists _, _. split; [exact Hit|]. intros n k g Hn.
  destruct (Hy _ _ _ Hn) as (l & f & Hl & Hf & _ & Hyn).
  exists f, l. eexists. split; [done|]. split; [done|]. split; [exact Hyn|].
  split; [|split].
  - intros field Hfield. by rewrite lookup_insert_ne.
  - apply lookup_insert_eq.
  - intros Hfe r Hr.
    destruct (constructed_group_inv _ _ _ _ _ Hinit Hrows Hread _ _ _ Hn)
      as [g0 Hg0].
    destruct (constructed_group _ _ _ _ _ Hinit Hrows Hread _ _ _ Hg0)
      as (os & Hos & Hn' & Hok & _).
    rewrite Hn in Hn'. injection Hn' as ->.
    pose proof (group_wf _ _ _ _ Hwf Hok) as Hwfg.
    destruct Hok as (Hne & Hsorted & _).
    destruct (outcomes_repaired _ _ Hne Hos)
      as (f' & rest & os' & Hs & -> & Hrep).
    rewrite survivors_cons in Hf, Hr. simpl in Hf, Hr. injection Hf as ->.
    apply elem_of_cons in Hr as [->|Hr]; [apply date_leb_refl|].
    pose proof (sorted_stable _ Hsorted) as Hst.
    rewrite <- (sorted_perm g0), Hs in Hwfg.
    apply Forall_cons in Hwfg as [[_ Hfex]%andb_prop Hwfr].
    rewrite Hs in Hst. apply StronglySorted_expiration in Hst.
    destruct (repaired_non_overlap _ _ _ Hrep Hfex Hwfr Hst) as [_ H2].
    apply survivors_Forall in H2. rewrite Forall_forall in H2.
    destruct (H2 _ Hr) as (_ & _ & Hlt).
    unfold date_leb, date_ltb in *. by eapply dt_leb_ltb_leb.
Qed.

Lemma C3_latest_view_witness :
  init (mf_list doe_rows) None = inr doe_constructed
  ∧ forallb wf_row doe_rows = true
  ∧ ∃ h out,
      name_iter (names doe_constructed) (heap doe_constructed) = inr (h, out)
      ∧ ∃ firstrec lastrec membership,
          out !! 0%nat = Some (fullrec lastrec, membership)
          ∧ membership !! "JoinDate" = Some (join firstrec).
Proof.
  split; [exact doe_init|]. split; [exact doe_wf|].
  destruct (C3_latest_view (mf_list doe_rows) None doe_constructed doe_rows
              doe_init eq_refl doe_wf) as (h & out & Hit & Hall).
  exists h, out. split; [exact Hit|].
  destruct (Hall 0%nat _ _ eq_refl) as (f & l & m & _ & _ & Hout & _ & Hj & _).
  by exists f, l, m.
Defined.

(** C3: where the code departs from the claim and from the docstring of
    [name_iter].  On the third sample roster both records survive, with the
    join dates 2025-01-01 and 2021-06-01, and the latest view yields the join
    date 2025-01-01, which is not the earliest of the two. *)
Lemma C3_counterexample :
  init (mf_list poe_rows) None = inr poe_constructed
  ∧ map (λ r, (fullrec r, join r)) <$> (snd <$> names poe_constructed)
    = [[(0%nat, "2025-01-01"); (1%nat, "2021-06-01")]]%string
  ∧ (∃ h out,
       name_iter (names poe_constructed) (heap poe_constructed) = inr (h, out)
       ∧ join_dates out = [(1%nat, Some "2025-01-01"%string)])
  ∧ date_ltb "2021-06-01" "2025-01-01" = true.
Proof.
  split; [exact poe_init|]. split; [reflexivity|]. split; [|reflexivity].
  eexists _, _. split; reflexivity.
Qed.

Lemma apply_writes_field heap ts r field :
  field ≠ "JoinDate"%string →
  deref (apply_writes heap ts) r !! field = deref heap r !! field.
Proof.
  intros Hfield. revert heap.
  induction ts as [|[r' v] ts IH]; intros heap; [done|].
  change (apply_writes heap ((r', v) :: ts))
    with (apply_writes (alter (<["JoinDate" := v]>) r' heap) ts).
  rewrite IH. unfold deref. simpl.
  destruct (decide (r' = r)) as [->|Hne].
  - destruct (heap !! r) as [m|] eqn:Hm.
    + rewrite (list_lookup_total_correct _ _ _ Hm).
      erewrite list_lookup_total_correct;
        [|by rewrite list_lookup_alter_eq, Hm].
      by rewrite lookup_insert_ne.
    + by rewrite !list_lookup_total_alt, list_lookup_alter_eq, Hm.
  - by rewrite list_lookup_total_alter_ne.
Qed.

(** C5 (amended).  [membership_iter] only reads.  [name_iter] returns and
    leaves the groups as they are, but it writes to rows: in the row of the
    last record of every group it sets [JoinDate] to the join date of the
    group's first record; no other field and no other row changes.  A second
    iteration of [name_iter] yields the same sequence and changes nothing
    more. *)
Theorem C5_views_frame (mf : memberfile) (overlapfile : option string)
    (c : constructed) (rows : list row) :
  init mf overlapfile = inr c →
  source_rows mf = inr rows →
  ∃ h out,
    name_iter (names c) (heap c) = inr (h, out)
    ∧ name_iter (names c) h = inr (h, out)
    ∧ length h = length (heap c)
    ∧ (∀ r field, field ≠ "JoinDate"%string →
         deref h r !! field = deref (heap c) r !! field)
    ∧ (∀ r, (∀ k g lastrec, (k, g) ∈ names c → last g = Some lastrec →
               fullrec lastrec ≠ r) →
         h !! r = heap c !! r)
    ∧ ∀ k g firstrec lastrec,
        (k, g) ∈ names c → head g = Some firstrec → last g = Some lastrec →
        deref h (fullrec lastrec) !! "JoinDate" = Some (join firstrec).
Proof.
  intros Hinit Hrows.
  destruct (init_inr _ _ _ Hinit) as (rows' & names0 & R & Hr & Hread & _).
  rewrite Hrows in Hr. injection Hr as <-.
  destruct (constructed_name_iter _ _ _ _ _ Hinit Hrows Hread)
    as (ts & Hts & Hit & Hlen & Hnd & Hlt & Hy).
  eexists _, _. split; [exact Hit|]. split; [|split; [|split; [|split]]].
  - unfold name_iter. rewrite name_iter_closed, Hts. simpl.
    by rewrite apply_writes_idem, yields_idem.
  - apply length_apply_writes.
  - intros r field Hfield. by apply apply_writes_field.
  - intros r Hr. apply apply_writes_ne.
    intros ([r' v] & -> & [n Hn]%list_elem_of_lookup_1)%list_elem_of_fmap.
    destruct (lookup_lt_is_Some_2 (names c) n) as [[k g] Hg].
    { rewrite <- Hlen. by eapply lookup_lt_Some. }
    destruct (Hy _ _ _ Hg) as (l & f & Hl & _ & Hn' & _).
    rewrite Hn in Hn'. injection Hn' as -> _.
    apply (Hr k g l); [by eapply list_elem_of_lookup_2|done..].
  - intros k g f l [n Hg]%list_elem_of_lookup_1 Hf Hl.
    destruct (Hy _ _ _ Hg) as (l' & f' & Hl' & Hf' & Hn & _).
    rewrite Hl in Hl'. injection Hl' as <-.
    rewrite Hf in Hf'. injection Hf' as <-.
    rewrite (apply_writes_deref _ _ _ (join f)); [apply lookup_insert_eq|done| |].
    + by eapply list_elem_of_lookup_2.
    + rewrite Forall_forall in Hlt. apply (Hlt (fullrec l, join f)).
      by eapply list_elem_of_lookup_2.
Qed.

Lemma C5_views_frame_witness :
  init (mf_list doe_rows) None = inr doe_constructed
  ∧ ∃ h out,
      name_iter (names doe_constructed) (heap doe_constructed) = inr (h, out)
      ∧ name_iter (names doe_constructed) h = inr (h, out).
Proof.
  split; [exact doe_init|].
  destruct (C5_views_frame (mf_list doe_rows) None doe_constructed doe_rows
              doe_init eq_refl) as (h & out & H1 & H2 & _).
  by exists h, out.
Defined.

(** C5, as stated, fails on the first sample roster: the full view yields
    the second row with the join date 2022-01-01 before the latest view is
    iterated and with the join date 2020-01-01 after. *)
Lemma C5_counterexample :
  init (mf_list doe_rows) None = inr doe_constructed
  ∧ ∃ out,
      name_iter (names doe_constructed) (heap doe_constructed)
      = inr (doe_heap_latest, out)
      ∧ join_dates
          (membership_iter (names doe_constructed) (heap doe_constructed))
        = [(0%nat, Some "2020-01-01"); (1%nat, Some "2022-01-01")]%string
      ∧ join_dates (membership_iter (names doe_constructed) doe_heap_latest)
        = [(0%nat, Some "2020-01-01"); (1%nat, Some "2020-01-01")]%string
      ∧ membership_iter (names doe_constructed) doe_heap_latest
        ≠ membership_iter (names doe_constructed) (heap doe_constructed).
Proof.
  split; [exact doe_init|]. eexists. split; [reflexivity|].
  split; [reflexivity|]. split; [reflexivity|].
  intros H. apply (f_equal join_dates) in H. discriminate.
Qed.


(** * Further properties of the constructor *)

(** ** Missing columns *)

Lemma read_membership_missing names ref membership col :
  first_missing membership = Some col →
  read_membership names (ref, membership) = inl (KeyError col).
Proof.
  unfold first_missing, required_columns, read_membership, getitem. simpl.
  repeat (match goal with
          | |- context [membership !! ?c] =>
              destruct (membership !! c); simpl
          end; [|by intros [= <-]]).
  discriminate.
Qed.

Lemma read_membership_complete names ref membership :
  first_missing membership = None →
  ∃ names', read_membership names (ref, membership) = inr names'.
Proof.
  unfold first_missing, required_columns, read_membership, getitem. simpl.
  repeat (match goal with
          | |- context [membership !! ?c] =>
              destruct (membership !! c); simpl
          end; [|discriminate]).
  eauto.
Qed.

Lemma read_loop_complete l :
  ∀ n names,
    Forall (λ r, first_missing r = None) l →
    ∃ names', for_each read_membership (zip (seq n (length l)) l) names
              = inr names'.
Proof.
  induction l as [|r l IH]; intros n names Hall;
    cbn [length seq zip_with for_each]; [by eexists|].
  apply Forall_cons in Hall as [Hr Hall].
  destruct (read_membership_complete names n r Hr) as [names1 ->].
  cbn [mbind exn_bind].
  by apply IH.
Qed.

Lemma read_loop_missing pre :
  ∀ n names r post col,
    Forall (λ r, first_missing r = None) pre →
    first_missing r = Some col →
    for_each read_membership
      (zip (seq n (length (pre ++ r :: post))) (pre ++ r :: post)) names
    = inl (KeyError col).
Proof.
  induction pre as [|r0 pre IH]; intros n names r post col Hall Hr;
    cbn [app length seq zip_with for_each].
  - by rewrite (read_membership_missing _ _ _ col).
  - apply Forall_cons in Hall as [Hr0 Hall].
    destruct (read_membership_complete names n r0 Hr0) as [names1 ->].
    cbn [mbind exn_bind]. by apply IH.
Qed.

Lemma read_names_inr_complete rows names0 :
  read_names rows = inr names0 → Forall (λ r, first_missing r = None) rows.
Proof.
  intros Hread. apply Forall_forall. intros r Hr.
  destruct (first_missing r) as [col|] eqn:Hm; [|done].
  apply list_elem_of_split in Hr as (pre & post & ->).
  assert (∃ pre' r' post' col',
            pre ++ r :: post = pre' ++ r' :: post'
            ∧ Forall (λ r, first_missing r = None) pre'
            ∧ first_missing r' = Some col') as (pre' & r' & post' & col' & E & Hp & Hc).
  { clear Hread. induction pre as [|r0 pre IH]; simpl.
    - by exists [], r, post, col.
    - destruct (first_missing r0) as [c0|] eqn:H0.
      + by exists [], r0, (pre ++ r :: post), c0.
      + destruct IH as (pre' & r' & post' & col' & E & Hp & Hc).
        exists (r0 :: pre'), r', post', col'. simpl. rewrite E.
        repeat split; [|done]. by constructor. }
  unfold read_names, enumerate in Hread. rewrite E in Hread.
  by rewrite (read_loop_missing pre' 0 [] r' post' col') in Hread.
Qed.

(** X1.  The constructor reads six columns from every row.  It returns only
    if every row has them all; at the first row that lacks one, it raises
    [KeyError] for the first column, in reading order, that this row lacks,
    whatever the rows after it are and before any row was changed. *)
Theorem X1_missing_column (mf : memberfile) (overlapfile : option string)
    (rows : list row) :
  source_rows mf = inr rows →
  (∀ c, init mf overlapfile = inr c →
        Forall (λ r, first_missing r = None) rows)
  ∧ (Forall (λ r, first_missing r = None) rows →
     ∃ names0, read_names rows = inr names0)
  ∧ (∀ pre r post col,
       rows = pre ++ r :: post →
       Forall (λ r, first_missing r = None) pre →
       first_missing r = Some col →
       init mf overlapfile = inl (KeyError col)).
Proof.
  intros Hrows. split; [|split].
  - intros c Hinit.
    destruct (init_inr _ _ _ Hinit) as (rows' & names0 & R & Hr & Hread & _).
    rewrite Hrows in Hr. injection Hr as <-.
    by eapply read_names_inr_complete.
  - intros Hall. apply (read_loop_complete rows 0 [] Hall).
  - intros pre r post col -> Hpre Hr. unfold init. rewrite Hrows. simpl.
    unfold read_names, enumerate.
    by rewrite (read_loop_missing pre 0 [] r post col).
Qed.

Lemma X1_missing_column_witness :
  source_rows (mf_list (doe_rows ++ [lee_row])) = inr (doe_rows ++ [lee_row])
  ∧ Forall (λ r, first_missing r = None) doe_rows
  ∧ first_missing lee_row = Some "DOB"%string
  ∧ init (mf_list (doe_rows ++ [lee_row])) None = inl (KeyError "DOB").
Proof.
  assert (Forall (λ r, first_missing r = None) doe_rows) as H1.
  { repeat constructor. }
  assert (first_missing lee_row = Some "DOB"%string) as H2 by reflexivity.
  split; [reflexivity|]. split; [exact H1|]. split; [exact H2|].
  exact (proj2 (proj2 (X1_missing_column (mf_list (doe_rows ++ [lee_row]))
                         None (doe_rows ++ [lee_row]) eq_refl))
           doe_rows lee_row [] "DOB"%string eq_refl H1 H2).
Defined.


(** ** When the constructor returns *)

Lemma valid_jan1 y : valid_date y 1 1 = true ↔ 1 ≤ y ≤ 9999.
Proof.
  unfold valid_date, MINYEAR, MAXYEAR, days_in_month. simpl. lia.
Qed.

Lemma repair_inr_iff prev cur :
  (∃ o, repair prev cur = inr o) ↔ repairable prev cur.
Proof.
  split.
  - intros [o Ho] Hov.
    destruct (repair_cases _ _ _ Ho)
      as (_ & Hleb & [(Hf & _)|(_ & d1 & d2 & j & H1 & H2 & H3 & Hy & _)]).
    { unfold overlaps in Hov. congruence. }
    apply datetime_init_inr in H3 as [Hv ->]. apply valid_jan1 in Hv.
    simpl in Hy. exists d1, d2. repeat split; [done..|lia|lia].
  - intros Hrep. unfold repair.
    destruct (String.leb (join cur) (expiration prev)) eqn:Hleb;
      [|by eexists].
    destruct (Hrep Hleb) as (d1 & d2 & -> & -> & Hy). simpl.
    unfold datetime_init. rewrite (proj2 (valid_jan1 _)) by lia. simpl.
    unfold ymd.dt2asc. simpl.
    destruct (Z.ltb_spec (year d1 + 1) 1900); [lia|]. simpl. by eexists.
Qed.

Lemma datetime_init_inl y m d e : datetime_init y m d = inl e → e = ValueError.
Proof. unfold datetime_init. destruct (valid_date y m d); by intros [= <-]. Qed.

Lemma asc2dt_inl s e : ymd.asc2dt s = inl e → e = ValueError.
Proof.
  unfold ymd.asc2dt. destruct (match_ymd s) as [[[y m] d]|].
  - apply datetime_init_inl.
  - by intros [= <-].
Qed.

Lemma dt2asc_inl dt e : ymd.dt2asc dt = inl e → e = ValueError.
Proof. unfold ymd.dt2asc. destruct (year dt <? 1900); by intros [= <-]. Qed.

Lemma repair_inl prev cur e : repair prev cur = inl e → e = ValueError.
Proof.
  unfold repair. destruct (String.leb (join cur) (expiration prev));
    [|discriminate].
  destruct (ymd.asc2dt (expiration prev)) as [e1|d1] eqn:H1; simpl.
  { intros [= <-]. by eapply asc2dt_inl. }
  destruct (ymd.asc2dt (expiration cur)) as [e2|d2] eqn:H2; simpl.
  { intros [= <-]. by eapply asc2dt_inl. }
  destruct (datetime_init (year d1 + 1) 1 1) as [e3|j] eqn:H3; simpl.
  { intros [= <-]. by eapply datetime_init_inl. }
  destruct (ymd.dt2asc j) as [e4|asc] eqn:H4; simpl; [|discriminate].
  intros [= <-]. by eapply dt2asc_inl.
Qed.

Lemma repairable_expiration prev prev' cur :
  expiration prev = expiration prev' →
  repairable prev cur → repairable prev' cur.
Proof. unfold repairable, overlaps. by intros ->. Qed.

Lemma repaired_inr_iff rest :
  ∀ prev,
    (∃ os, repaired prev rest = inr os) ↔
    (∀ i p c, (prev :: rest) !! i = Some p → rest !! i = Some c →
              repairable p c).
Proof.
  induction rest as [|cur rest IH]; intros prev; simpl.
  { split; [|by eexists]. intros _ i p c _. by rewrite lookup_nil. }
  split.
  - intros [os (o & Ho & (os' & Hos & _)%bind_inr)%bind_inr] i p c.
    destruct (repair_same _ _ _ Ho) as (_ & Hexp & _).
    destruct i as [|i]; simpl.
    + intros [= <-] [= <-]. apply repair_inr_iff. eauto.
    + intros Hp Hc. destruct i as [|i]; simpl in *.
      * injection Hp as <-. apply (repairable_expiration (o_rec o)); [done|].
        apply (proj1 (IH (o_rec o)) (ex_intro _ os' Hos) 0%nat); done.
      * apply (proj1 (IH (o_rec o)) (ex_intro _ os' Hos) (S i)); done.
  - intros Hall.
    destruct (proj2 (repair_inr_iff prev cur)) as [o Ho].
    { by apply (Hall 0%nat). }
    destruct (repair_same _ _ _ Ho) as (_ & Hexp & _).
    destruct (proj2 (IH (o_rec o))) as [os' Hos'].
    { intros [|i] p c; simpl.
      - intros [= <-] Hc. apply (repairable_expiration cur); [done|].
        by apply (Hall 1%nat).
      - intros Hp Hc. by apply (Hall (S (S i))). }
    rewrite Ho. simpl. rewrite Hos'. simpl. by eexists.
Qed.

Lemma repaired_inl rest :
  ∀ prev e, repaired prev rest = inl e → e = ValueError.
Proof.
  induction rest as [|cur rest IH]; intros prev e; simpl; [discriminate|].
  destruct (repair prev cur) as [e'|o] eqn:Ho; simpl.
  { intros [= <-]. by eapply repair_inl. }
  destruct (repaired (o_rec o) rest) as [e'|os] eqn:Hos; simpl; [|discriminate].
  intros [= <-]. by eapply IH.
Qed.

Lemma outcomes_inr_iff s :
  (∃ os, outcomes s = inr os) ↔
  (∀ i prev cur, s !! i = Some prev → s !! S i = Some cur →
                 repairable prev cur).
Proof.
  unfold outcomes. destruct s as [|first rest].
  { split; [|by eexists]. intros _ i p c. by rewrite lookup_nil. }
  rewrite <- (repaired_inr_iff rest first). split.
  - intros [os (os' & H & _)%bind_inr]. eauto.
  - intros [os' ->]. simpl. by eexists.
Qed.

Lemma outcomes_inl s e : outcomes s = inl e → e = ValueError.
Proof.
  unfold outcomes. destruct s as [|first rest]; [discriminate|].
  destruct (repaired first rest) as [e'|os] eqn:Hos; simpl; [|discriminate].
  intros [= <-]. by eapply repaired_inl.
Qed.

Lemma all_outcomes_inr_iff names0 :
  (∃ R, all_outcomes names0 = inr R) ↔
  (∀ n k g0 i prev cur,
     names0 !! n = Some (k, g0) →
     sorted g0 !! i = Some prev → sorted g0 !! S i = Some cur →
     repairable prev cur).
Proof.
  induction names0 as [|[k g] names0 IH]; simpl.
  { split; [|by eexists]. intros _ n k g0 i p c. by rewrite lookup_nil. }
  split.
  - intros [R (os & Hos & (R' & HR & _)%bind_inr)%bind_inr] [|n] k' g0 i p c;
      simpl.
    + intros [= <- <-]. apply (proj1 (outcomes_inr_iff _)). eauto.
    + apply (proj1 IH). eauto.
  - intros Hall.
    destruct (proj2 (outcomes_inr_iff (sorted g))) as [os ->].
    { intros i p c. by apply (Hall 0%nat k g). }
    destruct (proj2 IH) as [R ->].
    { intros n. apply (Hall (S n)). }
    simpl. by eexists.
Qed.

Lemma all_outcomes_inl names0 e :
  all_outcomes names0 = inl e → e = ValueError.
Proof.
  revert e. induction names0 as [|[k g] names0 IH]; intros e; simpl;
    [discriminate|].
  destruct (outcomes (sorted g)) as [e'|os] eqn:Hos; simpl.
  { intros [= <-]. by eapply outcomes_inl. }
  destruct (all_outcomes names0) as [e'|R]; simpl; [|discriminate].
  intros [= <-]. by apply IH.
Qed.

(** Where no operation on the debug file fails: once the rows are read, the
    constructor returns exactly when every record that overlaps its
    predecessor in its sorted group can be repaired, and raises [ValueError]
    otherwise. *)
Lemma init_returns_iff (mf : memberfile) (overlapfile : option string)
    (rows : list row) (names0 : list (namekey * list thisrec)) :
  source_rows mf = inr rows →
  read_names rows = inr names0 →
  ((∃ c, init mf overlapfile = inr c) ↔
   (∀ n k g0 i prev cur,
      names0 !! n = Some (k, g0) →
      sorted g0 !! i = Some prev → sorted g0 !! S i = Some cur →
      repairable prev cur))
  ∧ (∀ e, init mf overlapfile = inl e → e = ValueError).
Proof.
  intros Hrows Hread. rewrite init_closed, Hrows. simpl. rewrite Hread. simpl.
  rewrite <- all_outcomes_inr_iff. split; [split|].
  - intros [c (R & HR & _)%bind_inr]. eauto.
  - intros [R ->]. simpl. by eexists.
  - intros e. destruct (all_outcomes names0) as [e'|R] eqn:HR; simpl;
      [|discriminate].
    intros [= <-]. by eapply all_outcomes_inl.
Qed.

Lemma expiration_in_range_spec r e :
  expiration_in_range r = true → r !! "ExpirationDate" = Some e →
  ∃ dt, ymd.asc2dt e = inr dt ∧ 1899 ≤ year dt ≤ 9998.
Proof.
  unfold expiration_in_range. intros H He. rewrite He in H.
  destruct (ymd.asc2dt e) as [|dt]; [done|]. exists dt. split; [done|]. lia.
Qed.

Lemma init_returns_on_valid_expirations (mf : memberfile)
    (overlapfile : option string) (rows : list row) :
  source_rows mf = inr rows →
  Forall (λ r, first_missing r = None) rows →
  forallb expiration_in_range rows = true →
  ∃ c, init mf overlapfile = inr c.
Proof.
  intros Hrows Hcomplete Hrange.
  destruct (read_loop_complete rows 0 [] Hcomplete) as [names0 Hread].
  fold (enumerate rows) in Hread. fold (read_names rows) in Hread.
  rewrite init_closed, Hrows. simpl. rewrite Hread. simpl.
  destruct (proj2 (all_outcomes_inr_iff names0)) as [R ->];
    [|simpl; by eexists].
  intros n k g0 i prev cur Hn Hp Hc _.
  destruct (read_names_ok _ _ Hread) as (_ & Hall & _).
  rewrite Forall_forall in Hall.
  destruct (Hall (k, g0)) as (_ & _ & Hg); [by eapply list_elem_of_lookup_2|].
  rewrite Forall_forall in Hg. rewrite forallb_forall in Hrange.
  assert (∀ r, r ∈ sorted g0 →
               ∃ dt, ymd.asc2dt (expiration r) = inr dt
                     ∧ 1899 ≤ year dt ≤ 9998) as Hok.
  { intros r Hr. apply (proj1 (sorted_elem_of _ _)) in Hr.
    destruct (Hg r Hr) as (_ & m & Hm & _ & He & _).
    apply (expiration_in_range_spec m); [|done].
    apply Hrange, list_elem_of_In. by eapply list_elem_of_lookup_2. }
  destruct (Hok prev) as (d1 & H1 & Hy1); [by eapply list_elem_of_lookup_2|].
  destruct (Hok cur) as (d2 & H2 & _); [by eapply list_elem_of_lookup_2|].
  by exists d1, d2.
Qed.

(** ** Rosters without overlap *)

Lemma repaired_no_overlap rest :
  ∀ prev,
    (∀ i p c, (prev :: rest) !! i = Some p → rest !! i = Some c →
              ¬ overlaps p c) →
    repaired prev rest = inr (map untouched rest).
Proof.
  induction rest as [|cur rest IH]; intros prev Hno; simpl; [done|].
  assert (String.leb (join cur) (expiration prev) = false) as Hleb.
  { apply not_true_is_false. by apply (Hno 0%nat prev cur). }
  unfold repair. rewrite Hleb. simpl. rewrite IH; [done|].
  intros i p c Hp Hc. by apply (Hno (S i)).
Qed.

Lemma survivors_untouched s : survivors (map untouched s) = s.
Proof.
  induction s as [|r s IH]; [done|].
  simpl. rewrite survivors_cons. simpl. by rewrite IH.
Qed.

Lemma group_writes_untouched s : group_writes (map untouched s) = [].
Proof.
  induction s as [|r s IH]; [done|].
  simpl. by rewrite group_writes_cons, IH.
Qed.

Lemma log_lines_untouched debug s :
  ∀ prev, log_lines debug prev (map untouched s) = [].
Proof.
  induction s as [|r s IH]; intros prev; [done|].
  simpl. rewrite andb_false_r. simpl. apply IH.
Qed.

Lemma outcomes_no_overlap s :
  (∀ i prev cur, s !! i = Some prev → s !! S i = Some cur →
                 ¬ overlaps prev cur) →
  outcomes s = inr (map untouched s).
Proof.
  intros Hno. unfold outcomes. destruct s as [|first rest]; [done|].
  rewrite repaired_no_overlap; [done|].
  intros i p c Hp Hc. by apply (Hno i).
Qed.

Lemma all_outcomes_no_overlap names0 :
  (∀ n k g0 i prev cur,
     names0 !! n = Some (k, g0) →
     sorted g0 !! i = Some prev → sorted g0 !! S i = Some cur →
     ¬ overlaps prev cur) →
  all_outcomes names0
  = inr (map (λ e, (e.1, map untouched (sorted e.2))) names0).
Proof.
  induction names0 as [|[k g] names0 IH]; intros Hno; simpl; [done|].
  rewrite outcomes_no_overlap by (intros i p c; by apply (Hno 0%nat k g)).
  simpl. rewrite IH; [done|]. intros n. apply (Hno (S n)).
Qed.

Lemma init_no_overlap (mf : memberfile)
    (overlapfile : option string) (rows : list row)
    (names0 : list (namekey * list thisrec)) :
  source_rows mf = inr rows →
  read_names rows = inr names0 →
  (∀ n k g0 i prev cur,
     names0 !! n = Some (k, g0) →
     sorted g0 !! i = Some prev → sorted g0 !! S i = Some cur →
     ¬ overlaps prev cur) →
  init mf overlapfile
  = inr (Constructed (sorted_names names0) rows
           (if truthy overlapfile then Some [ovrlp_header] else None)).
Proof.
  intros Hrows Hread Hno. rewrite init_closed, Hrows. simpl.
  rewrite Hread. simpl. rewrite (all_outcomes_no_overlap _ Hno). simpl.
  assert (∀ debug l,
            final_names (map (λ e : namekey * list thisrec,
                                (e.1, map untouched (sorted e.2))) l)
            = sorted_names l
            ∧ flat_map (λ e : namekey * list outcome, group_writes e.2)
                (map (λ e : namekey * list thisrec,
                        (e.1, map untouched (sorted e.2))) l) = []
            ∧ final_log debug
                (map (λ e : namekey * list thisrec,
                        (e.1, map untouched (sorted e.2))) l) = [])
    as Hclosed.
  { intros debug l. unfold final_names, final_log, sorted_names.
    induction l as [|[k g] l (IH1 & IH2 & IH3)]; [done|]. simpl.
    rewrite survivors_untouched, group_writes_untouched, IH1, IH2, IH3.
    repeat split. unfold group_log. destruct (sorted g); [done|].
    simpl. rewrite app_nil_r. apply log_lines_untouched. }
  destruct (Hclosed (truthy overlapfile) names0) as (-> & Hw & ->).
  unfold final_heap. rewrite Hw. done.
Qed.

(** ** The debug file *)

Lemma count_overlaps_expiration prev prev' rest :
  expiration prev = expiration prev' →
  count_overlaps (prev :: rest) = count_overlaps (prev' :: rest).
Proof. intros H. simpl. by rewrite H. Qed.

Lemma repaired_overlap_count rest :
  ∀ prev os,
    repaired prev rest = inr os →
    length (filter (λ o, o_overlap o = true) os)
    = count_overlaps (prev :: rest).
Proof.
  induction rest as [|cur rest IH]; intros prev os.
  { by intros [= <-]. }
  cbn [repaired].
  intros (o & Ho & (os' & Hos & [= <-])%bind_inr)%bind_inr.
  destruct (repair_same _ _ _ Ho) as (_ & Hexp & _).
  destruct (repair_cases _ _ _ Ho) as (_ & Hov & _).
  rewrite filter_cons. specialize (IH _ _ Hos).
  rewrite (count_overlaps_expiration (o_rec o) cur) in IH by done.
  change (count_overlaps (prev :: cur :: rest))
    with ((if String.leb (join cur) (expiration prev) then 1 else 0)
          + count_overlaps (cur :: rest))%nat.
  rewrite <- Hov, <- IH.
  destruct (decide (o_overlap o = true)) as [->|Hn]; [done|].
  by destruct (o_overlap o).
Qed.

Lemma length_log_lines debug os :
  ∀ prev,
    length (log_lines debug prev os)
    = if debug then (2 * length (filter (λ o, o_overlap o = true) os))%nat
      else 0%nat.
Proof.
  induction os as [|o os IH]; intros prev; simpl.
  { by destruct debug. }
  rewrite length_app, IH, filter_cons.
  destruct debug; simpl; [|done].
  destruct (decide (o_overlap o = true)) as [->|Hn]; simpl; [lia|].
  by destruct (o_overlap o).
Qed.

Lemma length_final_log debug names0 :
  ∀ R, all_outcomes names0 = inr R →
    length (final_log debug R)
    = if debug then (2 * total_overlaps names0)%nat else 0%nat.
Proof.
  unfold final_log, total_overlaps.
  induction names0 as [|[k g] names0 IH]; intros R; simpl.
  { intros [= <-]. by destruct debug. }
  intros (os & Hos & (R' & HR & [= <-])%bind_inr)%bind_inr. simpl.
  rewrite length_app, (IH _ HR).
  assert (length (group_log debug os)
          = if debug then (2 * count_overlaps (sorted g))%nat else 0%nat)
    as ->.
  { unfold outcomes in Hos. destruct (sorted g) as [|first rest].
    - injection Hos as <-. by destruct debug.
    - apply bind_inr in Hos as (os' & Hrep & [= <-]). simpl.
      rewrite length_log_lines, (repaired_overlap_count _ _ _ Hrep). done. }
  destruct debug; lia.
Qed.

(** X5.  The debug file is written exactly when [overlapfile] is given and
    is not the empty text.  It then holds the header and two rows for every
    record that overlaps its predecessor in its sorted group, tossed or
    not. *)
Theorem X5_debug_file_rows (mf : memberfile) (overlapfile : option string)
    (c : constructed) (rows : list row)
    (names0 : list (namekey * list thisrec)) :
  init mf overlapfile = inr c →
  source_rows mf = inr rows →
  read_names rows = inr names0 →
  match ovrlp c with
  | Some file =>
      (∃ path, overlapfile = Some path ∧ path ≠ ""%string)
      ∧ ∃ written, file = ovrlp_header :: written
                   ∧ length written = (2 * total_overlaps names0)%nat
  | None => overlapfile = None ∨ overlapfile = Some ""%string
  end.
Proof.
  rewrite init_closed. intros Hinit Hrows Hread. rewrite Hrows in Hinit.
  simpl in Hinit. rewrite Hread in Hinit. simpl in Hinit.
  apply bind_inr in Hinit as (R & HR & [= <-]). simpl.
  destruct overlapfile as [path|]; simpl; [|by left].
  destruct (String.eqb_spec path ""%string) as [->|Hne]; simpl.
  - by right.
  - split; [by exists path|]. eexists. split; [done|].
    by rewrite (length_final_log true names0).
Qed.

Lemma X5_debug_file_rows_witness :
  init (mf_list roe_rows) (Some "overlaps.csv"%string)
  = inr (Constructed (names roe_constructed) (heap roe_constructed)
           (Some [ovrlp_header; ovrlp_row roe_second;
                  ovrlp_row (set_tossed "Y" roe_first)]))
  ∧ read_names roe_rows = inr roe_names0
  ∧ ∃ written,
      [ovrlp_header; ovrlp_row roe_second;
       ovrlp_row (set_tossed "Y" roe_first)] = ovrlp_header :: written
      ∧ length written = (2 * total_overlaps roe_names0)%nat.
Proof.
  assert (init (mf_list roe_rows) (Some "overlaps.csv"%string)
          = inr (Constructed (names roe_constructed) (heap roe_constructed)
                   (Some [ovrlp_header; ovrlp_row roe_second;
                          ovrlp_row (set_tossed "Y" roe_first)]))) as H
    by reflexivity.
  split; [exact H|]. split; [exact roe_read|].
  exact (proj2 (X5_debug_file_rows _ _ _ _ _ H eq_refl roe_read)).
Defined.


(** ** Records and their rows *)

Lemma read_membership_row_record names ref membership :
  read_membership names (ref, membership) =
  row_record ref membership ≫= λ kr, ok (names_append kr.1 kr.2 names).
Proof.
  unfold read_membership, row_record.
  repeat match goal with
         | |- context [getitem ?m ?c] => destruct (getitem m c); simpl
         end; done.
Qed.

Lemma row_record_ref ref membership k r :
  row_record ref membership = inr (k, r) → fullrec r = ref.
Proof.
  unfold row_record. intros H.
  repeat (apply bind_inr in H as (? & _ & H)). by injection H as _ <-.
Qed.

Lemma read_loop_records rows l :
  ∀ n names names',
    (∀ i, l !! i = rows !! (n + i)%nat) →
    Forall (λ e, Forall (record_of_rows rows e.1) e.2) names →
    for_each read_membership (zip (seq n (length l)) l) names = inr names' →
    Forall (λ e, Forall (record_of_rows rows e.1) e.2) names'.
Proof.
  induction l as [|membership l IH]; intros n names names' Hl Hok;
    cbn [length seq zip_with for_each].
  { by intros [= <-]. }
  intros (names1 & Hread & Hrest)%bind_inr.
  apply (IH (S n) names1); [| |done].
  { intros i. replace (S n + i)%nat with (n + S i)%nat by lia.
    apply (Hl (S i)). }
  rewrite read_membership_row_record in Hread.
  apply bind_inr in Hread as ([k r] & Hrec & [= <-]). simpl.
  assert (record_of_rows rows k r) as Hr.
  { exists membership. rewrite (row_record_ref _ _ _ _ Hrec).
    split; [|done]. specialize (Hl 0%nat). rewrite Nat.add_0_r in Hl.
    by rewrite <- Hl. }
  apply (names_append_Forall (λ k g, Forall (record_of_rows rows k) g));
    [done|by apply Forall_singleton|].
  intros g _ Hg. apply Forall_app. split; [done|by apply Forall_singleton].
Qed.

Lemma read_names_records rows names0 :
  read_names rows = inr names0 →
  Forall (λ e, Forall (record_of_rows rows e.1) e.2) names0.
Proof.
  intros H. by apply (read_loop_records rows rows 0 [] names0).
Qed.

Lemma row_record_insert_JoinDate ref membership k r v :
  row_record ref membership = inr (k, r) →
  row_record ref (<["JoinDate" := v]> membership) = inr (k, set_join v r).
Proof.
  unfold row_record, getitem.
  rewrite lookup_insert_eq, !lookup_insert_ne by done.
  repeat match goal with
         | |- context [membership !! ?c] =>
             destruct (membership !! c); simpl; [|discriminate]
         end.
  by intros [= <- <-].
Qed.

(** The row of a record that is kept, after construction. *)
Lemma kept_record_row mf overlapfile c rows names0 n k g0 os o :
  init mf overlapfile = inr c → source_rows mf = inr rows →
  read_names rows = inr names0 →
  names0 !! n = Some (k, g0) → outcomes (sorted g0) = inr os →
  o ∈ os → o_toss o = false →
  record_of_rows (heap c) k (o_rec o).
Proof.
  intros Hinit Hrows Hread Hn Hos [i Ho]%list_elem_of_lookup_1 Hkept.
  destruct (constructed_row _ _ _ _ _ Hinit Hrows Hread _ _ _ _ _ _ Hn Hos Ho)
    as (m & Hm & _ & _ & _ & Hheap).
  destruct (outcomes_elem _ _ _ _ Hos Ho) as (Hs & Hr & _).
  pose proof (read_names_records _ _ Hread) as Hrecs.
  rewrite Forall_forall in Hrecs.
  specialize (Hrecs (k, g0) (list_elem_of_lookup_2 _ _ _ Hn)). simpl in Hrecs.
  rewrite Forall_forall in Hrecs.
  destruct (Hrecs (o_orig o)) as (m' & Hm' & Hrec).
  { apply sorted_elem_of. by eapply list_elem_of_lookup_2. }
  rewrite <- Hr, Hm in Hm'. injection Hm' as <-. rewrite <- Hr in Hrec.
  unfold oref in *.
  assert (o_rec o = if o_overlap o then set_join (join (o_rec o)) (o_orig o)
                    else o_orig o) as Hform.
  { destruct i as [|i'].
    - destruct (outcomes_lookup _ _ Hos) as (_ & _ & _ & H0 & _).
      rewrite (H0 _ Hs) in Ho. by injection Ho as <-.
    - destruct (lookup_lt_is_Some_2 (sorted g0) i') as [prev Hp].
      { apply lookup_lt_Some in Hs. lia. }
      destruct (outcomes_lookup _ _ Hos) as (_ & _ & _ & _ & HS).
      destruct (HS _ _ _ Hp Hs) as (o' & Ho' & Hrep).
      rewrite Ho in Ho'. injection Ho' as <-.
      destruct (repair_cases _ _ _ Hrep)
        as (_ & _ & [(-> & _ & ->)|(-> & d1 & d2 & j & _ & _ & _ & _ & _ & E)]);
        [done|].
      rewrite Hkept in E. rewrite E. done. }
  exists (if o_overlap o then <["JoinDate" := join (o_rec o)]> m else m).
  split; [done|]. destruct (o_overlap o).
  - pose proof (row_record_insert_JoinDate _ _ _ _ (join (o_rec o)) Hrec) as H.
    by rewrite <- Hform in H.
  - rewrite Hrec. by rewrite Hform.
Qed.

(** X6.  After construction every record of every group is the record of
    its own row as the row is then: the one that the reading loop would build
    from it, under the same identity key.  In particular its join and
    expiration dates are the [JoinDate] and [ExpirationDate] of the row, and
    it carries no [tossed] mark. *)
Theorem X6_records_agree_with_rows (mf : memberfile)
    (overlapfile : option string) (c : constructed) (rows : list row) :
  init mf overlapfile = inr c →
  source_rows mf = inr rows →
  ∀ k g r, (k, g) ∈ names c → r ∈ g →
    ∃ membership,
      heap c !! fullrec r = Some membership
      ∧ row_record (fullrec r) membership = inr (k, r)
      ∧ membership !! "JoinDate" = Some (join r)
      ∧ membership !! "ExpirationDate" = Some (expiration r)
      ∧ tossed r = None.
Proof.
  intros Hinit Hrows k g r [n Hn]%list_elem_of_lookup_1 Hr.
  destruct (init_inr _ _ _ Hinit) as (rows' & names0 & R & Hr' & Hread & _).
  rewrite Hrows in Hr'. injection Hr' as <-.
  destruct (constructed_group_inv _ _ _ _ _ Hinit Hrows Hread _ _ _ Hn)
    as [g0 Hg0].
  destruct (constructed_group _ _ _ _ _ Hinit Hrows Hread _ _ _ Hg0)
    as (os & Hos & Hn' & _).
  rewrite Hn in Hn'. injection Hn' as ->.
  apply survivors_elem_of in Hr as (o & Ho & Hkept & ->).
  destruct (kept_record_row _ _ _ _ _ _ _ _ _ _ Hinit Hrows Hread Hg0 Hos Ho
              Hkept) as (m & Hm & Hrec).
  exists m. split; [done|]. split; [done|].
  unfold row_record in Hrec.
  repeat (apply bind_inr in Hrec as (? & ?%getitem_inr & Hrec)).
  injection Hrec as _ <-. simpl. done.
Qed.

Lemma X6_records_agree_with_rows_witness :
  init (mf_list doe_rows) None = inr doe_constructed
  ∧ ∃ membership,
      heap doe_constructed !! 1%nat = Some membership
      ∧ membership !! "JoinDate" = Some "2022-01-01"%string.
Proof.
  split; [exact doe_init|].
  destruct (X6_records_agree_with_rows (mf_list doe_rows) None doe_constructed
              doe_rows doe_init eq_refl _ _
              (ThisRec "2" "Doe, Jane" "2022-01-01" "2022-06-30" "1980-05-17"
                 1 None)%string (list_elem_of_here _ _))
    as (m & Hm & _ & Hj & _).
  { apply list_elem_of_further, list_elem_of_here. }
  by exists m.
Defined.


(** ** What construction leaves alone *)

Lemma outcome_overlap s os i cur o :
  outcomes s = inr os → s !! i = Some cur → os !! i = Some o →
  o_overlap o = true →
  ∃ i' prev, i = S i' ∧ s !! i' = Some prev ∧ overlaps prev cur
             ∧ repair prev cur = inr o.
Proof.
  intros Hos Hs Ho Hov.
  destruct (outcomes_lookup _ _ Hos) as (_ & _ & _ & H0 & HS).
  destruct i as [|i'].
  { rewrite (H0 _ Hs) in Ho. by injection Ho as <-. }
  destruct (lookup_lt_is_Some_2 s i') as [prev Hp].
  { apply lookup_lt_Some in Hs. lia. }
  destruct (HS _ _ _ Hp Hs) as (o' & Ho' & Hrep).
  rewrite Ho in Ho'. injection Ho' as <-.
  exists i', prev. repeat split; [done| |done].
  destruct (repair_cases _ _ _ Hrep) as (_ & Hleb & _).
  unfold overlaps. congruence.
Qed.

(** X7.  Construction keeps the number of rows and, in every row, every
    field other than [JoinDate]; the row of a record that does not overlap
    its predecessor in its sorted group, the first record of a group among
    them, is left exactly as it was. *)
Theorem X7_pass_through (mf : memberfile) (overlapfile : option string)
    (c : constructed) (rows : list row)
    (names0 : list (namekey * list thisrec)) :
  init mf overlapfile = inr c →
  source_rows mf = inr rows →
  read_names rows = inr names0 →
  length (heap c) = length rows
  ∧ (∀ ref field, field ≠ "JoinDate"%string →
       deref (heap c) ref !! field = deref rows ref !! field)
  ∧ (∀ n k g0 i cur,
       names0 !! n = Some (k, g0) → sorted g0 !! i = Some cur →
       (∀ i' prev, i = S i' → sorted g0 !! i' = Some prev →
                   ¬ overlaps prev cur) →
       heap c !! fullrec cur = rows !! fullrec cur).
Proof.
  intros Hinit Hrows Hread. split; [|split].
  - by apply (length_heap _ _ _ _ _ Hinit Hrows Hread).
  - intros ref field Hfield.
    destruct (constructed_R _ _ _ _ _ Hinit Hrows Hread) as (R & _ & _ & ->).
    by apply apply_writes_field.
  - intros n k g0 i cur Hn Hs Hno.
    destruct (constructed_group _ _ _ _ _ Hinit Hrows Hread _ _ _ Hn)
      as (os & Hos & _).
    destruct (os !! i) as [o|] eqn:Ho.
    2:{ apply lookup_ge_None in Ho. apply lookup_lt_Some in Hs.
        destruct (outcomes_lookup _ _ Hos) as (Horig & _).
        rewrite <- Horig, length_map in Hs. lia. }
    destruct (constructed_row _ _ _ _ _ Hinit Hrows Hread _ _ _ _ _ _ Hn Hos Ho)
      as (m & Hm & _ & _ & _ & Hheap).
    destruct (outcomes_elem _ _ _ _ Hos Ho) as (Hs' & Hr & _).
    rewrite Hs in Hs'. injection Hs' as Hcur. rewrite <- Hcur in Hr.
    rewrite <- Hr, Hm, Hheap.
    destruct (o_overlap o) eqn:Hov; [|done].
    destruct (outcome_overlap _ _ _ _ _ Hos Hs Ho Hov)
      as (i' & prev & -> & Hp & Hovl & _).
    by destruct (Hno i' prev).
Qed.

Lemma X7_pass_through_witness :
  init (mf_list doe_rows) None = inr doe_constructed
  ∧ read_names doe_rows = inr doe_names0
  ∧ length (heap doe_constructed) = length doe_rows
  ∧ heap doe_constructed !! 0%nat = doe_rows !! 0%nat.
Proof.
  destruct (X7_pass_through (mf_list doe_rows) None doe_constructed doe_rows
              doe_names0 doe_init eq_refl doe_read) as (Hlen & _ & Hsame).
  split; [exact doe_init|]. split; [exact doe_read|]. split; [exact Hlen|].
  apply (Hsame 0%nat _ _ 0%nat doe_first eq_refl eq_refl).
  intros i' prev Hi. discriminate.
Defined.

(** X8.  No row is yielded twice.  The references that the full view yields
    are distinct references to rows of the input; the latest view returns
    and yields distinct references too, each of which the full view yields
    as well. *)
Theorem X8_views_yield_rows_once (mf : memberfile)
    (overlapfile : option string) (c : constructed) (rows : list row) :
  init mf overlapfile = inr c →
  source_rows mf = inr rows →
  NoDup (membership_iter (names c) (heap c)).*1
  ∧ (∀ ref, ref ∈ (membership_iter (names c) (heap c)).*1 →
            (ref < length rows)%nat)
  ∧ (length (membership_iter (names c) (heap c)) ≤ length rows)%nat
  ∧ ∃ h out,
      name_iter (names c) (heap c) = inr (h, out)
      ∧ NoDup out.*1
      ∧ ∀ ref, ref ∈ out.*1 →
               ref ∈ (membership_iter (names c) (heap c)).*1.
Proof.
  intros Hinit Hrows.
  destruct (init_inr _ _ _ Hinit) as (rows' & names0 & R & Hr' & Hread & _).
  rewrite Hrows in Hr'. injection Hr' as <-.
  destruct (constructed_refs_NoDup _ _ _ _ _ Hinit Hrows Hread) as [Hnd Hlt].
  rewrite Forall_forall in Hlt. rewrite membership_iter_refs.
  split; [done|]. split; [done|]. split.
  - rewrite <- (length_fmap fst), membership_iter_refs.
    assert (all_refs (names c) ⊆+ seq 0 (length rows)) as Hsub.
    { apply NoDup_submseteq; [done|]. intros ref Href.
      apply elem_of_seq. specialize (Hlt _ Href). lia. }
    apply submseteq_length in Hsub. by rewrite length_seq in Hsub.
  - destruct (constructed_name_iter _ _ _ _ _ Hinit Hrows Hread)
      as (ts & Hts & Hit & _ & Hndts & _).
    eexists _, _. split; [exact Hit|]. rewrite yields_refs.
    split; [done|]. intros ref Href.
    eapply elem_of_sublist; [exact Href|]. by apply name_targets_refs.
Qed.

Lemma X8_views_yield_rows_once_witness :
  init (mf_list roe_rows) None = inr roe_constructed
  ∧ NoDup (membership_iter (names roe_constructed) (heap roe_constructed)).*1
  ∧ (length (membership_iter (names roe_constructed) (heap roe_constructed))
     ≤ length roe_rows)%nat.
Proof.
  destruct (X8_views_yield_rows_once (mf_list roe_rows) None roe_constructed
              roe_rows roe_init eq_refl) as (Hnd & _ & Hlen & _).
  split; [exact roe_init|]. split; [exact Hnd|exact Hlen].
Defined.

(** ** What tossing amounts to *)

Lemma dt_leb_year a b : dt_leb a b = true → year a ≤ year b.
Proof.
  unfold dt_leb, dt_gtb, dt_compare.
  destruct (Z.compare_spec (year a) (year b)); [lia..|]. simpl. discriminate.
Qed.

Lemma jan1_gtb y dt :
  valid_date (year dt) (month dt) (day dt) = true →
  dt_gtb (Datetime (y + 1) 1 1) dt = true ↔ year dt ≤ y.
Proof.
  intros (_ & Hm & Hd)%valid_date_bounds.
  unfold dt_gtb, dt_compare. cbn [year month day].
  repeat match goal with
         | |- context [?a ?= ?b] => destruct (Z.compare_spec a b)
         end; split; intros; try done; try lia; exfalso; lia.
Qed.

(** X9.  On a roster of well-formed dates, the record [cur] that follows
    [prev] in a sorted group is tossed if and only if it joins no later than
    [prev] expires and expires in the same calendar year as [prev]. *)
Theorem X9_tossed_iff_same_expiration_year (mf : memberfile)
    (overlapfile : option string) (c : constructed) (rows : list row)
    (names0 : list (namekey * list thisrec)) :
  init mf overlapfile = inr c →
  source_rows mf = inr rows →
  read_names rows = inr names0 →
  forallb wf_row rows = true →
  ∀ n k g0 i prev cur,
    names0 !! n = Some (k, g0) →
    sorted g0 !! i = Some prev → sorted g0 !! S i = Some cur →
    ∃ g, names c !! n = Some (k, g)
      ∧ (fullrec cur ∉ map fullrec g ↔
           date_leb (join cur) (expiration prev) = true
           ∧ year (date_of (expiration cur))
             = year (date_of (expiration prev))).
Proof.
  intros Hinit Hrows Hread Hwf n k g0 i prev cur Hn Hp Hc.
  destruct (constructed_group _ _ _ _ _ Hinit Hrows Hread _ _ _ Hn)
    as (os & Hos & Hn' & Hok & Hnd & _).
  exists (survivors os). split; [done|].
  pose proof (group_wf _ _ _ _ Hwf Hok) as Hwfg.
  rewrite <- (sorted_perm g0), Forall_forall in Hwfg.
  destruct (andb_prop _ _ (Hwfg prev (list_elem_of_lookup_2 _ _ _ Hp)))
    as [_ Hwp].
  destruct (andb_prop _ _ (Hwfg cur (list_elem_of_lookup_2 _ _ _ Hc)))
    as [Hwj Hwc].
  destruct Hok as (_ & Hsorted & _).
  pose proof (sorted_stable _ Hsorted) as Hst.
  pose proof (StronglySorted_lookup stable_lt _ i (S i) prev cur Hst
                ltac:(lia) Hp Hc) as Hpc.
  apply stable_lt_expiration in Hpc. unfold str_le in Hpc.
  rewrite wf_leb in Hpc by done. apply dt_leb_year in Hpc.
  destruct (outcomes_lookup _ _ Hos) as (_ & _ & _ & _ & HS).
  destruct (HS _ _ _ Hp Hc) as (o & Ho & Hrep).
  destruct (outcomes_elem _ _ _ _ Hos Ho) as (Hs' & Hr & _).
  rewrite Hc in Hs'. injection Hs' as Hcur. rewrite <- Hcur in Hr.
  assert (o ∈ os) as Hin by by eapply list_elem_of_lookup_2.
  pose proof (survivor_ref os o Hnd Hin) as Hsurv. rewrite Hr in Hsurv.
  rewrite Hsurv, <- (wf_leb (join cur) (expiration prev)) by done.
  destruct (repair_cases _ _ _ Hrep)
    as (_ & Hov & [(Hf & Ht & _)|(Htr & d1 & d2 & j & H1 & H2 & H3 & _ & Ht & _)]).
  - rewrite Ht, <- Hov, Hf. split; [done|]. by intros [? _].
  - rewrite <- Hov, Htr, Ht.
    apply datetime_init_inr in H3 as [_ ->].
    rewrite (date_of_asc2dt _ _ H1) in *. rewrite (date_of_asc2dt _ _ H2) in *.
    destruct (jan1_gtb (year d1) d2 (asc2dt_valid _ _ H2)) as [Hj1 Hj2].
    destruct (dt_gtb (Datetime (year d1 + 1) 1 1) d2) eqn:Hg.
    + split; [|done]. intros _. split; [done|].
      specialize (Hj1 eq_refl). lia.
    + split; [by intros []|]. intros [_ Hy].
      assert (false = true) by (apply Hj2; lia). done.
Qed.

Lemma X9_tossed_iff_same_expiration_year_witness :
  init (mf_list roe_rows) None = inr roe_constructed
  ∧ read_names roe_rows = inr roe_names0
  ∧ forallb wf_row roe_rows = true
  ∧ ∃ g, names roe_constructed !! 0%nat
         = Some (("Roe", "Sam", "1975-11-02")%string, g)
      ∧ (fullrec roe_first ∉ map fullrec g ↔
           date_leb (join roe_first) (expiration roe_second) = true
           ∧ year (date_of (expiration roe_first))
             = year (date_of (expiration roe_second))).
Proof.
  assert (forallb wf_row roe_rows = true) as Hwf.
  { vm_compute. reflexivity. }
  split; [exact roe_init|]. split; [exact roe_read|]. split; [exact Hwf|].
  exact (X9_tossed_iff_same_expiration_year (mf_list roe_rows) None
           roe_constructed roe_rows roe_names0 roe_init eq_refl roe_read Hwf
           0%nat _ _ 0%nat roe_second roe_first eq_refl eq_refl eq_refl).
Defined.


(** * The constructor in its environment *)

(** ** The constructor and the failures of the debug file *)

(** A run in the environment [fails] goes as the run without failures as
    long as no operation on the debug file fails: [loud] says that one
    can. *)
Lemma for_each_io {A S} (loud : Prop) (body : S → A → M S)
    (body_io : S * nat → A → M (S * nat)) :
  (∀ s n x,
     match body s x with
     | inr s' => (∃ n', body_io (s, n) x = inr (s', n'))
                 ∨ (loud ∧ body_io (s, n) x = inl IOError)
     | inl e => body_io (s, n) x = inl e
                ∨ (loud ∧ body_io (s, n) x = inl IOError)
     end) →
  ∀ l s n,
    match for_each body l s with
    | inr s' => (∃ n', for_each body_io l (s, n) = inr (s', n'))
                ∨ (loud ∧ for_each body_io l (s, n) = inl IOError)
    | inl e => for_each body_io l (s, n) = inl e
               ∨ (loud ∧ for_each body_io l (s, n) = inl IOError)
    end.
Proof.
  intros Hstep. induction l as [|x l IH]; intros s n; simpl.
  { unfold ok. left. by exists n. }
  specialize (Hstep s n x).
  destruct (body s x) as [e|s1]; simpl.
  - destruct Hstep as [->|[Hl ->]]; [by left|by right].
  - destruct Hstep as [[n1 ->]|[Hl ->]]; simpl; [|by destruct (for_each _ _ _); right].
    apply IH.
Qed.

Lemma file_op_cases fails n :
  file_op fails n = inr (S n)
  ∨ ((∃ k, fails = Some k) ∧ file_op fails n = inl IOError).
Proof.
  unfold file_op. case_decide as H; [right|by left]. split; [by eexists|done].
Qed.

Lemma overlap_body_io_cases fails debug st n i :
  match overlap_body debug st i with
  | inr st' =>
      (∃ n', overlap_body_io fails debug (st, n) i = inr (st', n'))
      ∨ ((debug = true ∧ ∃ k, fails = Some k)
         ∧ overlap_body_io fails debug (st, n) i = inl IOError)
  | inl e =>
      overlap_body_io fails debug (st, n) i = inl e
      ∨ ((debug = true ∧ ∃ k, fails = Some k)
         ∧ overlap_body_io fails debug (st, n) i = inl IOError)
  end.
Proof.
  unfold overlap_body, overlap_body_io.
  destruct (getidx (ls_group st) i) as [e|cur]; simpl; [by left|].
  destruct (getidx (ls_group st) (i - 1)) as [e|prev]; simpl; [by left|].
  destruct (String.leb (join cur) (expiration prev)); [|left; by exists n].
  destruct (ymd.asc2dt (expiration prev)) as [e|d1]; simpl; [by left|].
  destruct (ymd.asc2dt (expiration cur)) as [e|d2]; simpl; [by left|].
  destruct (datetime_init (year d1 + 1) 1 1) as [e|j]; simpl; [by left|].
  destruct (ymd.dt2asc j) as [e|a]; simpl; [by left|].
  destruct (dt_gtb j d2); (destruct debug; simpl; [|left; by exists n]);
    (destruct (file_op_cases fails n) as [->|[Hk ->]]; simpl; [|by right]);
    (destruct (file_op_cases fails (S n)) as [->|[Hk ->]]; simpl;
     [|by right]);
    left; by exists (S (S n)).
Qed.

Lemma reconcile_entry_io_cases fails debug acc n entry :
  match reconcile_entry debug acc entry with
  | inr acc' =>
      (∃ n', reconcile_entry_io fails debug (acc, n) entry = inr (acc', n'))
      ∨ ((debug = true ∧ ∃ k, fails = Some k)
         ∧ reconcile_entry_io fails debug (acc, n) entry = inl IOError)
  | inl e =>
      reconcile_entry_io fails debug (acc, n) entry = inl e
      ∨ ((debug = true ∧ ∃ k, fails = Some k)
         ∧ reconcile_entry_io fails debug (acc, n) entry = inl IOError)
  end.
Proof.
  destruct acc as [[done heap] log], entry as [thisname g].
  unfold reconcile_entry, reconcile_entry_io, reconcile_group,
    reconcile_group_io.
  pose proof (for_each_io (debug = true ∧ ∃ k, fails = Some k)
                (overlap_body debug) (overlap_body_io fails debug)
                (overlap_body_io_cases fails debug)
                (seq 1 (length (sorted g) - 1))
                (LoopState (sorted g) [] heap log) n) as Hloop.
  destruct (for_each (overlap_body debug) _ _) as [e|st]; simpl.
  - destruct Hloop as [->|[Hl ->]]; [by left|by right].
  - destruct Hloop as [[n' ->]|[Hl ->]]; simpl.
    2:{ by destruct (pop_tossed (ls_group st) (ls_toss st)); simpl; right. }
    destruct (pop_tossed (ls_group st) (ls_toss st)) as [e|g2]; simpl;
      [by left|].
    left. by exists n'.
Qed.

(** The constructor in the environment [fails] goes as the constructor
    without failures, or it raises the exception of an operation on the
    debug file that failed. *)
Lemma init_io_cases fails mf overlapfile :
  init_io fails mf overlapfile = init mf overlapfile
  ∨ (debug_file_ok fails overlapfile = false
     ∧ (init_io fails mf overlapfile = inl IOError
        ∨ init_io fails mf overlapfile = inl TypeError)).
Proof.
  unfold init_io, init.
  destruct (source_rows mf) as [e|rows]; simpl; [by left|].
  destruct (read_names rows) as [e|names0]; simpl; [by left|].
  assert (∀ path, overlapfile = Some path → truthy overlapfile = true →
            (∃ k, fails = Some k) → debug_file_ok fails overlapfile = false)
    as Hbad.
  { intros path -> Ht [k ->]. unfold debug_file_ok. rewrite Ht. simpl.
    apply andb_false_r. }
  assert (∀ path, overlapfile = Some path → truthy overlapfile = true →
            has_nul path = true → debug_file_ok fails overlapfile = false)
    as Hnul.
  { intros path -> Ht Hn. unfold debug_file_ok. by rewrite Ht, Hn. }
  remember (truthy overlapfile) as debug eqn:Hdebug.
  assert (∀ n0,
            (for_each (reconcile_entry_io fails debug) names0
               ([], rows, [], n0) ≫=
             λ '(names1, heap1, log, n1),
               (if debug then file_op fails n1 else ok n1) ≫= λ _,
                 ok (Constructed names1 heap1
                       (if debug then Some (ovrlp_header :: log) else None)))
            = (for_each (reconcile_entry debug) names0 ([], rows, []) ≫=
               λ '(names1, heap1, log),
                 ok (Constructed names1 heap1
                       (if debug then Some (ovrlp_header :: log)
                        else None)))
            ∨ ((debug = true ∧ ∃ k, fails = Some k)
               ∧ (for_each (reconcile_entry_io fails debug) names0
                    ([], rows, [], n0) ≫=
                  λ '(names1, heap1, log, n1),
                    (if debug then file_op fails n1 else ok n1) ≫= λ _,
                      ok (Constructed names1 heap1
                            (if debug then Some (ovrlp_header :: log)
                             else None)))
                 = inl IOError)) as Hrest.
  { intros n0.
    pose proof (for_each_io (debug = true ∧ ∃ k, fails = Some k)
                  (reconcile_entry debug) (reconcile_entry_io fails debug)
                  (reconcile_entry_io_cases fails debug)
                  names0 ([], rows, []) n0) as Hloop.
    destruct (for_each (reconcile_entry debug) _ _)
      as [e|[[names1 heap1] log]]; simpl.
    - destruct Hloop as [->|[Hl ->]]; [by left|by right].
    - destruct Hloop as [[n1 ->]|[Hl ->]]; simpl; [|by right].
      destruct debug; simpl; [|by left].
      destruct (file_op_cases fails n1) as [->|[Hk ->]]; simpl;
        [by left|by right]. }
  destruct overlapfile as [path|].
  2:{ simpl. destruct (Hrest 0%nat) as [H|[[-> _] _]]; [by left|done]. }
  destruct debug.
  2:{ simpl. destruct (Hrest 0%nat) as [H|[[[=] _] _]]. by left. }
  unfold open_ovrlp. destruct (has_nul path) eqn:Hn; simpl.
  { right. split; [by eapply Hnul|by right]. }
  destruct (file_op_cases fails 0) as [->|[Hk ->]]; simpl.
  2:{ right. split; [by eapply Hbad|by left]. }
  destruct (file_op_cases fails 1) as [->|[Hk ->]]; simpl.
  2:{ right. split; [by eapply Hbad|by left]. }
  destruct (Hrest 2%nat) as [H|[[_ Hk] H]].
  - by left.
  - right. split; [by eapply Hbad|by left].
Qed.

Lemma init_io_ok fails mf overlapfile :
  debug_file_ok fails overlapfile = true →
  init_io fails mf overlapfile = init mf overlapfile.
Proof.
  intros Hok. destruct (init_io_cases fails mf overlapfile) as [H|[H _]];
    [done|congruence].
Qed.

Lemma init_io_inr fails mf overlapfile c :
  init_io fails mf overlapfile = inr c → init mf overlapfile = inr c.
Proof.
  intros H. destruct (init_io_cases fails mf overlapfile)
    as [<-|[_ [H'|H']]]; [done|congruence..].
Qed.

Lemma doe_reads : reads (arg_list doe_lines) = Some (mf_list doe_rows).
Proof. reflexivity. Qed.

Lemma roe_reads : reads (arg_list roe_lines) = Some (mf_list roe_rows).
Proof. reflexivity. Qed.

(** ** The claims that depend on the environment *)

(** C8 (amended).  The constructor run with and without a debug file, each
    run in an environment of its own.  If no operation on the debug file
    fails, both runs fail with the same exception or both return, with the
    same groups and the same rows, hence with the same sequences from both
    views.  Whenever both runs return, they return these same groups, rows
    and sequences.  Where one run returns, the other one returns too or
    raises the exception of the operation on the debug file that failed:
    [IOError], or [TypeError] for a file name that holds a NUL byte. *)
Theorem C8_overlapfile_noninterference (fails fails' : option nat)
    (mf : memberfile) (overlapfile overlapfile' : option string) :
  (debug_file_ok fails overlapfile = true →
   debug_file_ok fails' overlapfile' = true →
   match init_io fails mf overlapfile, init_io fails' mf overlapfile' with
   | inr c, inr c' => same_outcome c c'
   | inl e, inl e' => e = e'
   | _, _ => False
   end)
  ∧ (∀ c c', init_io fails mf overlapfile = inr c →
       init_io fails' mf overlapfile' = inr c' → same_outcome c c')
  ∧ (∀ c e, init_io fails mf overlapfile = inr c →
       init_io fails' mf overlapfile' = inl e →
       e = IOError ∨ e = TypeError).
Proof.
  pose proof (init_noninterference mf overlapfile overlapfile') as Hpure.
  split; [|split].
  - intros Hok Hok'. rewrite !init_io_ok by done. exact Hpure.
  - intros c c' H%init_io_inr H'%init_io_inr. by rewrite H, H' in Hpure.
  - intros c e H%init_io_inr H'. rewrite H in Hpure.
    destruct (init_io_cases fails' mf overlapfile') as [Heq|[_ [Heq|Heq]]];
      rewrite Heq in H'.
    + by rewrite H' in Hpure.
    + left. congruence.
    + right. congruence.
Qed.

Lemma C8_overlapfile_noninterference_witness :
  debug_file_ok None None = true
  ∧ debug_file_ok None (Some "overlaps.csv"%string) = true
  ∧ match init_io None (mf_list doe_rows) None,
          init_io None (mf_list doe_rows) (Some "overlaps.csv"%string) with
    | inr c, inr c' => same_outcome c c'
    | inl e, inl e' => e = e'
    | _, _ => False
    end.
Proof.
  split; [reflexivity|]. split; [reflexivity|].
  exact (proj1 (C8_overlapfile_noninterference None None (mf_list doe_rows)
                  None (Some "overlaps.csv"%string)) eq_refl eq_refl).
Defined.

(** C8, as stated, fails where the debug file cannot be opened: on the first
    sample roster the constructor returns when no debug file is asked for
    and raises [IOError] when it is asked for one under a name that [open]
    rejects, as it does the name of a directory. *)
Lemma C8_counterexample :
  init_io (Some 0%nat) (mf_list doe_rows) None = inr doe_constructed
  ∧ init_io (Some 0%nat) (mf_list doe_rows) (Some "/"%string) = inl IOError.
Proof.
  split; [|reflexivity].
  rewrite init_io_ok by reflexivity. exact doe_init.
Qed.




(** ** When the constructor returns, in its environment *)

(** X2.  For a member file every record of which has as many fields as the
    header, and where no operation on the debug file fails: once the rows
    are read, the constructor returns exactly when every record that
    overlaps its predecessor in its sorted group can be repaired, that is,
    both expiration dates parse and the predecessor's expiration year is
    from 1899 to 9998.  Otherwise it raises [ValueError], never another
    exception. *)
Theorem X2_returns_iff (a : argument) (fails : option nat) (mf : memberfile)
    (overlapfile : option string) (rows : list row)
    (names0 : list (namekey * list thisrec)) :
  reads a = Some mf →
  debug_file_ok fails overlapfile = true →
  source_rows mf = inr rows →
  read_names rows = inr names0 →
  ((∃ c, init_io fails mf overlapfile = inr c) ↔
   (∀ n k g0 i prev cur,
      names0 !! n = Some (k, g0) →
      sorted g0 !! i = Some prev → sorted g0 !! S i = Some cur →
      repairable prev cur))
  ∧ (∀ e, init_io fails mf overlapfile = inl e → e = ValueError).
Proof.
  intros _ Hok Hrows Hread. rewrite (init_io_ok _ _ _ Hok).
  by apply (init_returns_iff mf overlapfile rows names0).
Qed.

Lemma X2_returns_iff_witness :
  reads (arg_list roe_lines) = Some (mf_list roe_rows)
  ∧ debug_file_ok None (Some "overlaps.csv"%string) = true
  ∧ read_names roe_rows = inr roe_names0
  ∧ ((∃ c, init_io None (mf_list roe_rows) (Some "overlaps.csv"%string)
           = inr c) ↔
     (∀ n k g0 i prev cur,
        roe_names0 !! n = Some (k, g0) →
        sorted g0 !! i = Some prev → sorted g0 !! S i = Some cur →
        repairable prev cur)).
Proof.
  split; [exact roe_reads|]. split; [reflexivity|]. split; [exact roe_read|].
  exact (proj1 (X2_returns_iff (arg_list roe_lines) None (mf_list roe_rows)
                  (Some "overlaps.csv"%string) roe_rows roe_names0
                  roe_reads eq_refl eq_refl roe_read)).
Defined.

(** X3.  On a roster in which every row has the six columns and an
    expiration date that parses, with a year from 1899 to 9998, the
    constructor returns, whatever the join dates are, where no operation on
    the debug file fails. *)
Theorem X3_returns_on_valid_expirations (fails : option nat)
    (mf : memberfile) (overlapfile : option string) (rows : list row) :
  debug_file_ok fails overlapfile = true →
  source_rows mf = inr rows →
  Forall (λ r, first_missing r = None) rows →
  forallb expiration_in_range rows = true →
  ∃ c, init_io fails mf overlapfile = inr c.
Proof.
  intros Hok Hrows Hcomplete Hrange. rewrite (init_io_ok _ _ _ Hok).
  by apply (init_returns_on_valid_expirations mf overlapfile rows).
Qed.

Lemma X3_returns_on_valid_expirations_witness :
  debug_file_ok None (Some "overlaps.csv"%string) = true
  ∧ Forall (λ r, first_missing r = None) poe_rows
  ∧ forallb expiration_in_range poe_rows = true
  ∧ ∃ c, init_io None (mf_list poe_rows) (Some "overlaps.csv"%string)
         = inr c.
Proof.
  assert (Forall (λ r, first_missing r = None) poe_rows) as H1.
  { repeat constructor. }
  assert (forallb expiration_in_range poe_rows = true) as H2.
  { vm_compute. reflexivity. }
  split; [reflexivity|]. split; [exact H1|]. split; [exact H2|].
  exact (X3_returns_on_valid_expirations None (mf_list poe_rows)
           (Some "overlaps.csv"%string) poe_rows eq_refl eq_refl H1 H2).
Defined.

(** X4.  If in every sorted group every record joins after its predecessor
    expires (by the test of the code), then, where no operation on the debug
    file fails, the constructor returns, parses no date, tosses nothing and
    changes no row: the groups are the sorted groups of the input, the rows
    are as they were and the debug file, if asked for, has its header
    only. *)
Theorem X4_no_overlap_no_change (fails : option nat) (mf : memberfile)
    (overlapfile : option string) (rows : list row)
    (names0 : list (namekey * list thisrec)) :
  debug_file_ok fails overlapfile = true →
  source_rows mf = inr rows →
  read_names rows = inr names0 →
  (∀ n k g0 i prev cur,
     names0 !! n = Some (k, g0) →
     sorted g0 !! i = Some prev → sorted g0 !! S i = Some cur →
     ¬ overlaps prev cur) →
  init_io fails mf overlapfile
  = inr (Constructed (sorted_names names0) rows
           (if truthy overlapfile then Some [ovrlp_header] else None)).
Proof.
  intros Hok Hrows Hread Hno. rewrite (init_io_ok _ _ _ Hok).
  by apply (init_no_overlap mf overlapfile rows names0).
Qed.

Lemma X4_no_overlap_no_change_witness :
  debug_file_ok None (Some "overlaps.csv"%string) = true
  ∧ init_io None (mf_list poe_rows) (Some "overlaps.csv"%string)
    = inr (Constructed
             (sorted_names
                [(("Poe", "Ann", "1990-02-03")%string,
                  [ThisRec "3" "Poe, Ann" "2025-01-01" "2020-12-31"
                     "1990-02-03" 0 None;
                   ThisRec "4" "Poe, Ann" "2021-06-01" "2022-06-30"
                     "1990-02-03" 1 None]%string)])
             poe_rows (Some [ovrlp_header])).
Proof.
  split; [reflexivity|].
  apply (X4_no_overlap_no_change None (mf_list poe_rows)
           (Some "overlaps.csv"%string) poe_rows _ eq_refl eq_refl eq_refl).
  intros [|[|n]] k g0 i prev cur Hn; [|done..].
  injection Hn as <- <-.
  destruct i as [|[|i]]; [|done..].
  intros [= <-] [= <-]. unfold overlaps. discriminate.
Defined.


Section racedb_update.
Context {V : Type} (py_ne : V → V → bool).
Implicit Types (w : racedb.world V) (columns skipcolumns : list string).

Lemma update_body_eq skipcolumns oldinstance newinstance updated col w :
  racedb.update_body py_ne skipcolumns oldinstance newinstance updated col w
  = if bool_decide (col ∈ skipcolumns) then (inr updated, w)
    else match racedb.deref w oldinstance !! col,
               racedb.deref w newinstance !! col with
         | Some a, Some b =>
             if py_ne a b
             then (inr true,
                   racedb.World
                     (alter (<[col := b]>) oldinstance (racedb.objects w))
                     (racedb.calls w))
             else (inr updated, w)
         | _, _ => (inl (racedb.AttributeError col), w)
         end.
Proof.
  unfold racedb.update_body. destruct (bool_decide (col ∈ skipcolumns)); [done|].
  unfold mbind, racedb.SE_bind, racedb.se_bind, racedb.getattr.
  destruct (racedb.deref w oldinstance !! col) as [a|]; [|done].
  destruct (racedb.deref w newinstance !! col) as [b|] eqn:Hb; [|done].
  destruct (py_ne a b); [|done]. by rewrite Hb.
Qed.

Lemma deref_alter (f : gmap string V → gmap string V) w i j cs :
  racedb.deref (racedb.World (alter f i (racedb.objects w)) cs) j
  = if decide (i = j ∧ (i < length (racedb.objects w))%nat)
    then f (racedb.deref w j) else racedb.deref w j.
Proof.
  unfold racedb.deref. simpl. rewrite !list_lookup_total_alt.
  destruct (decide (i = j)) as [->|Hne].
  - rewrite list_lookup_alter_eq.
    destruct (racedb.objects w !! j) as [o|] eqn:Ho; simpl.
    + apply lookup_lt_Some in Ho. by rewrite decide_True.
    + apply lookup_ge_None in Ho. rewrite decide_False; [done|lia].
  - rewrite list_lookup_alter_ne by done. rewrite decide_False; [done|].
    by intros [? _].
Qed.

Lemma deref_Some_lt w i key v :
  racedb.deref w i !! key = Some v → (i < length (racedb.objects w))%nat.
Proof.
  unfold racedb.deref. rewrite list_lookup_total_alt. intros H.
  destruct (racedb.objects w !! i) as [o|] eqn:Ho.
  - by apply lookup_lt_Some in Ho.
  - simpl in H. by rewrite lookup_empty in H.
Qed.

(** What one turn of the loop of [update] leaves as it was. *)
Lemma update_body_frame skipcolumns oldinstance newinstance updated col w
    res w' :
  racedb.update_body py_ne skipcolumns oldinstance newinstance updated col w
  = (res, w') →
  racedb.calls w' = racedb.calls w
  ∧ length (racedb.objects w') = length (racedb.objects w)
  ∧ (∀ i, i ≠ oldinstance → racedb.objects w' !! i = racedb.objects w !! i)
  ∧ racedb.deref w' newinstance = racedb.deref w newinstance
  ∧ (∀ key, key ≠ col ∨ key ∈ skipcolumns →
       racedb.deref w' oldinstance !! key = racedb.deref w oldinstance !! key)
  ∧ (∀ i key, is_Some (racedb.deref w' i !! key)
              ↔ is_Some (racedb.deref w i !! key)).
Proof.
  rewrite update_body_eq. case_bool_decide as Hskip.
  { intros [= <- <-]. done. }
  destruct (racedb.deref w oldinstance !! col) as [a|] eqn:Ha;
    [|by intros [= <- <-]].
  destruct (racedb.deref w newinstance !! col) as [b|] eqn:Hb;
    [|by intros [= <- <-]].
  destruct (py_ne a b); [|by intros [= <- <-]].
  intros [= <- <-]. simpl.
  pose proof (deref_Some_lt _ _ _ _ Ha) as Hlt.
  split; [done|]. split; [by rewrite length_alter|].
  split; [intros i Hi; by rewrite list_lookup_alter_ne|].
  split; [|split].
  - rewrite deref_alter. case_decide as Hd; [|done].
    destruct Hd as [<- _]. rewrite Ha in Hb. injection Hb as ->.
    by apply insert_id.
  - intros key Hkey. rewrite deref_alter, decide_True by done.
    assert (col ≠ key) as Hne.
    { destruct Hkey as [Hkey|Hkey]; [done|]. by intros ->. }
    by rewrite lookup_insert_ne.
  - intros i key. rewrite deref_alter. case_decide as Hd; [|done].
    destruct Hd as [<- _].
    destruct (decide (col = key)) as [<-|Hne].
    + rewrite lookup_insert_eq, Ha. split; eauto.
    + by rewrite lookup_insert_ne.
Qed.

Lemma update_loop_frame skipcolumns oldinstance newinstance columns :
  ∀ updated w res w',
    racedb.se_for
      (racedb.update_body py_ne skipcolumns oldinstance newinstance)
      columns updated w = (res, w') →
    racedb.calls w' = racedb.calls w
    ∧ length (racedb.objects w') = length (racedb.objects w)
    ∧ (∀ i, i ≠ oldinstance → racedb.objects w' !! i = racedb.objects w !! i)
    ∧ racedb.deref w' newinstance = racedb.deref w newinstance
    ∧ (∀ key, key ∉ columns ∨ key ∈ skipcolumns →
         racedb.deref w' oldinstance !! key
         = racedb.deref w oldinstance !! key)
    ∧ (∀ i key, is_Some (racedb.deref w' i !! key)
                ↔ is_Some (racedb.deref w i !! key)).
Proof.
  induction columns as [|col columns IH]; intros updated w res w'.
  { intros [= <- <-]. done. }
  simpl. unfold mbind, racedb.SE_bind, racedb.se_bind.
  destruct (racedb.update_body py_ne skipcolumns oldinstance newinstance
              updated col w) as [[e|u1] w1] eqn:Hstep;
    destruct (update_body_frame _ _ _ _ _ _ _ _ Hstep)
      as (Hc & Hl & Ho & Hn & Hk & Hd).
  - intros [= <- <-]. repeat split; try done; try apply Hd.
    intros key Hkey. apply Hk. destruct Hkey as [Hkey|Hkey]; [|by right].
    left. intros ->. apply Hkey. by left.
  - intros Hrest.
    destruct (IH _ _ _ _ Hrest) as (Hc' & Hl' & Ho' & Hn' & Hk' & Hd').
    split; [congruence|]. split; [congruence|].
    split; [intros i Hi; by rewrite Ho', Ho|].
    split; [congruence|]. split.
    + intros key Hkey. rewrite Hk', Hk; [done| |].
      * destruct Hkey as [Hkey|Hkey]; [|by right].
        left. intros ->. apply Hkey. by left.
      * destruct Hkey as [Hkey|Hkey]; [|by right].
        left. intros Hin. apply Hkey. by right.
    + intros i key. by rewrite Hd', Hd.
Qed.

(** On columns that are settled, the loop of [update] does nothing. *)
Lemma update_loop_settled skipcolumns oldinstance newinstance columns :
  ∀ updated w,
    (∀ col, col ∈ columns →
       racedb.settled py_ne skipcolumns oldinstance newinstance w col) →
    racedb.se_for
      (racedb.update_body py_ne skipcolumns oldinstance newinstance)
      columns updated w = (inr updated, w).
Proof.
  induction columns as [|col columns IH]; intros updated w Hs; [done|].
  simpl. unfold mbind, racedb.SE_bind, racedb.se_bind.
  rewrite update_body_eq.
  assert (racedb.settled py_ne skipcolumns oldinstance newinstance w col)
    as Hcol by (apply Hs; by left).
  case_bool_decide as Hskip.
  - apply IH. intros c Hc. apply Hs. by right.
  - destruct (Hcol Hskip) as (a & b & -> & -> & ->).
    apply IH. intros c Hc. apply Hs. by right.
Qed.

(** If the loop of [update] ends with [updated] still [False], it has done
    nothing and every column is settled. *)
Lemma update_loop_false skipcolumns oldinstance newinstance columns :
  ∀ updated w w',
    racedb.se_for
      (racedb.update_body py_ne skipcolumns oldinstance newinstance)
      columns updated w = (inr false, w') →
    updated = false ∧ w' = w
    ∧ ∀ col, col ∈ columns →
        racedb.settled py_ne skipcolumns oldinstance newinstance w col.
Proof.
  induction columns as [|col columns IH]; intros updated w w'.
  { intros [= -> <-]. repeat split. intros col Hcol. by apply elem_of_nil in Hcol. }
  simpl. unfold mbind, racedb.SE_bind, racedb.se_bind.
  rewrite update_body_eq. case_bool_decide as Hskip.
  - intros (-> & -> & Hs)%IH. repeat split.
    intros c [->|Hc]%elem_of_cons; [by intros ?|by apply Hs].
  - destruct (racedb.deref w oldinstance !! col) as [a|] eqn:Ha; [|done].
    destruct (racedb.deref w newinstance !! col) as [b|] eqn:Hb; [|done].
    destruct (py_ne a b) eqn:Hne.
    + by intros ([=] & _)%IH.
    + intros (-> & -> & Hs)%IH. repeat split.
      intros c [->|Hc]%elem_of_cons; [|by apply Hs].
      intros _. eauto.
Qed.

(** After the loop of [update], run from any store, every column it went
    through is settled, if no value of [newinstance] differs from itself. *)
Lemma update_loop_settles skipcolumns oldinstance newinstance columns :
  ∀ updated w res w',
    (∀ key v, racedb.deref w newinstance !! key = Some v →
              py_ne v v = false) →
    racedb.se_for
      (racedb.update_body py_ne skipcolumns oldinstance newinstance)
      columns updated w = (inr res, w') →
    ∀ col, col ∈ columns →
      racedb.settled py_ne skipcolumns oldinstance newinstance w' col.
Proof.
  assert (∀ col, ∀ updated c w res w',
            (∀ key v, racedb.deref w newinstance !! key = Some v →
                      py_ne v v = false) →
            racedb.update_body py_ne skipcolumns oldinstance newinstance
              updated c w = (inr res, w') →
            (col = c ∨
             racedb.settled py_ne skipcolumns oldinstance newinstance w col) →
            racedb.settled py_ne skipcolumns oldinstance newinstance w' col)
    as Hstep.
  { intros col updated c w res w' Hrefl Hbody Hcol Hskip.
    pose proof (update_body_frame _ _ _ _ _ _ _ _ Hbody)
      as (_ & _ & _ & Hn & Hk & _).
    rewrite update_body_eq in Hbody. rewrite Hn.
    case_bool_decide as Hskipc.
    { injection Hbody as <- <-. destruct Hcol as [->|Hcol]; [done|].
      by apply Hcol. }
    destruct (racedb.deref w oldinstance !! c) as [a|] eqn:Ha; [|done].
    destruct (racedb.deref w newinstance !! c) as [b|] eqn:Hb; [|done].
    destruct (decide (col = c)) as [->|Hne].
    - destruct (py_ne a b) eqn:Hab; injection Hbody as <- <-.
      + exists b, b. rewrite deref_alter, decide_True
          by eauto using deref_Some_lt.
        rewrite lookup_insert_eq. eauto.
      + exists a, b. done.
    - destruct Hcol as [->|Hcol]; [done|].
      rewrite Hk by (by left). by apply Hcol. }
  induction columns as [|c columns IH]; intros updated w res w' Hrefl.
  { intros _ col Hcol. by apply elem_of_nil in Hcol. }
  simpl. unfold mbind, racedb.SE_bind, racedb.se_bind.
  destruct (racedb.update_body py_ne skipcolumns oldinstance newinstance
              updated c w) as [[e|u1] w1] eqn:Hbody; [done|].
  intros Hrest col Hcol.
  pose proof (update_body_frame _ _ _ _ _ _ _ _ Hbody)
    as (_ & _ & _ & Hn & _).
  assert (∀ key v, racedb.deref w1 newinstance !! key = Some v →
                   py_ne v v = false) as Hrefl1.
  { intros key v. rewrite Hn. apply Hrefl. }
  apply elem_of_cons in Hcol as [->|Hcol]; [|by eapply IH].
  assert (racedb.settled py_ne skipcolumns oldinstance newinstance w1 c)
    as Hc.
  { apply (Hstep c updated c w u1 w1 Hrefl Hbody). by left. }
  clear Hbody Hn Hrefl IH. revert w1 u1 Hrefl1 Hrest Hc.
  induction columns as [|c' columns IH]; intros w1 u1 Hrefl1.
  { by intros [= <- <-]. }
  simpl. unfold mbind, racedb.SE_bind, racedb.se_bind.
  destruct (racedb.update_body py_ne skipcolumns oldinstance newinstance
              u1 c' w1) as [[e|u2] w2] eqn:Hbody; [done|].
  intros Hrest Hc.
  pose proof (update_body_frame _ _ _ _ _ _ _ _ Hbody)
    as (_ & _ & _ & Hn & _).
  apply (IH w2 u2); [|done|].
  - intros key v. rewrite Hn. apply Hrefl1.
  - apply (Hstep c u1 c' w1 u2 w2 Hrefl1 Hbody). by right.
Qed.

(** The loop of [update] on columns that both instances have. *)
Lemma update_loop_effect skipcolumns oldinstance newinstance columns :
  ∀ updated w,
    (∀ col, col ∈ columns → col ∉ skipcolumns →
       is_Some (racedb.deref w oldinstance !! col)
       ∧ is_Some (racedb.deref w newinstance !! col)) →
    ∃ w',
      racedb.se_for
        (racedb.update_body py_ne skipcolumns oldinstance newinstance)
        columns updated w
      = (inr (updated
              || existsb (racedb.differs py_ne skipcolumns oldinstance
                            newinstance w) columns), w')
      ∧ ∀ col a b, col ∈ columns → col ∉ skipcolumns →
          racedb.deref w oldinstance !! col = Some a →
          racedb.deref w newinstance !! col = Some b →
          racedb.deref w' oldinstance !! col
          = Some (if py_ne a b then b else a).
Proof.
  induction columns as [|c columns IH]; intros updated w Hread.
  { exists w. split; [by rewrite orb_false_r|].
    intros col a b Hcol. by apply elem_of_nil in Hcol. }
  assert (∀ col, col ∈ columns → col ∉ skipcolumns →
            is_Some (racedb.deref w oldinstance !! col)
            ∧ is_Some (racedb.deref w newinstance !! col)) as Hread'.
  { intros col Hcol. apply Hread. by right. }
  simpl. unfold mbind, racedb.SE_bind, racedb.se_bind.
  destruct (racedb.update_body py_ne skipcolumns oldinstance newinstance
              updated c w) as [res w1] eqn:Hbody.
  pose proof Hbody as Hbody'. rewrite update_body_eq in Hbody'.
  unfold racedb.differs at 1.
  case_bool_decide as Hskip.
  { injection Hbody' as <- <-. simpl.
    destruct (IH updated w Hread') as (w' & -> & Hval).
    exists w'. split; [done|].
    intros col a b [->|Hcol]%elem_of_cons; [done|by apply Hval]. }
  destruct (Hread c) as [[a Ha] [b Hb]]; [by left|done|].
  rewrite Ha, Hb in Hbody' |- *. simpl.
  destruct (py_ne a b) eqn:Hab; injection Hbody' as <- <-.
  2:{ destruct (IH updated w Hread') as (w' & Heq & Hval).
      exists w'. split; [done|].
      intros col a' b' [->|Hcol]%elem_of_cons; [|by apply Hval].
      intros _ Ha' Hb'. rewrite Ha in Ha'. rewrite Hb in Hb'.
      injection Ha' as <-. injection Hb' as <-. rewrite Hab.
      destruct (decide (c ∈ columns)) as [Hin|Hnin].
      - rewrite (Hval c a b) by done. by rewrite Hab.
      - destruct (update_loop_frame _ _ _ _ _ _ _ _ Heq)
          as (_ & _ & _ & _ & Hk & _).
        rewrite Hk by (by left). done. }
  destruct (update_body_frame _ _ _ _ _ _ _ _ Hbody)
    as (_ & _ & _ & Hn & Hk & Hd).
  set (w1 := racedb.World _ _) in *.
  assert (racedb.deref w1 oldinstance !! c = Some b) as Hc1.
  { unfold w1. rewrite deref_alter, decide_True by eauto using deref_Some_lt.
    by rewrite lookup_insert_eq. }
  destruct (IH true w1) as (w' & Heq & Hval).
  { intros col Hcol Hs. rewrite !Hd. by apply Hread'. }
  exists w'. rewrite orb_true_r. split; [done|].
  intros col a' b' Hcol Hs Ha' Hb'.
  destruct (decide (col = c)) as [->|Hne].
  - rewrite Ha in Ha'. rewrite Hb in Hb'.
    injection Ha' as <-. injection Hb' as <-. rewrite Hab.
    destruct (decide (c ∈ columns)) as [Hin|Hnin].
    + rewrite (Hval c b b Hin Hs Hc1); [by destruct (py_ne b b)|].
      by rewrite Hn.
    + destruct (update_loop_frame _ _ _ _ _ _ _ _ Heq)
        as (_ & _ & _ & _ & Hk' & _).
      rewrite Hk' by (by left). done.
  - apply elem_of_cons in Hcol as [->|Hcol]; [done|].
    apply Hval; [done|done| |by rewrite Hn].
    rewrite Hk by (by left). done.
Qed.

(** The loop of [update] raises at the first column that it compares and
    that one of the instances lacks. *)
Lemma update_loop_error skipcolumns oldinstance newinstance columns :
  ∀ updated w,
    match find (racedb.unreadable skipcolumns oldinstance newinstance w)
            columns with
    | Some col =>
        ∃ w', racedb.se_for
                (racedb.update_body py_ne skipcolumns oldinstance
                   newinstance) columns updated w
              = (inl (racedb.AttributeError col), w')
    | None =>
        ∃ res w', racedb.se_for
                    (racedb.update_body py_ne skipcolumns oldinstance
                       newinstance) columns updated w
                  = (inr res, w')
    end.
Proof.
  induction columns as [|c columns IH]; intros updated w; [by eexists _, _|].
  simpl. unfold mbind, racedb.SE_bind, racedb.se_bind.
  destruct (racedb.update_body py_ne skipcolumns oldinstance newinstance
              updated c w) as [res w1] eqn:Hbody.
  destruct (update_body_frame _ _ _ _ _ _ _ _ Hbody)
    as (_ & _ & _ & _ & _ & Hd).
  assert (find (racedb.unreadable skipcolumns oldinstance newinstance w1)
            columns
          = find (racedb.unreadable skipcolumns oldinstance newinstance w)
              columns) as Hfind.
  { clear IH. induction columns as [|c' columns IH]; [done|]. simpl.
    rewrite IH.
    assert (racedb.unreadable skipcolumns oldinstance newinstance w1 c'
            = racedb.unreadable skipcolumns oldinstance newinstance w c')
      as ->; [|done].
    unfold racedb.unreadable. do 2 f_equal.
    apply bool_decide_ext. by rewrite !Hd. }
  rewrite update_body_eq in Hbody. unfold racedb.unreadable at 1.
  case_bool_decide as Hskip; simpl.
  { injection Hbody as <- <-. apply IH. }
  destruct (racedb.deref w oldinstance !! c) as [a|] eqn:Ha.
  2:{ injection Hbody as <- <-. rewrite bool_decide_false; [by eexists|].
      by intros [[? [=]] _]. }
  destruct (racedb.deref w newinstance !! c) as [b|] eqn:Hb.
  2:{ injection Hbody as <- <-. rewrite bool_decide_false; [by eexists|].
      by intros [_ [? [=]]]. }
  rewrite bool_decide_true by eauto. simpl.
  rewrite <- Hfind.
  destruct (py_ne a b); injection Hbody as <- <-; apply IH.
Qed.

End racedb_update.

Lemma runner_update :
  racedb.update value_ne runner_columns ["id"%string] 0 1 runner_world
  = (inr true, runner_world_updated).
Proof. reflexivity. Qed.

Lemma runner_update_again :
  racedb.update value_ne runner_columns ["id"%string] 0 1 runner_world_updated
  = (inr false, runner_world_updated).
Proof. reflexivity. Qed.

Lemma value_ne_refl v : value_ne v v = false.
Proof.
  destruct v as [|n|s]; simpl; [done| |].
  - by rewrite Z.eqb_refl.
  - by rewrite String.eqb_refl.
Qed.

(** X11.  What [update] never touches, whether it returns or raises: it
    makes no call on the session and creates or deletes no attribute and no
    object; of all objects only [oldinstance] can change, and of its
    attributes only the columns that are not skipped; [newinstance] is as it
    was, also when it is [oldinstance] itself. *)
Theorem X11_update_frame {V} (py_ne : V → V → bool)
    (columns skipcolumns : list string) (oldinstance newinstance : nat)
    (w w' : racedb.world V) (res : racedb.error + bool) :
  racedb.update py_ne columns skipcolumns oldinstance newinstance w
  = (res, w') →
  racedb.calls w' = racedb.calls w
  ∧ length (racedb.objects w') = length (racedb.objects w)
  ∧ (∀ i, i ≠ oldinstance → racedb.objects w' !! i = racedb.objects w !! i)
  ∧ racedb.deref w' newinstance = racedb.deref w newinstance
  ∧ (∀ key, key ∉ columns ∨ key ∈ skipcolumns →
       racedb.deref w' oldinstance !! key
       = racedb.deref w oldinstance !! key)
  ∧ (∀ i key, is_Some (racedb.deref w' i !! key)
              ↔ is_Some (racedb.deref w i !! key)).
Proof. apply update_loop_frame. Qed.

Lemma X11_update_frame_witness :
  racedb.update value_ne runner_columns ["id"%string] 0 1 runner_world
  = (inr true, runner_world_updated)
  ∧ racedb.deref runner_world_updated 1 = racedb.deref runner_world 1.
Proof.
  split; [exact runner_update|].
  exact (proj1 (proj2 (proj2 (proj2
           (X11_update_frame value_ne runner_columns ["id"%string] 0 1
              runner_world runner_world_updated (inr true)
              runner_update))))).
Defined.

Lemma update_false_iff {V} (py_ne : V → V → bool)
    (columns skipcolumns : list string) (oldinstance newinstance : nat)
    (w w' : racedb.world V) :
  racedb.update py_ne columns skipcolumns oldinstance newinstance w
  = (inr false, w')
  ↔ w' = w
    ∧ ∀ col, col ∈ columns → col ∉ skipcolumns →
        ∃ a b, racedb.deref w oldinstance !! col = Some a
               ∧ racedb.deref w newinstance !! col = Some b
               ∧ py_ne a b = false.
Proof.
  unfold racedb.update. split.
  - intros (_ & -> & Hs)%update_loop_false. split; [done|].
    intros col Hcol. by apply Hs.
  - intros [-> Hs]. apply update_loop_settled. intros col Hcol Hskip.
    by apply Hs.
Qed.

(** X12.  [update] returns [False] exactly when every column that is not
    skipped is an attribute of both instances with values that do not differ
    under [!=]; it has then changed nothing. *)
Theorem X12_update_false_iff {V} (py_ne : V → V → bool)
    (columns skipcolumns : list string) (oldinstance newinstance : nat)
    (w w' : racedb.world V) :
  racedb.update py_ne columns skipcolumns oldinstance newinstance w
  = (inr false, w')
  ↔ w' = w
    ∧ ∀ col, col ∈ columns → col ∉ skipcolumns →
        ∃ a b, racedb.deref w oldinstance !! col = Some a
               ∧ racedb.deref w newinstance !! col = Some b
               ∧ py_ne a b = false.
Proof. apply update_false_iff. Qed.

Lemma X12_update_false_iff_witness :
  runner_world_updated = runner_world_updated
  ∧ ∀ col, col ∈ runner_columns → col ∉ ["id"%string] →
      ∃ a b, racedb.deref runner_world_updated 0 !! col = Some a
             ∧ racedb.deref runner_world_updated 1 !! col = Some b
             ∧ value_ne a b = false.
Proof.
  exact (proj1 (X12_update_false_iff value_ne runner_columns ["id"%string]
                  0 1 runner_world_updated runner_world_updated)
           runner_update_again).
Defined.

(** X13.  [update] is idempotent.  If no value of [newinstance] differs from
    itself under [!=], then after [update] has returned, whatever it
    returned, the same call made again returns [False] and changes
    nothing. *)
Theorem X13_update_twice {V} (py_ne : V → V → bool)
    (columns skipcolumns : list string) (oldinstance newinstance : nat)
    (w w' : racedb.world V) (res : bool) :
  (∀ key v, racedb.deref w newinstance !! key = Some v → py_ne v v = false) →
  racedb.update py_ne columns skipcolumns oldinstance newinstance w
  = (inr res, w') →
  racedb.update py_ne columns skipcolumns oldinstance newinstance w'
  = (inr false, w').
Proof.
  intros Hrefl Hupdate. apply update_loop_settled.
  by apply (update_loop_settles py_ne _ _ _ _ _ _ _ _ Hrefl Hupdate).
Qed.

Lemma X13_update_twice_witness :
  racedb.update value_ne runner_columns ["id"%string] 0 1 runner_world
  = (inr true, runner_world_updated)
  ∧ racedb.update value_ne runner_columns ["id"%string] 0 1
      runner_world_updated
    = (inr false, runner_world_updated).
Proof.
  split; [exact runner_update|].
  exact (X13_update_twice value_ne runner_columns ["id"%string] 0 1
           runner_world runner_world_updated true
           (λ _ v _, value_ne_refl v) runner_update).
Defined.

(** X14.  What [update] does when both instances have every column that is
    not skipped.  It returns, [True] exactly when the values of one of these
    columns differ under [!=], and every such column of [oldinstance] then
    holds the value of [newinstance] where the two differed and its own
    value where they did not. *)
Theorem X14_update_effect {V} (py_ne : V → V → bool)
    (columns skipcolumns : list string) (oldinstance newinstance : nat)
    (w : racedb.world V) :
  (∀ col, col ∈ columns → col ∉ skipcolumns →
     is_Some (racedb.deref w oldinstance !! col)
     ∧ is_Some (racedb.deref w newinstance !! col)) →
  ∃ w',
    racedb.update py_ne columns skipcolumns oldinstance newinstance w
    = (inr (existsb (racedb.differs py_ne skipcolumns oldinstance
                       newinstance w) columns), w')
    ∧ ∀ col a b, col ∈ columns → col ∉ skipcolumns →
        racedb.deref w oldinstance !! col = Some a →
        racedb.deref w newinstance !! col = Some b →
        racedb.deref w' oldinstance !! col
        = Some (if py_ne a b then b else a).
Proof.
  intros Hread.
  destruct (update_loop_effect py_ne skipcolumns oldinstance newinstance
              columns false w Hread) as (w' & Heq & Hval).
  exists w'. split; [exact Heq|exact Hval].
Qed.

Lemma runner_readable :
  ∀ col, col ∈ runner_columns → col ∉ ["id"%string] →
    is_Some (racedb.deref runner_world 0 !! col)
    ∧ is_Some (racedb.deref runner_world 1 !! col).
Proof.
  intros col Hcol _. unfold runner_columns in Hcol.
  repeat (apply elem_of_cons in Hcol as [->|Hcol]; [split; by eexists|]).
  by apply elem_of_nil in Hcol.
Qed.

Lemma X14_update_effect_witness :
  ∃ w',
    racedb.update value_ne runner_columns ["id"%string] 0 1 runner_world
    = (inr (existsb (racedb.differs value_ne ["id"%string] 0 1 runner_world)
              runner_columns), w')
    ∧ ∀ col a b, col ∈ runner_columns → col ∉ ["id"%string] →
        racedb.deref runner_world 0 !! col = Some a →
        racedb.deref runner_world 1 !! col = Some b →
        racedb.deref w' 0 !! col = Some (if value_ne a b then b else a).
Proof.
  exact (X14_update_effect value_ne runner_columns ["id"%string] 0 1
           runner_world runner_readable).
Defined.

(** X15.  [update] raises exactly when one of the instances lacks a column
    that is not skipped, and the exception is [AttributeError] for the first
    such column in the order of the columns; otherwise it returns. *)
Theorem X15_update_raises {V} (py_ne : V → V → bool)
    (columns skipcolumns : list string) (oldinstance newinstance : nat)
    (w : racedb.world V) :
  match find (racedb.unreadable skipcolumns oldinstance newinstance w)
          columns with
  | Some col =>
      ∃ w', racedb.update py_ne columns skipcolumns oldinstance newinstance w
            = (inl (racedb.AttributeError col), w')
  | None =>
      ∃ res w',
        racedb.update py_ne columns skipcolumns oldinstance newinstance w
        = (inr res, w')
  end.
Proof. apply update_loop_error. Qed.


(** [insert_or_update] by the number of rows that the query finds. *)
Lemma insert_or_update_eq {V} (py_ne : V → V → bool) instances columns
    skipcolumns newinstance (w : racedb.world V) :
  racedb.insert_or_update py_ne instances columns skipcolumns newinstance w
  = match instances with
    | [] =>
        (inr true,
         racedb.World (racedb.objects w)
           (((racedb.calls w ++ [racedb.Query]) ++ [racedb.Add newinstance])
            ++ [racedb.Flush]))
    | [i] =>
        match racedb.update py_ne columns skipcolumns i newinstance
                (racedb.World (racedb.objects w)
                   (racedb.calls w ++ [racedb.Query])) with
        | (inr true, w1) =>
            (inr true,
             racedb.World (racedb.objects w1)
               (racedb.calls w1 ++ [racedb.Flush]))
        | (inr false, w1) => (inr false, w1)
        | (inl e, w1) => (inl e, w1)
        end
    | _ =>
        (inl racedb.dbConsistencyError,
         racedb.World (racedb.objects w) (racedb.calls w ++ [racedb.Query]))
    end.
Proof.
  unfold racedb.insert_or_update, racedb.getunique.
  destruct instances as [|i [|j instances]]; try reflexivity.
  unfold mbind, racedb.SE_bind, racedb.se_bind, racedb.session_call. simpl.
  destruct (racedb.update py_ne columns skipcolumns i newinstance _)
    as [[e|[|]] w1]; reflexivity.
Qed.


(** X17.  [insert_or_update] returns [False] exactly when the query found
    one row and every column that is not skipped is an attribute of that row
    and of [newinstance] with values that do not differ under [!=].  It has
    then made no call on the session but the query and changed no object. *)
Theorem X17_insert_or_update_false_iff {V} (py_ne : V → V → bool)
    (instances : list nat) (columns skipcolumns : list string)
    (newinstance : nat) (w w' : racedb.world V) :
  racedb.insert_or_update py_ne instances columns skipcolumns newinstance w
  = (inr false, w')
  ↔ w' = racedb.World (racedb.objects w) (racedb.calls w ++ [racedb.Query])
    ∧ ∃ i, instances = [i]
           ∧ ∀ col, col ∈ columns → col ∉ skipcolumns →
               ∃ a b, racedb.deref w i !! col = Some a
                      ∧ racedb.deref w newinstance !! col = Some b
                      ∧ py_ne a b = false.
Proof.
  rewrite insert_or_update_eq. split.
  - destruct instances as [|i [|j instances]]; [done| |done].
    destruct (racedb.update py_ne columns skipcolumns i newinstance _)
      as [[e|[|]] w1] eqn:Hupdate; [done|done|].
    intros [= <-].
    apply update_false_iff in Hupdate as [-> Hs].
    split; [done|]. exists i. split; [done|exact Hs].
  - intros (-> & i & -> & Hs).
    set (w0 := racedb.World _ _).
    by rewrite (proj2 (update_false_iff py_ne columns skipcolumns i
                         newinstance w0 w0) (conj eq_refl Hs)).
Qed.

Lemma X17_insert_or_update_false_iff_witness :
  runner_world_updated
  = racedb.World (racedb.objects runner_world_updated)
      (racedb.calls runner_world_updated)
  ∧ racedb.insert_or_update value_ne [0%nat] runner_columns ["id"%string] 1
      runner_world_updated
    = (inr false,
       racedb.World (racedb.objects runner_world_updated)
         (racedb.calls runner_world_updated ++ [racedb.Query])).
Proof.
  split; [reflexivity|].
  apply (proj2 (X17_insert_or_update_false_iff value_ne [0%nat]
                  runner_columns ["id"%string] 1 runner_world_updated _)).
  split; [reflexivity|]. exists 0%nat. split; [reflexivity|].
  exact (proj2 (proj1 (update_false_iff value_ne runner_columns
                         ["id"%string] 0 1 runner_world_updated
                         runner_world_updated) runner_update_again)).
Defined.

Lemma wf_date_truthy s : wf_date s = true → truthy (Some s) = true.
Proof. by destruct s. Qed.

(** X18.  [Runner.__init__] returns exactly when the date of birth is [None],
    the empty text, or a text that [strptime] accepts for [%Y-%m-%d]; the
    runner then holds the date of birth as it was given, the empty text for
    [None], and is active.  For any other date of birth the exception is the
    [NameError] for the name [parameterError], never a [ValueError].  A
    well-formed date is always accepted. *)
Theorem X18_Runner_init (name : string) (dateofbirth : option string)
    (gender hometown : string) (member : bool) :
  ((∃ r, racedb.Runner_init name dateofbirth gender hometown member = inr r)
   ↔ truthy dateofbirth = false
     ∨ ∃ s dt, dateofbirth = Some s ∧ ymd.asc2dt s = inr dt)
  ∧ (∀ r, racedb.Runner_init name dateofbirth gender hometown member = inr r →
       r = racedb.mkRunner name (default ""%string dateofbirth) gender
             hometown member true)
  ∧ (∀ e, racedb.Runner_init name dateofbirth gender hometown member = inl e →
       e = NameError "parameterError")
  ∧ (∀ s, dateofbirth = Some s → wf_date s = true →
       racedb.Runner_init name dateofbirth gender hometown member
       = inr (racedb.mkRunner name s gender hometown member true)).
Proof.
  unfold racedb.Runner_init.
  destruct dateofbirth as [s|]; simpl.
  2:{ split; [split; [by left|by eexists]|].
      split; [by intros r [= <-]|]. split; [done|done]. }
  destruct (String.eqb s "") eqn:Hs; simpl.
  { apply String.eqb_eq in Hs as ->.
    split; [split; [by left|by eexists]|].
    split; [by intros r [= <-]|]. split; [done|].
    intros s [= <-] Hwf. done. }
  destruct (ymd.asc2dt s) as [e|dt] eqn:Hdt; simpl.
  - pose proof (asc2dt_inl _ _ Hdt) as ->. simpl.
    split; [split|].
    + by intros [r [=]].
    + intros [[=]|(s' & dt & [= <-] & Heq)]. congruence.
    + split; [done|]. split; [by intros e [= <-]|].
      intros s' [= <-] (dt & Hdt' & _)%wf_date_spec. congruence.
  - split; [split; [|by eexists]|].
    + intros _. right. by exists s, dt.
    + split; [by intros r [= <-]|]. split; [done|].
      by intros s' [= <-] _.
Qed.

Lemma X18_Runner_init_witness :
  wf_date "1980-02-03" = true
  ∧ racedb.Runner_init "Roe, Ann" (Some "1980-02-03"%string) "F" "Dover" true
    = inr (racedb.mkRunner "Roe, Ann" "1980-02-03" "F" "Dover" true true).
Proof.
  assert (wf_date "1980-02-03" = true) as Hwf by (vm_compute; reflexivity).
  split; [exact Hwf|].
  exact (proj2 (proj2 (proj2
           (X18_Runner_init "Roe, Ann" (Some "1980-02-03"%string) "F" "Dover"
              true))) _ eq_refl Hwf).
Defined.
